(** * ScaleHLS-HIDA: dataflow node parallelization and buffer copy simplification

    A shallow embedding of
    - [lib/Transforms/Dataflow/ParallelizeDataflowNode.cpp] (module [Dataflow])
    - [lib/Transforms/Memory/SimplifyCopy.cpp] (module [SimplifyCopy])
    together with the properties of the two passes stated in the design
    document, and further properties that the code shows (modules
    [DataflowCoverage] and [SimplifyCopyCoverage]).

    Conventions.  Operations are identified by a handle ([OpId]), as the C++
    code identifies them by pointer.  C++ integers are [Z] with the wrap-around
    written out ([to_u64], [to_u32]).  Code that can stop the process (a failed
    [assert], a division by zero) runs in the [Outcome] monad.  Analyses and
    utilities that live outside the two files (complexity and correlation
    analysis, factor distribution, loop legality, dominance) are record fields
    or section variables: every theorem holds for all of them. *)

From stdpp Require Import gmap strings list.
From Stdlib Require Import ZArith Lia Sorted.

Local Open Scope Z_scope.

(** Handles of MLIR operations ([Operation *], [NodeOp], [ScheduleOp], ...). *)
Abbreviation OpId := positive.

(** ** Machine integers *)

Definition to_u64 (z : Z) : Z := z mod 2 ^ 64.
Definition to_u32 (z : Z) : Z := z mod 2 ^ 32.

(** ** Outcomes of code that may stop the process *)

Inductive Fault :=
| DivisionByZero
| AssertionFailure (msg : string)
| OutOfFuel.

Inductive Outcome (A : Type) :=
| Normal (a : A)
| Abort (f : Fault).
Arguments Normal {A} a.
Arguments Abort {A} f.

Definition bind {A B : Type} (x : Outcome A) (k : A -> Outcome B) : Outcome B :=
  match x with
  | Normal a => k a
  | Abort f => Abort f
  end.

Notation "'let*' x := c 'in' k" := (bind c (fun x => k))
  (at level 10, x name, c at level 200, k at level 200).

(** [llvm::DenseMap::insert]: the entry is added only when the key is absent. *)
Definition DenseMap_insert {V : Type} (k : OpId) (v : V) (m : gmap OpId V) : gmap OpId V :=
  match m !! k with
  | Some _ => m
  | None => <[k := v]> m
  end.

(** [llvm::DenseMap::count] *)
Definition DenseMap_count {V : Type} (k : OpId) (m : gmap OpId V) : bool :=
  bool_decide (is_Some (m !! k)).

Module Dataflow.

(** ** The operations the budget traversal looks at *)

Inductive Attribute :=
| IntegerAttr (value : Z)
| OtherAttr.

Inductive OpKind :=
| ScheduleOp (increase decrease : option Attribute)
| NodeOp
| OtherOp.

(** An operation with the operations nested in its regions, in order. *)
#[warnings="-register-all"]
Inductive Operation :=
| Op (id : OpId) (kind : OpKind) (body : list Operation).

(** Induction over an operation and the operations nested in it. *)
Definition Operation_ind' (P : Operation -> Prop)
    (f : forall id kind body, Forall P body -> P (Op id kind body)) :
  forall op, P op :=
  fix go (op : Operation) : P op :=
    let '(Op id kind body) := op in
    f id kind body
      ((fix all (ops : list Operation) : Forall P ops :=
          match ops with
          | [] => @List.Forall_nil _ P
          | o :: rest => @List.Forall_cons _ P o rest (go o) (all rest)
          end) body).

(** [schedule.getOps<NodeOp>()]: the Node operations directly in the body. *)
Definition getNodeOps (body : list Operation) : list OpId :=
  omap (fun o => match o with Op id NodeOp _ => Some id | _ => None end) body.

(** All operation handles of a tree, in pre-order. *)
Fixpoint opIds (op : Operation) : list OpId :=
  let '(Op id _ body) := op in
  id :: (fix go (ops : list Operation) : list OpId :=
           match ops with
           | [] => []
           | o :: rest => opIds o ++ go rest
           end) body.

Inductive WalkResult := Advance | Interrupt.

Inductive Diagnostic :=
| OpError (op : OpId) (msg : string).

(** The pass options; [maxUnrollFactor] is an [unsigned]. *)
Record Options := {
  maxUnrollFactor : Z;
  pointLoopOnly : bool;
  complexityAware : bool;
  correlationAware : bool;
}.

(** [ComplexityAnalysis], as the pass uses it: a complexity is an
    [unsigned long], or is not available. *)
Record ComplexityAnalysis := {
  getScheduleComplexity : OpId -> option Z;
  getNodeComplexity : OpId -> option Z;
}.

(** What the traversal's callback sees of one Schedule: the Schedule, its
    [getParentOfType<NodeOp>()], its two annotations and its Node operations. *)
Record ScheduleVisit := {
  sv_schedule : OpId;
  sv_parent : option OpId;
  sv_increase : option Attribute;
  sv_decrease : option Attribute;
  sv_nodes : list OpId;
}.

(** [nodeParallelFactorMap] and the diagnostics emitted so far. *)
Abbreviation WalkState := (gmap OpId Z * list Diagnostic)%type.

Section Budget.
Context (opts : Options) (compAnal : ComplexityAnalysis).

(** [if (auto attr = getAttr(..)) if (auto annoFactor = attr.dyn_cast<IntegerAttr>())] *)
Definition integerAnnotation (attr : option Attribute) : option Z :=
  match attr with
  | Some (IntegerAttr v) => Some v
  | _ => None
  end.

(** [scheduleUnrollFactor *= annoFactor.getInt()] on [unsigned long]. *)
Definition applyIncrease (factor : Z) (attr : option Attribute) : Z :=
  match integerAnnotation attr with
  | Some v => to_u64 (factor * to_u64 v)
  | None => factor
  end.

(** [scheduleUnrollFactor /= annoFactor.getInt()] on [unsigned long]. *)
Definition applyDecrease (factor : Z) (attr : option Attribute) : Outcome Z :=
  match integerAnnotation attr with
  | Some v => if to_u64 v =? 0 then Abort DivisionByZero else Normal (factor / to_u64 v)
  | None => Normal factor
  end.

(** [std::max((unsigned long)1, scheduleUnrollFactor * nodeComplexity / scheduleComplexity)] *)
Definition nodeUnrollFactor (scheduleUnrollFactor nodeComplexity scheduleComplexity : Z)
  : Outcome Z :=
  if scheduleComplexity =? 0 then Abort DivisionByZero
  else Normal (Z.max 1 (to_u64 (scheduleUnrollFactor * nodeComplexity) / scheduleComplexity)).

(** The loop over [schedule.getOps<NodeOp>()]. *)
Fixpoint recordNodes (scheduleUnrollFactor scheduleComplexity : Z) (nodes : list OpId)
    (st : WalkState) : Outcome (WalkResult * WalkState) :=
  match nodes with
  | [] => Normal (Advance, st)
  | node :: rest =>
      match getNodeComplexity compAnal node with
      | None =>
          Normal (Interrupt, (st.1, st.2 ++ [OpError node "failed to get node complexity"]))
      | Some nodeComplexity =>
          let* f := nodeUnrollFactor scheduleUnrollFactor nodeComplexity scheduleComplexity in
          recordNodes scheduleUnrollFactor scheduleComplexity rest
            (DenseMap_insert node f st.1, st.2)
      end
  end.

(** The second half of the callback, from [getScheduleComplexity] on. *)
Definition visitNodes (scheduleUnrollFactor : Z) (v : ScheduleVisit) (st : WalkState)
  : Outcome (WalkResult * WalkState) :=
  match getScheduleComplexity compAnal (sv_schedule v) with
  | None =>
      Normal (Interrupt,
              (st.1, st.2 ++ [OpError (sv_schedule v) "failed to get schedule complexity"]))
  | Some scheduleComplexity =>
      recordNodes scheduleUnrollFactor scheduleComplexity (sv_nodes v) st
  end.

(** The first half of the callback: [scheduleUnrollFactor], or the parent Node
    whose factor is missing from the map. *)
Definition getScheduleUnrollFactor (v : ScheduleVisit) (m : gmap OpId Z) : Outcome (OpId + Z) :=
  match sv_parent v with
  | Some parentNode =>
      match m !! parentNode with
      | None => Normal (inl parentNode)
      | Some parentFactor =>
          let* f := applyDecrease (applyIncrease parentFactor (sv_increase v)) (sv_decrease v) in
          Normal (inr f)
      end
  | None => Normal (inr (maxUnrollFactor opts))
  end.

(** The callback of [func.walk<WalkOrder::PreOrder>([&](ScheduleOp schedule) ..)]. *)
Definition scheduleCallback (v : ScheduleVisit) (st : WalkState)
  : Outcome (WalkResult * WalkState) :=
  let* f := getScheduleUnrollFactor v st.1 in
  match f with
  | inl parentNode =>
      Normal (Interrupt,
              (st.1, st.2 ++ [OpError parentNode "failed to get parent node's unroll factor"]))
  | inr scheduleUnrollFactor => visitNodes scheduleUnrollFactor v st
  end.

(** Modelled from the spec: MLIR's [Operation::walk<WalkOrder::PreOrder>] is
    not among the sources. The traversal is pre-order: the callback runs on a
    Schedule before the operations nested in it are visited, and an
    interrupt ends the whole traversal. [parent] is the nearest enclosing
    Node of [op], which the callback gets from [getParentOfType<NodeOp>()]. *)
Fixpoint walk (parent : option OpId) (op : Operation) (st : WalkState)
  : Outcome (WalkResult * WalkState) :=
  let '(Op id kind body) := op in
  let* r := match kind with
       | ScheduleOp inc dec =>
           scheduleCallback
             {| sv_schedule := id; sv_parent := parent; sv_increase := inc;
                sv_decrease := dec; sv_nodes := getNodeOps body |} st
       | _ => Normal (Advance, st)
       end in
  match r with
  | (Interrupt, st') => Normal (Interrupt, st')
  | (Advance, st') =>
      let inner := match kind with NodeOp => Some id | _ => parent end in
      (fix walkBody (ops : list Operation) (st : WalkState) : Outcome (WalkResult * WalkState) :=
         match ops with
         | [] => Normal (Advance, st)
         | o :: rest =>
             let* r := walk inner o st in
             match r with
             | (Interrupt, st'') => Normal (Interrupt, st'')
             | (Advance, st'') => walkBody rest st''
             end
         end) body st'
  end.

(** [getNodeParallelFactorMap]: the map is cleared, then the function is
    walked. The walk's result is dropped by the C++ code; it is kept here to
    state what the traversal did. *)
Definition getNodeParallelFactorMap (func : Operation) : Outcome (WalkResult * WalkState) :=
  walk None func (∅, []).

End Budget.

(** ** The traversal as a sequence of Schedule visits *)

(** The Schedules of a tree in pre-order, each with what the callback reads. *)
Fixpoint schedules (parent : option OpId) (op : Operation) : list ScheduleVisit :=
  let '(Op id kind body) := op in
  let inner := match kind with NodeOp => Some id | _ => parent end in
  match kind with
  | ScheduleOp inc dec =>
      [{| sv_schedule := id; sv_parent := parent; sv_increase := inc;
          sv_decrease := dec; sv_nodes := getNodeOps body |}]
  | _ => []
  end ++
  (fix go (ops : list Operation) : list ScheduleVisit :=
     match ops with
     | [] => []
     | o :: rest => schedules inner o ++ go rest
     end) body.

Section Visits.
Context (opts : Options) (compAnal : ComplexityAnalysis).

(** Running the callback over a sequence of visits until one interrupts. *)
Fixpoint walkVisits (vs : list ScheduleVisit) (st : WalkState)
  : Outcome (WalkResult * WalkState) :=
  match vs with
  | [] => Normal (Advance, st)
  | v :: rest =>
      let* r := scheduleCallback opts compAnal v st in
      match r with
      | (Interrupt, st') => Normal (Interrupt, st')
      | (Advance, st') => walkVisits rest st'
      end
  end.

End Visits.

(** Visiting a concatenation: the second part runs unless the first interrupts. *)
Definition thenVisit (r : Outcome (WalkResult * WalkState))
    (k : WalkState -> Outcome (WalkResult * WalkState)) : Outcome (WalkResult * WalkState) :=
  let* r := r in
  match r with
  | (Interrupt, st') => Normal (Interrupt, st')
  | (Advance, st') => k st'
  end.

(** The map only grows, by Nodes of the visited Schedules, and a recorded
    factor is at least one. *)
Definition extendsBy (nodes : list OpId) (m m' : gmap OpId Z) : Prop :=
  m ⊆ m' /\ (forall k, is_Some (m' !! k) -> is_Some (m !! k) \/ k ∈ nodes) /\
  (map_Forall (fun _ b => 1 <= b) m -> map_Forall (fun _ b => 1 <= b) m').

(** The Nodes of a sequence of visits. *)
Definition visitedNodes (vs : list ScheduleVisit) : list OpId :=
  concat (sv_nodes <$> vs).

(** ** Loop bands, factors and the transformations applied to them *)

(** Handles of [AffineForOp]s and of correlations. *)
Abbreviation Loop := positive.
Abbreviation Correlation := positive.
Abbreviation AffineLoopBand := (list Loop).
Abbreviation FactorList := (list Z).

(** The two transformations the pass applies to the IR. The IR the pass works
    on is the function it was given followed by the transformations applied
    so far, most recent first. *)
Inductive Transform :=
| UnrollJam (band : AffineLoopBand) (factors : FactorList)
| Vectorize (band : AffineLoopBand) (sizes : list Z).

Abbreviation History := (list Transform).

Definition isUnrollJam (t : Transform) : Prop :=
  match t with UnrollJam _ _ => True | Vectorize _ _ => False end.

(** The utilities of [scalehls/Transforms/Utils.h] and of MLIR that the pass
    calls on the current IR. *)
Record LoopUtils := {
  getNodeLoopBand : OpId -> AffineLoopBand;
  hasEffectOnExternalBuffer : Loop -> bool;
  hasParallelAttr : Loop -> bool;
  isLoopParallel : Loop -> bool;
  (** [None]: the call returned false *)
  getTileAndPointLoopBand : AffineLoopBand -> option (AffineLoopBand * AffineLoopBand);
  (** [None]: the call failed *)
  getEvenlyDistributedFactors : Z -> FactorList -> AffineLoopBand -> option FactorList;
  getDistributedFactors : Z -> AffineLoopBand -> FactorList;
  (** the [AffineForOp]s that [node.walk] visits, in its order *)
  walkLoops : OpId -> list Loop;
  (** [loop->getParentOfType<NodeOp>()] *)
  getParentNode : Loop -> option OpId;
  (** [!loop.getOps<AffineForOp>().empty()] *)
  hasNestedLoop : Loop -> bool;
  (** [!loop.getOps<ScheduleOp>().empty()] *)
  hasNestedSchedule : Loop -> bool;
  getLoopBandFromInnermost : Loop -> AffineLoopBand;
}.

(** [CorrelationAnalysis], as the pass uses it. *)
Record CorrelationAnalysis := {
  (** the entries that iterating over the analysis yields *)
  corrEntries : list (OpId * list Correlation);
  getCorrelations : OpId -> list Correlation;
  getCorrelatedNode : Correlation -> OpId -> OpId;
  permuteFactors : Correlation -> OpId -> FactorList -> FactorList;
}.

(** A loop that runs a fallible step over a list, threading the state. *)
Fixpoint foldOutcome {A S : Type} (step : S -> A -> Outcome S) (l : list A) (s : S)
  : Outcome S :=
  match l with
  | [] => Normal s
  | x :: rest => let* s' := step s x in foldOutcome step rest s'
  end.

(** [llvm::sort] with the comparison [a.second > b.second]; among entries
    with the same count this model keeps the order of the input. *)
Fixpoint insertByCount (x : OpId * nat) (l : list (OpId * nat)) : list (OpId * nat) :=
  match l with
  | [] => [x]
  | y :: rest => if (y.2 <=? x.2)%nat then x :: y :: rest else y :: insertByCount x rest
  end.

Definition sortByCount (l : list (OpId * nat)) : list (OpId * nat) :=
  foldr insertByCount [] l.

Section Realizer.
Context (opts : Options) (utils : History -> LoopUtils).

(** [applyLoopVectorization] *)
Definition applyLoopVectorization (h : History) (band : AffineLoopBand)
    (vectorFactors : FactorList) : Outcome (bool * History) :=
  match band with
  | [] => Abort (AssertionFailure "no loops provided")
  | _ :: _ =>
      if forallb (fun factor => factor =? 1) vectorFactors then Normal (true, h)
      else if negb (forallb (fun loop => hasParallelAttr (utils h) loop ||
                                         isLoopParallel (utils h) loop) band)
      then Normal (false, h)
      else Normal (true, Vectorize band vectorFactors :: h)
  end.

(** The distribution of a scalar factor over a band: evenly if that
    succeeds, unconstrained otherwise. *)
Definition distributeFactors (h : History) (factor : Z) (base : FactorList)
    (band : AffineLoopBand) : FactorList :=
  match getEvenlyDistributedFactors (utils h) factor base band with
  | Some factors => factors
  | None => getDistributedFactors (utils h) factor band
  end.

(** The bands of a Node that [applyNaiveLoopUnroll] collects. *)
Definition collectBands (h : History) (node : OpId) : list AffineLoopBand :=
  getLoopBandFromInnermost (utils h) <$>
  filter (fun loop => getParentNode (utils h) loop = Some node /\
                      hasNestedLoop (utils h) loop = false /\
                      hasNestedSchedule (utils h) loop = false)
         (walkLoops (utils h) node).

(** The band that one iteration of the loop over [bands] unrolls:
    [None] stands for [continue]. *)
Definition selectBand (h : History) (band : AffineLoopBand) : Outcome (option AffineLoopBand) :=
  if pointLoopOnly opts then
    match band with
    | [] => Abort (AssertionFailure "front() of an empty band")
    | front :: _ =>
        if negb (hasEffectOnExternalBuffer (utils h) front) then
          match getTileAndPointLoopBand (utils h) band with
          | None => Normal None
          | Some (tileBand, pointBand) =>
              match pointBand with
              | [] => Normal None
              | _ :: _ => Normal (Some pointBand)
              end
          end
        else Normal (Some band)
    end
  else Normal (Some band).

(** One iteration of the loop over [bands]. *)
Definition unrollBand (unrollFactor : Z) (h : History) (band : AffineLoopBand)
  : Outcome History :=
  let* selected := selectBand h band in
  match selected with
  | None => Normal h
  | Some band =>
      let factors := distributeFactors h unrollFactor (replicate (length band) 1) band in
      Normal (UnrollJam band factors :: h)
  end.

(** [applyNaiveLoopUnroll]; [parallelFactor] is an [unsigned]. *)
Definition applyNaiveLoopUnroll (h : History) (node : OpId) (parallelFactor : Z)
  : Outcome History :=
  let unrollFactor :=
    if complexityAware opts then parallelFactor else maxUnrollFactor opts in
  foldOutcome (unrollBand unrollFactor) (collectBands h node) h.

End Realizer.

Section Unifier.
Context (opts : Options) (utils : History -> LoopUtils) (corrAnal : CorrelationAnalysis).

(** The loop over [corrList]: a correlated Node without a vector gets the
    permuted factors of [node]. *)
Fixpoint propagateFactors (corrList : list Correlation) (node : OpId) (factors : FactorList)
    (m : gmap OpId FactorList) : gmap OpId FactorList :=
  match corrList with
  | [] => m
  | corr :: rest =>
      let corrNode := getCorrelatedNode corrAnal corr node in
      if DenseMap_count corrNode m then propagateFactors rest node factors m
      else propagateFactors rest node factors
             (<[corrNode := permuteFactors corrAnal corr node factors]> m)
  end.

(** The scalar factor of a Node in the correlation-aware pass. *)
Definition getParallelFactor (nodeParallelFactorMap : gmap OpId Z) (node : OpId) : Z :=
  if complexityAware opts && DenseMap_count node nodeParallelFactorMap
  then to_u32 (default 0 (nodeParallelFactorMap !! node))
  else maxUnrollFactor opts.

(** The vector the distribution starts from: all ones, or the vector
    recorded for the Node by a Node processed before. *)
Definition initialFactors (band : AffineLoopBand) (node : OpId)
    (m : gmap OpId FactorList) : Outcome FactorList :=
  let factors := replicate (length band) 1 in
  if DenseMap_count node m then
    if (length factors =? length band)%nat then Normal (default [] (m !! node))
    else Abort (AssertionFailure "incorrect factor number")
  else Normal factors.

(** One iteration of the loop over [nodeAndNums]. *)
Definition unifyNode (h : History) (nodeParallelFactorMap : gmap OpId Z)
    (m : gmap OpId FactorList) (node : OpId) : Outcome (gmap OpId FactorList) :=
  let corrList := getCorrelations corrAnal node in
  match corrList with
  | [] => Normal m
  | _ :: _ =>
      let parallelFactor := getParallelFactor nodeParallelFactorMap node in
      let band := getNodeLoopBand (utils h) node in
      let* factors := initialFactors band node m in
      let factors := distributeFactors utils h parallelFactor factors band in
      Normal (propagateFactors corrList node factors (<[node := factors]> m))
  end.

(** The Nodes in the order in which the loop processes them. *)
Definition rankedNodes : list OpId :=
  fst <$> sortByCount ((fun e => (e.1, length e.2)) <$> corrEntries corrAnal).

(** The first two parts of [applyCorrelationAwareUnroll]: the map
    [nodeUnrollFactorsMap]. *)
Definition unifyFactors (h : History) (nodeParallelFactorMap : gmap OpId Z)
  : Outcome (gmap OpId FactorList) :=
  foldOutcome (unifyNode h nodeParallelFactorMap) rankedNodes ∅.

(** One iteration of the loop over [nodeUnrollFactorsMap]. *)
Definition realizeUnified (h : History) (p : OpId * FactorList) : Outcome History :=
  let band := getNodeLoopBand (utils h) p.1 in
  match band with
  | [] => Abort (AssertionFailure "front() of an empty band")
  | front :: _ =>
      if hasEffectOnExternalBuffer (utils h) front then
        let* r := applyLoopVectorization utils h band p.2 in Normal r.2
      else Normal (UnrollJam band p.2 :: h)
  end.

(** One iteration of the last loop, over [nodeParallelFactorMap]. *)
Definition realizeUnassigned (nodeUnrollFactorsMap : gmap OpId FactorList) (h : History)
    (p : OpId * Z) : Outcome History :=
  if DenseMap_count p.1 nodeUnrollFactorsMap then Normal h
  else applyNaiveLoopUnroll opts utils h p.1 (to_u32 p.2).

(** [applyCorrelationAwareUnroll]. The two maps are iterated in the order
    of [map_to_list]. *)
Definition applyCorrelationAwareUnroll (h : History) (nodeParallelFactorMap : gmap OpId Z)
  : Outcome History :=
  let* nodeUnrollFactorsMap := unifyFactors h nodeParallelFactorMap in
  let* h := foldOutcome realizeUnified (map_to_list nodeUnrollFactorsMap) h in
  foldOutcome (realizeUnassigned nodeUnrollFactorsMap) (map_to_list nodeParallelFactorMap) h.

End Unifier.

Section Pass.
Context (opts : Options) (compAnal : ComplexityAnalysis) (utils : History -> LoopUtils)
  (corrAnal : CorrelationAnalysis).

(** The second half of [runOnOperation]: the unrolling, from the budgets in
    [nodeParallelFactorMap]. *)
Definition applyUnroll (nodeParallelFactorMap : gmap OpId Z) : Outcome History :=
  if correlationAware opts then
    applyCorrelationAwareUnroll opts utils corrAnal [] nodeParallelFactorMap
  else
    foldOutcome (fun h p => applyNaiveLoopUnroll opts utils h p.1 (to_u32 p.2))
                (map_to_list nodeParallelFactorMap) [].

(** [runOnOperation]: the diagnostics emitted and the transformations applied.
    The result of the traversal is not looked at. *)
Definition runOnOperation (func : Operation) : Outcome (list Diagnostic * History) :=
  let* r := getNodeParallelFactorMap opts compAnal func in
  let* h := applyUnroll r.2.1 in
  Normal (r.2.2, h).

End Pass.

(** ** The budget rule in the words of the design document *)

(** [max(1, floor(scheduleBudget * nodeComplexity / scheduleComplexity))] *)
Definition spec_nodeBudget (scheduleBudget nodeComplexity scheduleComplexity : Z) : Z :=
  Z.max 1 (scheduleBudget * nodeComplexity / scheduleComplexity).

(** The budget of the parent Node, multiplied by [increase], then divided by
    [decrease]; an annotation that is absent scales by nothing. *)
Definition spec_scaledBudget (parentBudget : Z) (increase decrease : option Z) : Z :=
  let multiplied := match increase with Some i => parentBudget * i | None => parentBudget end in
  match decrease with Some d => multiplied / d | None => multiplied end.

(** The effective incoming budget of a Schedule, given the budgets recorded
    so far: none when the budget of the parent Node is not recorded. *)
Definition spec_effectiveBudget (opts : Options) (m : gmap OpId Z) (v : ScheduleVisit)
  : option Z :=
  match sv_parent v with
  | None => Some (maxUnrollFactor opts)
  | Some parentNode =>
      match m !! parentNode with
      | Some b =>
          Some (spec_scaledBudget b (integerAnnotation (sv_increase v))
                                    (integerAnnotation (sv_decrease v)))
      | None => None
      end
  end.

(** A value of an [unsigned long]. *)
Definition fits_u64 (z : Z) : Prop := 0 <= z < 2 ^ 64.

End Dataflow.


(** * Simplification of buffer copies *)

Module SimplifyCopy.

(** ** The operations the pattern looks at *)

(** A memref value: an argument of a block or the result of an operation. *)
Inductive Value :=
| BlockArgument (index : nat)
| OpResult (owner : OpId).

#[global] Instance Value_eq_dec : EqDecision Value.
Proof. solve_decision. Defined.

(** The initial value of a buffer is an attribute; its content plays no role. *)
Abbreviation Attr := Z.

Inductive OpName :=
| BufferOp (initValue : option Attr)
| ViewLikeOp
| CopyOp
| OtherOp.

(** An operation: its operands, and the operations that enclose it, from its
    parent outwards. A view has its source as first operand, a copy has the
    source and the target as operands. *)
Record Operation := {
  name : OpName;
  operands : list Value;
  ancestors : list OpId;
}.

(** The operations of the function that the pass runs on. *)
Abbreviation IR := (gmap OpId Operation).

(** [value.getDefiningOp()] *)
Definition getDefiningOp (v : Value) : option OpId :=
  match v with
  | OpResult owner => Some owner
  | BlockArgument _ => None
  end.

Definition getName (ir : IR) (op : OpId) : option OpName := name <$> ir !! op.

(** [value.getDefiningOp<BufferOp>()] *)
Definition getDefiningBufferOp (ir : IR) (v : Value) : option OpId :=
  match v with
  | OpResult owner =>
      match getName ir owner with
      | Some (BufferOp _) => Some owner
      | _ => None
      end
  | BlockArgument _ => None
  end.

(** [buffer.getInitValue()] *)
Definition getInitValue (ir : IR) (buffer : OpId) : option Attr :=
  match getName ir buffer with
  | Some (BufferOp initValue) => initValue
  | _ => None
  end.

(** [value.getUsers()]: one entry for each use. *)
Definition getUsers (ir : IR) (v : Value) : list OpId :=
  mjoin ((fun p : OpId * Operation =>
            (fun _ => p.1) <$> filter (fun x => x = v) (operands p.2)) <$> map_to_list ir).

(** [llvm::all_of] with a predicate that may stop the process. *)
Fixpoint all_of {A : Type} (pred : A -> Outcome bool) (l : list A) : Outcome bool :=
  match l with
  | [] => Normal true
  | x :: rest => let* holds := pred x in if holds then all_of pred rest else Normal false
  end.

(** The users found for each user in turn, one after the other. *)
Fixpoint collectUsers {A : Type} (f : A -> Outcome (list OpId)) (l : list A)
  : Outcome (list OpId) :=
  match l with
  | [] => Normal []
  | x :: rest => let* here := f x in let* there := collectUsers f rest in Normal (here ++ there)
  end.

(** [findBuffer]. The recursion follows the sources of views; [fuel] bounds
    its depth, and a null [Value] is [None]. *)
Fixpoint findBuffer (fuel : nat) (ir : IR) (memref : Value) : Outcome (option Value) :=
  match fuel with
  | O => Abort OutOfFuel
  | S fuel =>
      match memref with
      | BlockArgument _ => Normal (Some memref)
      | OpResult owner =>
          match ir !! owner with
          | Some op =>
              match name op with
              | BufferOp _ => Normal (Some memref)
              | ViewLikeOp =>
                  match operands op with
                  | viewSource :: _ => findBuffer fuel ir viewSource
                  | [] => Normal None
                  end
              | _ => Normal None
              end
          | None => Normal None
          end
      end
  end.

(** [findBufferUsers]. The recursion follows the results of views. *)
Fixpoint findBufferUsers (fuel : nat) (ir : IR) (memref : Value) : Outcome (list OpId) :=
  match fuel with
  | O => Abort OutOfFuel
  | S fuel =>
      collectUsers
        (fun user =>
           match getName ir user with
           | Some ViewLikeOp => findBufferUsers fuel ir (OpResult user)
           | _ => Normal [user]
           end)
        (getUsers ir memref)
  end.

(** [a->isAncestor(b)]: [a] is [b] or encloses [b]. *)
Definition isAncestor (ir : IR) (a b : OpId) : bool :=
  bool_decide (a = b) ||
  bool_decide (a ∈ match ir !! b with Some op => ancestors op | None => [] end).

(** The loop of [crossRegionDominates]: [a] is replaced by its parent as long
    as it has one that is not an ancestor of [b]. [chain] holds the
    operations that enclose [a]. *)
Fixpoint hoist (ir : IR) (a : OpId) (chain : list OpId) (b : OpId) : OpId * list OpId :=
  match chain with
  | parent :: rest => if negb (isAncestor ir parent b) then hoist ir parent rest b else (a, chain)
  | [] => (a, [])
  end.

(** The memory space of the type of a value, and MLIR's dominance. *)
Record Context := {
  getMemorySpaceAsInt : Value -> Z;
  dominates : OpId -> OpId -> bool;
}.

(** ** MLIR's rewriter *)

(** One use, redirected from [old] to [new] if it is a use of [old]. *)
Definition replaceUse (old new v : Value) : Value := if decide (v = old) then new else v.

Definition redirectUses (old new : Value) (op : Operation) : Operation :=
  {| name := name op; operands := replaceUse old new <$> operands op;
     ancestors := ancestors op |}.

(** Modelled from the spec: MLIR's [Value::replaceAllUsesWith] is not among
    the sources. Every use of [old] is redirected to [new]. *)
Definition replaceAllUsesWith (old new : Value) (ir : IR) : IR :=
  redirectUses old new <$> ir.

(** Modelled from the spec: MLIR's [PatternRewriter::eraseOp] is not among
    the sources. The operation is removed; MLIR stops with an error when the
    operation still has uses. *)
Definition eraseOp (op : OpId) (ir : IR) : Outcome IR :=
  match getUsers ir (OpResult op) with
  | [] => Normal (delete op ir)
  | _ :: _ => Abort (AssertionFailure "expected 'op' to have no uses")
  end.

(** Modelled from the spec: MLIR's [PatternRewriter::replaceOp] is not among
    the sources. Every use of the result of the operation is redirected to
    the new value, then the operation is removed. *)
Definition replaceOp (op : OpId) (new : Value) (ir : IR) : Outcome IR :=
  eraseOp op (replaceAllUsesWith (OpResult op) new ir).

(** [buffer.setInitValueAttr]: the initial value of the buffer is set. *)
Definition setInitValueAttr (buffer : OpId) (initValue : Attr) (ir : IR) : IR :=
  alter (fun op => {| name := BufferOp (Some initValue); operands := operands op;
                      ancestors := ancestors op |}) buffer ir.

(** ** The pattern *)

(** The rewrite that was applied, as the two debug messages name it. *)
Inductive Rewrite := TargetAndCopyErased | SourceAndCopyErased.

Inductive LogicalResult := failure | success (applied : Rewrite).

(** What the first part of [matchAndRewrite] finds out about a copy. *)
Record Analysis := {
  copySource : Value;
  copyTarget : Value;
  source : Value;
  target : Value;
  sourceUsers : list OpId;
  targetUsers : list OpId;
}.

Section Pattern.
Context (ctx : Context).

(** [crossRegionDominates] *)
Definition crossRegionDominates (ir : IR) (a b : OpId) : Outcome bool :=
  if bool_decide (a = b) then Normal true
  else if isAncestor ir b a then Normal false
  else
    let hoisted := hoist ir a (match ir !! a with Some op => ancestors op | None => [] end) b in
    match hoisted.2 with
    | [] => Abort (AssertionFailure "reach top-level module op")
    | _ :: _ => Normal (dominates ctx hoisted.1 b)
    end.

(** The depth that a chain of views cannot exceed unless it runs in a circle. *)
Definition viewDepth (ir : IR) : nat := S (size ir).
#[global] Arguments viewDepth : simpl never.

(** The first part of [matchAndRewrite], up to the two dominance tests:
    [None] stands for [return failure()]. *)
Definition analyze (ir : IR) (copy : OpId) : Outcome (option Analysis) :=
  match ir !! copy with
  | Some {| name := CopyOp; operands := [copySource; copyTarget] |} =>
      if negb (getMemorySpaceAsInt ctx copySource =? getMemorySpaceAsInt ctx copyTarget)
      then Normal None
      else
        let* source := findBuffer (viewDepth ir) ir copySource in
        let* target := findBuffer (viewDepth ir) ir copyTarget in
        match source, target with
        | Some source, Some target =>
            let sourceBuf := getDefiningBufferOp ir source in
            let targetBuf := getDefiningBufferOp ir target in
            if negb (bool_decide (is_Some sourceBuf)) && negb (bool_decide (is_Some targetBuf))
            then Normal None
            else
              let* sourceUsers := findBufferUsers (viewDepth ir) ir source in
              let* targetUsers := findBufferUsers (viewDepth ir) ir target in
              let* sourceOk := all_of (fun user => crossRegionDominates ir user copy) sourceUsers in
              if negb sourceOk then Normal None
              else
                let* targetOk :=
                  all_of (fun user => crossRegionDominates ir copy user) targetUsers in
                if negb targetOk then Normal None
                else Normal (Some {| copySource := copySource; copyTarget := copyTarget;
                                     source := source; target := target;
                                     sourceUsers := sourceUsers; targetUsers := targetUsers |})
        | _, _ => Normal None
        end
  | _ => Normal None
  end.

(** The condition of either rewrite: the buffer is defined by a [BufferOp]
    that is the operation defining the operand of the copy, and the operation
    defining the other operand, if there is one, dominates the users. *)
Definition canReplace (buf view otherView : option OpId) (users : list OpId) : bool :=
  match buf with
  | Some b =>
      bool_decide (view = Some b) &&
      match otherView with
      | None => true
      | Some other => forallb (dominates ctx other) users
      end
  | None => false
  end.

Definition canReplaceTarget (ir : IR) (a : Analysis) : bool :=
  canReplace (getDefiningBufferOp ir (target a)) (getDefiningOp (copyTarget a))
             (getDefiningOp (copySource a)) (targetUsers a).

Definition canReplaceSource (ir : IR) (a : Analysis) : bool :=
  canReplace (getDefiningBufferOp ir (source a)) (getDefiningOp (copySource a))
             (getDefiningOp (copyTarget a)) (sourceUsers a).

(** The initial value of the source buffer goes to the target buffer;
    [None] stands for [return failure()]. *)
Definition transferInitValue (ir : IR) (sourceBuf : OpId) (a : Analysis) : option IR :=
  match getInitValue ir sourceBuf with
  | Some initValue =>
      match getDefiningBufferOp ir (target a) with
      | None => None
      | Some targetBuf =>
          if bool_decide (is_Some (getInitValue ir targetBuf)) &&
             negb (bool_decide (getDefiningOp (copyTarget a) = Some targetBuf))
          then None
          else Some (setInitValueAttr targetBuf initValue ir)
      end
  | None => Some ir
  end.

(** The rewrite that erases the source buffer and the copy, if it applies. *)
Definition replaceSource (ir : IR) (copy : OpId) (a : Analysis)
  : Outcome (LogicalResult * IR) :=
  match getDefiningBufferOp ir (source a) with
  | Some sourceBuf =>
      if canReplaceSource ir a then
        match transferInitValue ir sourceBuf a with
        | None => Normal (failure, ir)
        | Some ir1 =>
            let* ir2 := replaceOp sourceBuf (copyTarget a) ir1 in
            let* ir3 := eraseOp copy ir2 in
            Normal (success SourceAndCopyErased, ir3)
        end
      else Normal (failure, ir)
  | None => Normal (failure, ir)
  end.

(** The second part of [matchAndRewrite]: the rewrite that erases the target
    buffer and the copy if it applies, the other rewrite otherwise. *)
Definition rewrite (ir : IR) (copy : OpId) (a : Analysis) : Outcome (LogicalResult * IR) :=
  match getDefiningBufferOp ir (target a) with
  | Some targetBuf =>
      if canReplaceTarget ir a then
        let* ir1 := replaceOp targetBuf (copySource a) ir in
        let* ir2 := eraseOp copy ir1 in
        Normal (success TargetAndCopyErased, ir2)
      else replaceSource ir copy a
  | None => replaceSource ir copy a
  end.

(** [SimplifyBufferCopy::matchAndRewrite] *)
Definition matchAndRewrite (ir : IR) (copy : OpId) : Outcome (LogicalResult * IR) :=
  let* a := analyze ir copy in
  match a with
  | None => Normal (failure, ir)
  | Some a => rewrite ir copy a
  end.

End Pattern.

End SimplifyCopy.

(** * Properties of the dataflow node parallelization *)

Module DataflowProofs.
Import Dataflow.

Section Visits.
Context (opts : Options) (compAnal : ComplexityAnalysis).

Local Abbreviation walkVisits := (walkVisits opts compAnal).



Lemma walkVisits_app (vs ws : list ScheduleVisit) (st : WalkState) :
  walkVisits (vs ++ ws) st = thenVisit (walkVisits vs st) (walkVisits ws).
Proof.
  revert st. induction vs as [|v vs IH]; intros st; cbn; [done|].
  destruct (scheduleCallback opts compAnal v st) as [[[] st1]|]; cbn; auto.
Qed.

(** The traversal over the tree is the callback run over [schedules]. *)
Lemma walk_schedules (parent : option OpId) (op : Operation) (st : WalkState) :
  walk opts compAnal parent op st = walkVisits (schedules parent op) st.
Proof.
  revert parent st.
  induction op as [id kind body IH] using Operation_ind'.
  intros parent st. cbn [walk schedules].
  set (inner := match kind with NodeOp => Some id | _ => parent end).
  set (walkBody := fix walkBody (ops : list Operation) (st : WalkState) :=
       match ops with
       | [] => Normal (Advance, st)
       | o :: rest =>
           let* r := walk opts compAnal inner o st in
           match r with
           | (Interrupt, st'') => Normal (Interrupt, st'')
           | (Advance, st'') => walkBody rest st''
           end
       end).
  set (go := fix go (ops : list Operation) : list ScheduleVisit :=
       match ops with
       | [] => []
       | o :: rest => schedules inner o ++ go rest
       end).
  assert (Hbody : forall st0, walkBody body st0 = walkVisits (go body) st0).
  { induction IH as [|o rest Ho _ IHrest]; intros st0; [done|].
    cbn [walkBody go]. rewrite walkVisits_app, Ho. unfold thenVisit.
    destruct (walkVisits (schedules inner o) st0) as [[[] st1]|]; cbn; auto. }
  destruct kind as [inc dec| |]; cbn [bind app].
  - cbn [walkVisits].
    destruct (scheduleCallback _ _ _ st) as [[[] st1]|]; cbn; auto.
  - apply Hbody.
  - apply Hbody.
Qed.

(** *** What one callback and a run of callbacks do to the map *)

Lemma extendsBy_refl (nodes : list OpId) (m : gmap OpId Z) : extendsBy nodes m m.
Proof. repeat split; auto. Qed.

Lemma extendsBy_trans (ns1 ns2 : list OpId) (m1 m2 m3 : gmap OpId Z) :
  extendsBy ns1 m1 m2 -> extendsBy ns2 m2 m3 -> extendsBy (ns1 ++ ns2) m1 m3.
Proof.
  intros (Hs1 & Hd1 & Hp1) (Hs2 & Hd2 & Hp2). repeat split.
  - by transitivity m2.
  - intros k Hk. rewrite elem_of_app.
    destruct (Hd2 k Hk) as [Hk2|?]; [|by auto]. destruct (Hd1 k Hk2); auto.
  - auto.
Qed.

Lemma DenseMap_insert_extendsBy (node : OpId) (f : Z) (m : gmap OpId Z) :
  1 <= f -> extendsBy [node] m (DenseMap_insert node f m).
Proof.
  intros Hf. unfold DenseMap_insert.
  destruct (m !! node) eqn:Hm; [apply extendsBy_refl|]. repeat split.
  - by apply insert_subseteq.
  - intros k. rewrite lookup_insert. case_decide; subst; [set_solver|auto].
  - intros Hall. by apply map_Forall_insert_2.
Qed.

Lemma nodeUnrollFactor_ge_1 (f nc sc b : Z) :
  nodeUnrollFactor f nc sc = Normal b -> 1 <= b.
Proof. unfold nodeUnrollFactor. case_match; [done|]. intros [= <-]. lia. Qed.

Lemma recordNodes_extendsBy (f sc : Z) (nodes : list OpId) (st st' : WalkState)
    (r : WalkResult) :
  recordNodes compAnal f sc nodes st = Normal (r, st') -> extendsBy nodes st.1 st'.1.
Proof.
  revert st. induction nodes as [|n nodes IH]; intros st; cbn.
  - intros [= <- <-]. apply extendsBy_refl.
  - destruct (getNodeComplexity compAnal n) as [nc|].
    + destruct (nodeUnrollFactor f nc sc) as [b|] eqn:Hb; [|done]. cbn. intros H.
      apply IH in H. cbn in H.
      apply (extendsBy_trans [n] nodes _ _ _ (DenseMap_insert_extendsBy n b st.1
        (nodeUnrollFactor_ge_1 _ _ _ _ Hb)) H).
    + intros [= <- <-]. cbn. apply extendsBy_refl.
Qed.

Lemma scheduleCallback_extendsBy (v : ScheduleVisit) (st st' : WalkState) (r : WalkResult) :
  scheduleCallback opts compAnal v st = Normal (r, st') -> extendsBy (sv_nodes v) st.1 st'.1.
Proof.
  assert (Hvisit : forall f, visitNodes compAnal f v st = Normal (r, st') ->
                             extendsBy (sv_nodes v) st.1 st'.1).
  { intros f. unfold visitNodes. case_match.
    - apply recordNodes_extendsBy.
    - intros [= <- <-]. apply extendsBy_refl. }
  unfold scheduleCallback.
  destruct (getScheduleUnrollFactor opts v st.1) as [[p|f]|]; cbn; [|by eauto|done].
  intros [= <- <-]. apply extendsBy_refl.
Qed.

Lemma walkVisits_extendsBy (vs : list ScheduleVisit) (st st' : WalkState) (r : WalkResult) :
  walkVisits vs st = Normal (r, st') -> extendsBy (visitedNodes vs) st.1 st'.1.
Proof.
  revert st. induction vs as [|v vs IH]; intros st; cbn.
  - intros [= <- <-]. apply extendsBy_refl.
  - destruct (scheduleCallback opts compAnal v st) as [[[] st1]|] eqn:Hv; cbn; [| |done].
    + intros H. apply IH in H. apply scheduleCallback_extendsBy in Hv.
      apply (extendsBy_trans _ _ _ _ _ Hv H).
    + intros [= <- <-]. apply scheduleCallback_extendsBy in Hv.
      apply (extendsBy_trans _ _ _ _ _ Hv (extendsBy_refl _ _)).
Qed.

(** With every complexity at hand and a non-zero divisor, the loop over the
    Nodes of a Schedule records the factor of each Node not yet in the map. *)
Lemma recordNodes_available (f sc : Z) (nodes : list OpId) (st : WalkState) :
  sc <> 0 ->
  (forall n, n ∈ nodes -> is_Some (getNodeComplexity compAnal n)) ->
  exists m', recordNodes compAnal f sc nodes st = Normal (Advance, (m', st.2)) /\
    forall n nc, n ∈ nodes -> getNodeComplexity compAnal n = Some nc -> st.1 !! n = None ->
      m' !! n = Some (Z.max 1 (to_u64 (f * nc) / sc)).
Proof.
  intros Hsc. revert st. induction nodes as [|n0 nodes IH]; intros st Hall; cbn.
  - exists st.1. split; [by destruct st|]. intros n nc Hn. by apply elem_of_nil in Hn.
  - destruct (Hall n0) as [nc0 Hnc0]; [set_solver|]. rewrite Hnc0.
    unfold nodeUnrollFactor. destruct (Z.eqb_spec sc 0) as [|_]; [done|]. cbn.
    set (b0 := Z.max 1 (to_u64 (f * nc0) / sc)).
    destruct (IH (DenseMap_insert n0 b0 st.1, st.2)) as (m' & Hrun & Hm'); [set_solver|].
    exists m'. split; [done|]. intros n nc Hn Hnc Hfresh.
    destruct (decide (n = n0)) as [->|Hne].
    + assert (nc = nc0) as -> by congruence.
      apply recordNodes_extendsBy in Hrun as (Hsub & _). cbn in Hsub.
      eapply lookup_weaken; [|done]. unfold DenseMap_insert. rewrite Hfresh.
      apply lookup_insert_eq.
    + apply Hm'; [by apply elem_of_cons in Hn as [?|?]|done|]. cbn. unfold DenseMap_insert.
      destruct (st.1 !! n0); [done|]. by rewrite lookup_insert_ne.
Qed.

End Visits.

(** *** Distinct handles *)

(** The Nodes listed by the Schedules of a tree are operations nested in it. *)
Lemma getNodeOps_cons (o : Operation) (body : list Operation) :
  getNodeOps (o :: body) =
  match o with Op id NodeOp _ => [id] | _ => [] end ++ getNodeOps body.
Proof. unfold getNodeOps. cbn. by destruct o as [id [| |] b]. Qed.

Lemma visitedNodes_app (vs ws : list ScheduleVisit) :
  visitedNodes (vs ++ ws) = visitedNodes vs ++ visitedNodes ws.
Proof. unfold visitedNodes. by rewrite fmap_app, concat_app. Qed.

Lemma visitedNodes_nested (parent : option OpId) (op : Operation) :
  visitedNodes (schedules parent op) ⊆+ tail (opIds op).
Proof.
  revert parent. induction op as [id kind body IH] using Operation_ind'.
  intros parent. cbn [schedules opIds tail].
  set (inner := match kind with NodeOp => Some id | _ => parent end).
  set (go := fix go (ops : list Operation) : list ScheduleVisit :=
       match ops with
       | [] => []
       | o :: rest => schedules inner o ++ go rest
       end).
  set (ids := fix go (ops : list Operation) : list OpId :=
       match ops with
       | [] => []
       | o :: rest => opIds o ++ go rest
       end).
  assert (Hbody : getNodeOps body ++ visitedNodes (go body) ⊆+ ids body).
  { clear -IH. induction IH as [|o rest Ho _ IHrest]; [done|].
    rewrite getNodeOps_cons. cbn [go ids]. rewrite visitedNodes_app.
    specialize (Ho inner). destruct o as [oid okind obody]. cbn [opIds tail] in *.
    set (t := (fix go (ops : list Operation) : list OpId :=
                 match ops with [] => [] | o :: rest => opIds o ++ go rest end) obody) in *.
    set (hd := match okind with NodeOp => [oid] | _ => [] end).
    assert (Hhd : hd ⊆+ [oid]).
    { subst hd. destruct okind; try apply submseteq_nil_l. done. }
    change (oid :: t) with ([oid] ++ t).
    trans ((hd ++ visitedNodes (schedules inner (Op oid okind obody))) ++
           (getNodeOps rest ++ visitedNodes (go rest))).
    { apply Permutation_submseteq. rewrite <- !app_assoc. f_equiv.
      rewrite !app_assoc. f_equiv. apply Permutation_app_comm. }
    apply submseteq_app; [by apply submseteq_app|done]. }
  etrans; [|apply Hbody].
  rewrite visitedNodes_app. apply submseteq_app; [|done].
  destruct kind; cbn; [|apply submseteq_nil_l..].
  unfold visitedNodes. cbn. by rewrite app_nil_r.
Qed.

Lemma visitedNodes_NoDup (func : Operation) :
  NoDup (opIds func) -> NoDup (visitedNodes (schedules None func)).
Proof.
  intros Hnd.
  destruct (submseteq_Permutation _ _ (visitedNodes_nested None func)) as [k Hk].
  assert (Htail : NoDup (tail (opIds func))).
  { destruct func as [id kind body]. cbn [opIds tail] in *. by apply NoDup_cons in Hnd as [_ ?]. }
  rewrite Hk in Htail. by apply NoDup_app in Htail as [? _].
Qed.

Section BudgetRule.
Context (opts : Options) (compAnal : ComplexityAnalysis).

Local Abbreviation walkVisits := (walkVisits opts compAnal).

Lemma getNodeParallelFactorMap_visits (func : Operation) :
  getNodeParallelFactorMap opts compAnal func = walkVisits (schedules None func) (∅, []).
Proof. apply walk_schedules. Qed.

(** What the map holds when the traversal has run over [pre]. *)
Lemma walkVisits_recorded (pre : list ScheduleVisit) (r : WalkResult) (m : gmap OpId Z)
    (ds : list Diagnostic) :
  walkVisits pre (∅, []) = Normal (r, (m, ds)) ->
  (forall k, is_Some (m !! k) -> k ∈ visitedNodes pre) /\
  map_Forall (fun _ b => 1 <= b) m.
Proof.
  intros H. apply walkVisits_extendsBy in H as (_ & Hdom & Hpos). cbn in *. split.
  - intros k Hk. destruct (Hdom k Hk) as [Habs|]; [|done].
    rewrite lookup_empty in Habs. by destruct Habs.
  - apply Hpos, map_Forall_empty.
Qed.

(** Every budget that the traversal records is at least one. *)
Lemma recorded_budget_ge_1 (func : Operation) (r : WalkResult) (m : gmap OpId Z)
    (ds : list Diagnostic) (n : OpId) (b : Z) :
  getNodeParallelFactorMap opts compAnal func = Normal (r, (m, ds)) ->
  m !! n = Some b -> 1 <= b.
Proof.
  rewrite getNodeParallelFactorMap_visits. intros H Hn.
  apply walkVisits_recorded in H as [_ Hpos]. by apply (Hpos n b).
Qed.

(** A Node of a visited Schedule is not in the map when its Schedule is reached. *)
Lemma visited_node_fresh (func : Operation) (pre post : list ScheduleVisit)
    (v : ScheduleVisit) (r : WalkResult) (m : gmap OpId Z) (ds : list Diagnostic) (n : OpId) :
  NoDup (opIds func) ->
  schedules None func = pre ++ v :: post ->
  walkVisits pre (∅, []) = Normal (r, (m, ds)) ->
  n ∈ sv_nodes v -> m !! n = None.
Proof.
  intros Hnd Hsplit Hpre Hn. apply visitedNodes_NoDup in Hnd.
  rewrite Hsplit, visitedNodes_app in Hnd.
  apply NoDup_app in Hnd as (_ & Hdisj & _).
  apply walkVisits_recorded in Hpre as [Hdom _].
  destruct (m !! n) eqn:Hm; [|done]. exfalso.
  apply (Hdisj n); [apply Hdom; by rewrite Hm|].
  unfold visitedNodes. cbn. set_solver.
Qed.

(** Without wrap-around the scaling of the parent's budget is the one of the
    design document. *)
Lemma getScheduleUnrollFactor_spec (v : ScheduleVisit) (m : gmap OpId Z) (eff : Z) :
  map_Forall (fun _ b => 1 <= b) m ->
  spec_effectiveBudget opts m v = Some eff ->
  (forall p b i, sv_parent v = Some p -> m !! p = Some b ->
     integerAnnotation (sv_increase v) = Some i -> fits_u64 i /\ fits_u64 (b * i)) ->
  (forall p d, sv_parent v = Some p ->
     integerAnnotation (sv_decrease v) = Some d -> 0 < d < 2 ^ 64) ->
  getScheduleUnrollFactor opts v m = Normal (inr eff).
Proof.
  unfold spec_effectiveBudget, getScheduleUnrollFactor, fits_u64.
  intros Hpos Heff Hinc Hdec.
  destruct (sv_parent v) as [p|]; [|congruence].
  destruct (m !! p) as [b|] eqn:Hb; [|done]. injection Heff as <-.
  specialize (Hinc p b). specialize (Hdec p).
  unfold applyIncrease, applyDecrease, spec_scaledBudget, to_u64.
  destruct (integerAnnotation (sv_increase v)) as [i|].
  - destruct (Hinc i) as [Hi Hbi]; try done.
    rewrite (Z.mod_small i), (Z.mod_small (b * i)) by lia.
    destruct (integerAnnotation (sv_decrease v)) as [d|]; [|done].
    specialize (Hdec d eq_refl eq_refl). rewrite (Z.mod_small d) by lia.
    destruct (Z.eqb_spec d 0); [lia|done].
  - destruct (integerAnnotation (sv_decrease v)) as [d|]; [|done].
    specialize (Hdec d eq_refl eq_refl). rewrite (Z.mod_small d) by lia.
    destruct (Z.eqb_spec d 0); [lia|done].
Qed.

(** C1 (as amended). For a Schedule that the traversal visits, whose complexity
    and whose Nodes' complexities are available, and as long as the [unsigned
    long] arithmetic does not wrap around and the divisors are positive, the
    callback records for each Node of the Schedule the budget
    [max(1, floor(eff * nodeComplexity / scheduleComplexity))], where [eff] is
    [maxUnrollFactor] for a Schedule without parent Node and otherwise the
    recorded budget of the parent Node multiplied by [increase] and then
    divided by [decrease]; the budget is still the recorded one when the
    traversal ends, and every budget the traversal records is at least one. *)
Theorem node_budget_rule (func : Operation) (pre post : list ScheduleVisit)
    (v : ScheduleVisit) (m1 : gmap OpId Z) (d1 : list Diagnostic) (sc eff : Z) :
  NoDup (opIds func) ->
  schedules None func = pre ++ v :: post ->
  walkVisits pre (∅, []) = Normal (Advance, (m1, d1)) ->
  getScheduleComplexity compAnal (sv_schedule v) = Some sc ->
  (forall n, n ∈ sv_nodes v -> is_Some (getNodeComplexity compAnal n)) ->
  spec_effectiveBudget opts m1 v = Some eff ->
  0 < sc ->
  (forall p b i, sv_parent v = Some p -> m1 !! p = Some b ->
     integerAnnotation (sv_increase v) = Some i -> fits_u64 i /\ fits_u64 (b * i)) ->
  (forall p d, sv_parent v = Some p ->
     integerAnnotation (sv_decrease v) = Some d -> 0 < d < 2 ^ 64) ->
  (forall n nc, n ∈ sv_nodes v -> getNodeComplexity compAnal n = Some nc ->
     fits_u64 (eff * nc)) ->
  exists m2,
    scheduleCallback opts compAnal v (m1, d1) = Normal (Advance, (m2, d1)) /\
    (forall n nc, n ∈ sv_nodes v -> getNodeComplexity compAnal n = Some nc ->
       m2 !! n = Some (spec_nodeBudget eff nc sc) /\
       forall r mf df, getNodeParallelFactorMap opts compAnal func = Normal (r, (mf, df)) ->
         mf !! n = Some (spec_nodeBudget eff nc sc)) /\
    (forall r mf df k b, getNodeParallelFactorMap opts compAnal func = Normal (r, (mf, df)) ->
       mf !! k = Some b -> 1 <= b).
Proof.
  intros Hnd Hsplit Hpre Hsc Havail Heff Hscpos Hinc Hdec Hfit.
  pose proof (walkVisits_recorded _ _ _ _ Hpre) as [_ Hpos].
  pose proof (getScheduleUnrollFactor_spec v m1 eff Hpos Heff Hinc Hdec) as Hfactor.
  destruct (recordNodes_available compAnal eff sc (sv_nodes v) (m1, d1)) as (m2 & Hrun & Hm2);
    [lia|done|].
  assert (Hcb : scheduleCallback opts compAnal v (m1, d1) = Normal (Advance, (m2, d1))).
  { unfold scheduleCallback. cbn [fst]. rewrite Hfactor. cbn. unfold visitNodes.
    by rewrite Hsc. }
  assert (Hrec : forall n nc, n ∈ sv_nodes v -> getNodeComplexity compAnal n = Some nc ->
            m2 !! n = Some (spec_nodeBudget eff nc sc)).
  { intros n nc Hn Hnc. rewrite (Hm2 n nc Hn Hnc).
    - unfold spec_nodeBudget, to_u64. destruct (Hfit n nc Hn Hnc).
      by rewrite Z.mod_small.
    - cbn. eapply visited_node_fresh; eauto. }
  exists m2. split; [done|]. split.
  - intros n nc Hn Hnc. split; [by apply Hrec|].
    intros r mf df. rewrite getNodeParallelFactorMap_visits, Hsplit, walkVisits_app, Hpre.
    cbn. rewrite Hcb. cbn. intros Hpost.
    apply walkVisits_extendsBy in Hpost as (Hsub & _). cbn in Hsub.
    eapply lookup_weaken; [|done]. by apply Hrec.
  - intros r mf df k b. apply recorded_budget_ge_1.
Qed.

(** C10. The budget of a Node is computed by a division by the complexity of
    its Schedule that nothing guards: when the traversal reaches a Schedule
    whose available complexity is zero and which holds a Node (the first one
    with an available complexity), the division is by zero, whatever the
    budget of the Schedule, and the traversal as a whole stops there; with any
    other complexity the callback returns. *)
Theorem zero_schedule_complexity_divides_by_zero (func : Operation)
    (pre post : list ScheduleVisit) (v : ScheduleVisit) (m1 : gmap OpId Z)
    (d1 : list Diagnostic) (f sc nc : Z) (node : OpId) (nodes : list OpId) :
  schedules None func = pre ++ v :: post ->
  walkVisits pre (∅, []) = Normal (Advance, (m1, d1)) ->
  getScheduleUnrollFactor opts v m1 = Normal (inr f) ->
  getScheduleComplexity compAnal (sv_schedule v) = Some sc ->
  sv_nodes v = node :: nodes ->
  getNodeComplexity compAnal node = Some nc ->
  (sc = 0 ->
     nodeUnrollFactor f nc sc = Abort DivisionByZero /\
     scheduleCallback opts compAnal v (m1, d1) = Abort DivisionByZero /\
     getNodeParallelFactorMap opts compAnal func = Abort DivisionByZero) /\
  (sc <> 0 ->
     exists r st, scheduleCallback opts compAnal v (m1, d1) = Normal (r, st)).
Proof.
  intros Hsplit Hpre Hfactor Hsc Hnodes Hnc.
  assert (Hcb : scheduleCallback opts compAnal v (m1, d1) =
                recordNodes compAnal f sc (node :: nodes) (m1, d1)).
  { unfold scheduleCallback. cbn [fst]. rewrite Hfactor. cbn. unfold visitNodes.
    by rewrite Hsc, Hnodes. }
  split.
  - intros ->. assert (Hdiv : nodeUnrollFactor f nc 0 = Abort DivisionByZero) by done.
    assert (Habort : scheduleCallback opts compAnal v (m1, d1) = Abort DivisionByZero).
    { rewrite Hcb. cbn [recordNodes]. by rewrite Hnc, Hdiv. }
    repeat split; [done..|].
    by rewrite getNodeParallelFactorMap_visits, Hsplit, walkVisits_app, Hpre; cbn; rewrite Habort.
  - intros Hne. rewrite Hcb. generalize (node :: nodes) (m1, d1). clear -Hne.
    intros l. induction l as [|n l IH]; intros st; cbn; [by eauto|].
    destruct (getNodeComplexity compAnal n); [|by eauto].
    unfold nodeUnrollFactor. destruct (Z.eqb_spec sc 0); [done|]. cbn. apply IH.
Qed.

End BudgetRule.

(** *** Failures of the traversal *)

(** The three ways in which the callback gives up on a Schedule [v] reached
    with the map [m]: the operation that the diagnostic names, its message,
    and the Nodes of [v] recorded before. *)
Inductive FailsAt (opts : Options) (compAnal : ComplexityAnalysis) (v : ScheduleVisit)
    (m : gmap OpId Z) : OpId -> string -> list OpId -> Prop :=
| parent_factor_missing (parentNode : OpId) :
    sv_parent v = Some parentNode ->
    m !! parentNode = None ->
    FailsAt opts compAnal v m parentNode "failed to get parent node's unroll factor" []
| schedule_complexity_missing (f : Z) :
    getScheduleUnrollFactor opts v m = Normal (inr f) ->
    getScheduleComplexity compAnal (sv_schedule v) = None ->
    FailsAt opts compAnal v m (sv_schedule v) "failed to get schedule complexity" []
| node_complexity_missing (f sc : Z) (before : list OpId) (node : OpId) (after : list OpId) :
    getScheduleUnrollFactor opts v m = Normal (inr f) ->
    getScheduleComplexity compAnal (sv_schedule v) = Some sc ->
    before = [] \/ sc <> 0 ->
    sv_nodes v = before ++ node :: after ->
    (forall n, n ∈ before -> is_Some (getNodeComplexity compAnal n)) ->
    getNodeComplexity compAnal node = None ->
    FailsAt opts compAnal v m node "failed to get node complexity" before.

Section Failures.
Context (opts : Options) (compAnal : ComplexityAnalysis) (utils : History -> LoopUtils)
  (corrAnal : CorrelationAnalysis).

Local Abbreviation walkVisits := (walkVisits opts compAnal).

Lemma recordNodes_unavailable (f sc : Z) (before : list OpId) (node : OpId)
    (after : list OpId) (st : WalkState) :
  before = [] \/ sc <> 0 ->
  (forall n, n ∈ before -> is_Some (getNodeComplexity compAnal n)) ->
  getNodeComplexity compAnal node = None ->
  exists m', recordNodes compAnal f sc (before ++ node :: after) st =
               Normal (Interrupt, (m', st.2 ++ [OpError node "failed to get node complexity"])) /\
             extendsBy before st.1 m'.
Proof.
  intros Hsc Havail Hnode. destruct Hsc as [->|Hsc].
  { exists st.1. cbn. rewrite Hnode. split; [done|apply extendsBy_refl]. }
  destruct (recordNodes_available compAnal f sc before st Hsc Havail) as (m' & Hrun & _).
  exists m'. split; [|by apply recordNodes_extendsBy in Hrun].
  clear Havail. revert st m' Hrun. induction before as [|n before IH]; intros [m ds] m'; cbn.
  - intros [= <-]. by rewrite Hnode.
  - destruct (getNodeComplexity compAnal n); [|done].
    destruct (nodeUnrollFactor f z sc); [|done]. cbn. intros Hrun. by apply IH in Hrun.
Qed.

(** The callback on a failing Schedule. *)
Lemma scheduleCallback_fails (v : ScheduleVisit) (m : gmap OpId Z) (ds : list Diagnostic)
    (offender : OpId) (msg : string) (recorded : list OpId) :
  FailsAt opts compAnal v m offender msg recorded ->
  exists m', scheduleCallback opts compAnal v (m, ds) =
               Normal (Interrupt, (m', ds ++ [OpError offender msg])) /\
             extendsBy recorded m m'.
Proof.
  intros [p Hp Hm | f Hf Hsc | f sc before node after Hf Hsc Hnz Hnodes Havail Hnode];
    unfold scheduleCallback; cbn [fst snd].
  - unfold getScheduleUnrollFactor. rewrite Hp, Hm. cbn.
    eexists. split; [done|apply extendsBy_refl].
  - rewrite Hf. cbn. unfold visitNodes. rewrite Hsc.
    eexists. split; [done|apply extendsBy_refl].
  - rewrite Hf. cbn. unfold visitNodes. rewrite Hsc, Hnodes.
    by apply (recordNodes_unavailable f sc before node after (m, ds)).
Qed.

(** C6 (as amended). When the traversal reaches a Schedule whose parent Node
    has no recorded budget, or whose complexity, or the complexity of one of
    whose Nodes, is unavailable, it is interrupted there: one diagnostic is
    added, on the offending Node or Schedule, and the map holds what it held
    when the Schedule was reached and the Nodes of the Schedule that come
    before the offending one, whatever follows in the function. The pass does
    not stop: [runOnOperation] goes on to unroll with the budgets recorded up
    to the failure. *)
Theorem traversal_failure (func : Operation) (pre post : list ScheduleVisit)
    (v : ScheduleVisit) (m1 : gmap OpId Z) (d1 : list Diagnostic)
    (offender : OpId) (msg : string) (recorded : list OpId) :
  schedules None func = pre ++ v :: post ->
  walkVisits pre (∅, []) = Normal (Advance, (m1, d1)) ->
  FailsAt opts compAnal v m1 offender msg recorded ->
  exists mf,
    getNodeParallelFactorMap opts compAnal func =
      Normal (Interrupt, (mf, d1 ++ [OpError offender msg])) /\
    m1 ⊆ mf /\
    (forall k, is_Some (mf !! k) -> is_Some (m1 !! k) \/ k ∈ recorded) /\
    runOnOperation opts compAnal utils corrAnal func =
      (let* h := applyUnroll opts utils corrAnal mf in
       Normal (d1 ++ [OpError offender msg], h)).
Proof.
  intros Hsplit Hpre Hfail.
  destruct (scheduleCallback_fails v m1 d1 offender msg recorded Hfail)
    as (mf & Hcb & Hsub & Hdom & _).
  assert (Hwalk : getNodeParallelFactorMap opts compAnal func =
                  Normal (Interrupt, (mf, d1 ++ [OpError offender msg]))).
  { rewrite getNodeParallelFactorMap_visits, Hsplit, walkVisits_app, Hpre. cbn.
    by rewrite Hcb. }
  exists mf. repeat split; [done..|].
  unfold runOnOperation. by rewrite Hwalk.
Qed.

End Failures.

(** *** The budget rule on concrete functions *)

(** A Schedule with two Nodes of complexities 30 and 10, nested in a Node of
    budget 4 and annotated with [increase = 2]. *)
Definition nestedFunc : Operation :=
  Op 1 OtherOp
    [Op 2 (ScheduleOp None None)
       [Op 3 NodeOp
          [Op 4 (ScheduleOp (Some (IntegerAttr 2)) None)
             [Op 5 NodeOp []; Op 6 NodeOp []]]]].

Definition nestedOpts : Options :=
  {| maxUnrollFactor := 4; pointLoopOnly := false; complexityAware := true;
     correlationAware := false |}.

Definition nestedComplexity : ComplexityAnalysis :=
  {| getScheduleComplexity := fun s => if decide (s = 2%positive) then Some 40
                                       else if decide (s = 4%positive) then Some 40 else None;
     getNodeComplexity := fun n => if decide (n = 3%positive) then Some 40
                                   else if decide (n = 5%positive) then Some 30
                                   else if decide (n = 6%positive) then Some 10 else None |}.

Definition outerVisit : ScheduleVisit :=
  {| sv_schedule := 2; sv_parent := None; sv_increase := None; sv_decrease := None;
     sv_nodes := [3%positive] |}.

Definition innerVisit : ScheduleVisit :=
  {| sv_schedule := 4; sv_parent := Some 3%positive; sv_increase := Some (IntegerAttr 2);
     sv_decrease := None; sv_nodes := [5%positive; 6%positive] |}.

(** The budgets of the example: 4 for the outer Node; the inner Schedule gets
    4 * 2 = 8, which its Nodes share as 6 and 2. *)
Lemma nestedFunc_budgets :
  getNodeParallelFactorMap nestedOpts nestedComplexity nestedFunc =
  Normal (Advance, ({[3%positive := 4; 5%positive := 6; 6%positive := 2]}, [])).
Proof. by vm_compute. Qed.

Lemma node_budget_rule_witness :
  exists m2,
    scheduleCallback nestedOpts nestedComplexity innerVisit ({[3%positive := 4]}, []) =
      Normal (Advance, (m2, [])) /\
    (forall n nc, n ∈ sv_nodes innerVisit -> getNodeComplexity nestedComplexity n = Some nc ->
       m2 !! n = Some (spec_nodeBudget 8 nc 40) /\
       forall r mf df,
         getNodeParallelFactorMap nestedOpts nestedComplexity nestedFunc = Normal (r, (mf, df)) ->
         mf !! n = Some (spec_nodeBudget 8 nc 40)) /\
    (forall r mf df k b,
       getNodeParallelFactorMap nestedOpts nestedComplexity nestedFunc = Normal (r, (mf, df)) ->
       mf !! k = Some b -> 1 <= b).
Proof.
  apply (node_budget_rule nestedOpts nestedComplexity nestedFunc [outerVisit] [] innerVisit
           {[3%positive := 4]} [] 40 8).
  - apply (bool_decide_unpack _). vm_compute. exact I.
  - reflexivity.
  - reflexivity.
  - reflexivity.
  - intros n Hn. cbn in Hn.
    apply elem_of_cons in Hn as [->|Hn]; [by eexists|].
    apply elem_of_cons in Hn as [->|Hn]; [by eexists|]. by apply elem_of_nil in Hn.
  - reflexivity.
  - lia.
  - intros p b i [= <-] Hb [= <-]. vm_compute in Hb. injection Hb as <-.
    unfold fits_u64. lia.
  - intros p d _ Hd. discriminate Hd.
  - intros n nc Hn Hnc. unfold fits_u64. cbn in Hn.
    apply elem_of_cons in Hn as [->|Hn]; [injection Hnc as <-; lia|].
    apply elem_of_cons in Hn as [->|Hn]; [injection Hnc as <-; lia|]. by apply elem_of_nil in Hn.
Defined.

(** A Schedule of one Node whose complexity is 2^62, under the root budget 4:
    the product 4 * 2^62 is 2^64 and wraps around to 0. *)
Definition wrapFunc : Operation :=
  Op 1 OtherOp [Op 2 (ScheduleOp None None) [Op 3 NodeOp []]].

Definition wrapComplexity : ComplexityAnalysis :=
  {| getScheduleComplexity := fun _ => Some (2 ^ 62);
     getNodeComplexity := fun _ => Some (2 ^ 62) |}.

(** C1 as stated fails: the Schedule is visited, its complexity and the one
    of its Node are available, its effective budget is 4 and the formula of
    the claim gives 4, but the recorded budget is 1. *)
Lemma node_budget_wraps_around :
  NoDup (opIds wrapFunc) /\
  schedules None wrapFunc = [] ++ outerVisit :: [] /\
  walkVisits nestedOpts wrapComplexity [] (∅, []) = Normal (Advance, (∅, [])) /\
  getScheduleComplexity wrapComplexity (sv_schedule outerVisit) = Some (2 ^ 62) /\
  getNodeComplexity wrapComplexity 3%positive = Some (2 ^ 62) /\
  spec_effectiveBudget nestedOpts ∅ outerVisit = Some 4 /\
  spec_nodeBudget 4 (2 ^ 62) (2 ^ 62) = 4 /\
  exists m,
    getNodeParallelFactorMap nestedOpts wrapComplexity wrapFunc = Normal (Advance, (m, [])) /\
    m !! 3%positive = Some 1 /\
    m !! 3%positive <> Some (spec_nodeBudget 4 (2 ^ 62) (2 ^ 62)).
Proof.
  split; [apply (bool_decide_unpack _); vm_compute; exact I|].
  repeat (split; [reflexivity|]).
  exists {[3%positive := 1]}. repeat split; [by vm_compute..|].
  by vm_compute.
Qed.

(** A Schedule whose only Node has complexity 0, as has the Schedule. *)
Definition zeroComplexity : ComplexityAnalysis :=
  {| getScheduleComplexity := fun _ => Some 0; getNodeComplexity := fun _ => Some 0 |}.

Lemma zero_schedule_complexity_witness :
  nodeUnrollFactor 4 0 0 = Abort DivisionByZero /\
  scheduleCallback nestedOpts zeroComplexity outerVisit (∅, []) = Abort DivisionByZero /\
  getNodeParallelFactorMap nestedOpts zeroComplexity wrapFunc = Abort DivisionByZero.
Proof.
  refine (proj1 (zero_schedule_complexity_divides_by_zero nestedOpts zeroComplexity wrapFunc
                   [] [] outerVisit ∅ [] 4 0 0 3%positive [] _ _ _ _ _ _) _); reflexivity.
Defined.

(** *** A failing traversal on a concrete function *)

(** Two Schedules side by side; the complexity of the second is unavailable. *)
Definition siblingFunc : Operation :=
  Op 1 OtherOp
    [Op 2 (ScheduleOp None None) [Op 3 NodeOp []];
     Op 4 (ScheduleOp None None) [Op 5 NodeOp []]].

Definition siblingComplexity : ComplexityAnalysis :=
  {| getScheduleComplexity := fun s => if decide (s = 2%positive) then Some 10 else None;
     getNodeComplexity := fun n => if decide (n = 3%positive) then Some 10 else None |}.

Definition firstVisit : ScheduleVisit :=
  {| sv_schedule := 2; sv_parent := None; sv_increase := None; sv_decrease := None;
     sv_nodes := [3%positive] |}.

Definition secondVisit : ScheduleVisit :=
  {| sv_schedule := 4; sv_parent := None; sv_increase := None; sv_decrease := None;
     sv_nodes := [5%positive] |}.

(** Node 3 holds the loop 7 and Node 5 the loop 8; no band is tiled, no loop
    touches an external buffer, and a factor goes to the outermost loop. *)
Definition plainUtils (pointBand : AffineLoopBand) (_ : History) : LoopUtils :=
  {| getNodeLoopBand := fun n => if decide (n = 3%positive) then [7%positive]
                                 else if decide (n = 5%positive) then [8%positive] else [];
     hasEffectOnExternalBuffer := fun _ => false;
     hasParallelAttr := fun _ => false;
     isLoopParallel := fun _ => true;
     getTileAndPointLoopBand := fun band =>
       match pointBand with [] => None | _ :: _ => Some (band, pointBand) end;
     getEvenlyDistributedFactors := fun _ _ _ => None;
     getDistributedFactors := fun f band => f :: replicate (length band - 1) 1;
     walkLoops := fun n => if decide (n = 3%positive) then [7%positive]
                           else if decide (n = 5%positive) then [8%positive] else [];
     getParentNode := fun l => if decide (l = 7%positive) then Some 3%positive
                               else if decide (l = 8%positive) then Some 5%positive else None;
     hasNestedLoop := fun _ => false;
     hasNestedSchedule := fun _ => false;
     getLoopBandFromInnermost := fun l => [l] |}.

Definition noCorrelations : CorrelationAnalysis :=
  {| corrEntries := []; getCorrelations := fun _ => [];
     getCorrelatedNode := fun _ n => n; permuteFactors := fun _ _ f => f |}.

Lemma secondVisit_fails :
  FailsAt nestedOpts siblingComplexity secondVisit {[3%positive := 4]}
    4%positive "failed to get schedule complexity" [].
Proof. by apply (schedule_complexity_missing _ _ secondVisit _ 4). Defined.

Lemma traversal_failure_witness :
  exists mf,
    getNodeParallelFactorMap nestedOpts siblingComplexity siblingFunc =
      Normal (Interrupt, (mf, [] ++ [OpError 4%positive "failed to get schedule complexity"])) /\
    ({[3%positive := 4]} : gmap OpId Z) ⊆ mf /\
    (forall k, is_Some (mf !! k) ->
       is_Some (({[3%positive := 4]} : gmap OpId Z) !! k) \/ k ∈ ([] : list OpId)) /\
    runOnOperation nestedOpts siblingComplexity (plainUtils []) noCorrelations siblingFunc =
      (let* h := applyUnroll nestedOpts (plainUtils []) noCorrelations mf in
       Normal ([] ++ [OpError 4%positive "failed to get schedule complexity"], h)).
Proof.
  apply (traversal_failure nestedOpts siblingComplexity (plainUtils []) noCorrelations
           siblingFunc [firstVisit] [] secondVisit {[3%positive := 4]} []
           4%positive "failed to get schedule complexity" []).
  - reflexivity.
  - reflexivity.
  - exact secondVisit_fails.
Defined.

(** C6 as stated fails: the traversal fails on the second Schedule, with its
    diagnostic, and the pass still unrolls the loop of Node 3. *)
Lemma pass_continues_after_failure :
  schedules None siblingFunc = [firstVisit] ++ secondVisit :: [] /\
  walkVisits nestedOpts siblingComplexity [firstVisit] (∅, []) =
    Normal (Advance, ({[3%positive := 4]}, [])) /\
  getScheduleComplexity siblingComplexity (sv_schedule secondVisit) = None /\
  runOnOperation nestedOpts siblingComplexity (plainUtils []) noCorrelations siblingFunc =
    Normal ([OpError 4%positive "failed to get schedule complexity"],
            [UnrollJam [7%positive] [4]]).
Proof. repeat split; by vm_compute. Qed.

(** ** Loops over fallible steps *)

(** When a loop ends normally, each of its iterations ran, from the state
    that the iterations before it left. *)
Lemma foldOutcome_app {A T : Type} (step : T -> A -> Outcome T) (l1 l2 : list A) (s : T) :
  foldOutcome step (l1 ++ l2) s = let* s1 := foldOutcome step l1 s in foldOutcome step l2 s1.
Proof.
  revert s. induction l1 as [|x l1 IH]; intros s; cbn; [done|].
  destruct (step s x); cbn; [apply IH|done].
Qed.

Lemma foldOutcome_steps {A T : Type} (step : T -> A -> Outcome T) (l : list A) (s s' : T)
    (i : nat) (x : A) :
  foldOutcome step l s = Normal s' ->
  l !! i = Some x ->
  exists s1 s2, foldOutcome step (take i l) s = Normal s1 /\ step s1 x = Normal s2 /\
                foldOutcome step (drop (S i) l) s2 = Normal s'.
Proof.
  intros Hrun Hi. rewrite <- (take_drop_middle l i x Hi), foldOutcome_app in Hrun.
  destruct (foldOutcome step (take i l) s) as [s1|]; cbn in Hrun; [|done].
  destruct (step s1 x) as [s2|] eqn:Hstep; cbn in Hrun; [|done]. by exists s1, s2.
Qed.


(** ** The naive unrolling *)

Section Naive.
Context (opts : Options) (utils : History -> LoopUtils).

(** What one iteration of the loop over the bands does. *)
Lemma unrollBand_cases (unrollFactor : Z) (h h' : History) (band : AffineLoopBand) :
  unrollBand opts utils unrollFactor h band = Normal h' ->
  h' = h \/
  exists unrolled, h' = UnrollJam unrolled
          (distributeFactors utils h unrollFactor (replicate (length unrolled) 1) unrolled) :: h.
Proof.
  unfold unrollBand. destruct (selectBand opts utils h band) as [[b|]|]; cbn; [| |done].
  - intros [= <-]. right. by exists b.
  - intros [= <-]. by left.
Qed.


(** C5 (as amended). In the naive unrolling with [pointLoopOnly], each band
    collected for the Node is handled in turn, and a band whose outermost
    loop does not affect an external buffer is handled as follows: if the
    split into tile and point loops succeeds with a non-empty point band, the
    factors are distributed over the point band and unroll-and-jam is applied
    to the point band only; otherwise (the split fails or the point band is
    empty) the band is skipped and nothing is applied to it. *)
Theorem point_loop_only_unroll (h h' : History) (node : OpId) (parallelFactor : Z)
    (i : nat) (band : AffineLoopBand) (front : Loop) (inner : AffineLoopBand) :
  pointLoopOnly opts = true ->
  applyNaiveLoopUnroll opts utils h node parallelFactor = Normal h' ->
  collectBands utils h node !! i = Some band ->
  band = front :: inner ->
  let unrollFactor := if complexityAware opts then parallelFactor else maxUnrollFactor opts in
  exists h1 h2,
    foldOutcome (unrollBand opts utils unrollFactor) (take i (collectBands utils h node)) h
      = Normal h1 /\
    unrollBand opts utils unrollFactor h1 band = Normal h2 /\
    foldOutcome (unrollBand opts utils unrollFactor) (drop (S i) (collectBands utils h node)) h2
      = Normal h' /\
    (hasEffectOnExternalBuffer (utils h1) front = false ->
     match getTileAndPointLoopBand (utils h1) band with
     | Some (_, (_ :: _) as pointBand) =>
         h2 = UnrollJam pointBand
                (distributeFactors utils h1 unrollFactor
                   (replicate (length pointBand) 1) pointBand) :: h1
     | _ => h2 = h1
     end).
Proof.
  intros Hpoint Hrun Hband -> unrollFactor.
  destruct (foldOutcome_steps _ _ _ _ _ _ Hrun Hband) as (h1 & h2 & Hpre & Hstep & Hpost).
  exists h1, h2. repeat split; [done..|]. intros Heff. subst unrollFactor.
  unfold unrollBand, selectBand in Hstep. rewrite Hpoint, Heff in Hstep. cbn in Hstep.
  destruct (getTileAndPointLoopBand (utils h1) (front :: inner)) as [[tile [|p point]]|];
    cbn in Hstep; by injection Hstep as <-.
Qed.

End Naive.

(** The options of the budget examples, with [pointLoopOnly]. *)
Definition pointOpts : Options :=
  {| maxUnrollFactor := 4; pointLoopOnly := true; complexityAware := true;
     correlationAware := false |}.

Lemma point_loop_only_unroll_witness :
  exists h1 h2,
    foldOutcome (unrollBand pointOpts (plainUtils [9%positive]) 4)
      (take 0 (collectBands (plainUtils [9%positive]) [] 3%positive)) [] = Normal h1 /\
    unrollBand pointOpts (plainUtils [9%positive]) 4 h1 [7%positive]
      = Normal h2 /\
    foldOutcome (unrollBand pointOpts (plainUtils [9%positive]) 4)
      (drop 1 (collectBands (plainUtils [9%positive]) [] 3%positive)) h2
      = Normal [UnrollJam [9%positive] [4]] /\
    (hasEffectOnExternalBuffer (plainUtils [9%positive] h1) 7%positive = false ->
     match getTileAndPointLoopBand (plainUtils [9%positive] h1) [7%positive] with
     | Some (_, (_ :: _) as pointBand) =>
         h2 = UnrollJam pointBand
                (distributeFactors (plainUtils [9%positive]) h1 4
                   (replicate (length pointBand) 1) pointBand) :: h1
     | _ => h2 = h1
     end).
Proof.
  apply (point_loop_only_unroll pointOpts (plainUtils [9%positive])
           [] [UnrollJam [9%positive] [4]] 3%positive 4 0 [7%positive] 7%positive []);
    reflexivity.
Defined.

(** C5 as stated fails: with [pointLoopOnly], the band of Node 3 does not
    affect an external buffer and its split fails; the naive unrolling applies
    nothing, where the claim has unroll-and-jam applied to the whole band. *)
Lemma failed_split_skips_band :
  pointLoopOnly pointOpts = true /\
  collectBands (plainUtils []) [] 3%positive = [[7%positive]] /\
  hasEffectOnExternalBuffer (plainUtils [] []) 7%positive = false /\
  getTileAndPointLoopBand (plainUtils [] []) [7%positive] = None /\
  applyNaiveLoopUnroll pointOpts (plainUtils []) [] 3%positive 4
    = Normal [] /\
  unrollBand pointOpts (plainUtils []) 4 [] [7%positive]
    <> Normal [UnrollJam [7%positive]
                 (distributeFactors (plainUtils []) [] 4 (replicate 1 1) [7%positive])].
Proof. repeat split; by vm_compute. Qed.

(** ** The correlation unifier *)

Lemma DenseMap_count_Some {V : Type} (k : OpId) (v : V) (m : gmap OpId V) :
  m !! k = Some v -> DenseMap_count k m = true.
Proof. intros H. unfold DenseMap_count. apply bool_decide_eq_true. by rewrite H. Qed.

Lemma DenseMap_count_None {V : Type} (k : OpId) (m : gmap OpId V) :
  m !! k = None -> DenseMap_count k m = false.
Proof.
  intros H. unfold DenseMap_count. apply bool_decide_eq_false. rewrite H. by intros [? ?].
Qed.

Section UnifierFacts.
Context (opts : Options) (utils : History -> LoopUtils) (corrAnal : CorrelationAnalysis).

(** The loop over the correlations leaves a recorded vector alone. *)
Lemma propagateFactors_keeps (corrList : list Correlation) (node : OpId)
    (factors : FactorList) (m : gmap OpId FactorList) (k : OpId) (v : FactorList) :
  m !! k = Some v -> propagateFactors corrAnal corrList node factors m !! k = Some v.
Proof.
  revert m. induction corrList as [|corr rest IH]; intros m Hk; cbn; [done|].
  destruct (DenseMap_count _ m) eqn:Hc; [by apply IH|]. apply IH.
  rewrite lookup_insert_ne; [done|]. intros <-.
  by rewrite (DenseMap_count_Some _ v m Hk) in Hc.
Qed.

(** The first correlation that leads to a Node without vector gives it the
    permuted factors. *)
Lemma propagateFactors_first (before : list Correlation) (corr : Correlation)
    (after : list Correlation) (node : OpId) (factors : FactorList)
    (m : gmap OpId FactorList) :
  m !! getCorrelatedNode corrAnal corr node = None ->
  (forall c, c ∈ before ->
     getCorrelatedNode corrAnal c node <> getCorrelatedNode corrAnal corr node) ->
  propagateFactors corrAnal (before ++ corr :: after) node factors m
    !! getCorrelatedNode corrAnal corr node
  = Some (permuteFactors corrAnal corr node factors).
Proof.
  revert m. induction before as [|c before IH]; intros m Hfresh Hother; cbn.
  - rewrite (DenseMap_count_None _ m Hfresh). apply propagateFactors_keeps, lookup_insert_eq.
  - assert (Hc : getCorrelatedNode corrAnal c node <> getCorrelatedNode corrAnal corr node)
      by (apply Hother; set_solver).
    assert (Hrest : forall c', c' ∈ before ->
      getCorrelatedNode corrAnal c' node <> getCorrelatedNode corrAnal corr node)
      by (intros c' Hc'; apply Hother; set_solver).
    destruct (DenseMap_count _ m); apply IH; try done.
    by rewrite lookup_insert_ne.
Qed.

(** The assertion in the loop compares the length of the vector of ones that
    was just built from the band with the length of the band: it holds
    always, and the vector found in the map is taken as it is. *)
Lemma initialFactors_normal (band : AffineLoopBand) (node : OpId) (m : gmap OpId FactorList) :
  initialFactors band node m =
  Normal (match m !! node with Some recorded => recorded | None => replicate (length band) 1 end).
Proof.
  unfold initialFactors. rewrite length_replicate, Nat.eqb_refl.
  destruct (m !! node) as [recorded|] eqn:Hm.
  - by rewrite (DenseMap_count_Some _ recorded m Hm).
  - by rewrite (DenseMap_count_None _ m Hm).
Qed.

(** C2 (as amended). When the unifier processes a Node with a non-empty
    correlation list, it distributes the Node's factor over the Node's band,
    starting from the vector already recorded for the Node if there is one
    (from all ones otherwise), and records the result for the Node, in place
    of the vector recorded before. The vectors recorded for other Nodes are
    not touched: a correlated Node that has a vector keeps it. A correlated
    Node without a vector gets the vector of the Node permuted by the first
    correlation that leads to it, and so the very vector of the Node when the
    correlation maps it unchanged. *)
Theorem unifier_step (h : History) (nodeParallelFactorMap : gmap OpId Z)
    (m : gmap OpId FactorList) (node : OpId) (corr0 : Correlation) (rest : list Correlation) :
  getCorrelations corrAnal node = corr0 :: rest ->
  let band := getNodeLoopBand (utils h) node in
  let base := match m !! node with Some recorded => recorded
                                 | None => replicate (length band) 1 end in
  let factors :=
    distributeFactors utils h (getParallelFactor opts nodeParallelFactorMap node) base band in
  exists m',
    unifyNode opts utils corrAnal h nodeParallelFactorMap m node = Normal m' /\
    m' !! node = Some factors /\
    (forall k v, k <> node -> m !! k = Some v -> m' !! k = Some v) /\
    (forall before corr after,
       corr0 :: rest = before ++ corr :: after ->
       getCorrelatedNode corrAnal corr node <> node ->
       m !! getCorrelatedNode corrAnal corr node = None ->
       (forall c, c ∈ before ->
          getCorrelatedNode corrAnal c node <> getCorrelatedNode corrAnal corr node) ->
       m' !! getCorrelatedNode corrAnal corr node
         = Some (permuteFactors corrAnal corr node factors) /\
       (permuteFactors corrAnal corr node factors = factors ->
        m' !! getCorrelatedNode corrAnal corr node = m' !! node)).
Proof.
  intros Hcorr band base factors.
  exists (propagateFactors corrAnal (corr0 :: rest) node factors (<[node := factors]> m)).
  assert (Hnode : propagateFactors corrAnal (corr0 :: rest) node factors
                    (<[node := factors]> m) !! node = Some factors)
    by apply propagateFactors_keeps, lookup_insert_eq.
  split; [|split; [done|split]].
  - unfold unifyNode. rewrite Hcorr, initialFactors_normal. done.
  - intros k v Hne Hk. apply propagateFactors_keeps. by rewrite lookup_insert_ne.
  - intros before corr after Heq Hne Hfresh Hfirst. rewrite Heq in *.
    assert (Hcorrelated : propagateFactors corrAnal (before ++ corr :: after) node factors
              (<[node := factors]> m) !! getCorrelatedNode corrAnal corr node
            = Some (permuteFactors corrAnal corr node factors)).
    { apply propagateFactors_first; [|done]. by rewrite lookup_insert_ne. }
    split; [done|]. intros Hid. by rewrite Hcorrelated, Hnode, Hid.
Qed.

End UnifierFacts.

(** ** The dispatch of the correlation-aware pass *)

Section Dispatch.
Context (opts : Options) (utils : History -> LoopUtils) (corrAnal : CorrelationAnalysis).

(** Whether every loop of a band is parallel, as [applyLoopVectorization] tests it. *)
Definition allParallel (h : History) (band : AffineLoopBand) : bool :=
  forallb (fun loop => hasParallelAttr (utils h) loop || isLoopParallel (utils h) loop) band.

Definition allOnes (factors : FactorList) : bool :=
  forallb (fun factor => factor =? 1) factors.

(** The three outcomes of [applyLoopVectorization] on a band with a loop. *)
Lemma applyLoopVectorization_cases (h : History) (front : Loop) (inner : AffineLoopBand)
    (factors : FactorList) :
  applyLoopVectorization utils h (front :: inner) factors =
  if allOnes factors then Normal (true, h)
  else if allParallel h (front :: inner)
       then Normal (true, Vectorize (front :: inner) factors :: h)
       else Normal (false, h).
Proof.
  unfold applyLoopVectorization, allOnes, allParallel.
  destruct (forallb (fun factor => factor =? 1) factors); [done|].
  by destruct (forallb _ (front :: inner)).
Qed.

Lemma realizeUnified_cases (h : History) (node : OpId) (factors : FactorList)
    (front : Loop) (inner : AffineLoopBand) :
  getNodeLoopBand (utils h) node = front :: inner ->
  realizeUnified utils h (node, factors) =
  Normal (if hasEffectOnExternalBuffer (utils h) front then
            if allOnes factors then h
            else if allParallel h (front :: inner)
                 then Vectorize (front :: inner) factors :: h else h
          else UnrollJam (front :: inner) factors :: h).
Proof.
  intros Hband. unfold realizeUnified. cbn [fst snd]. rewrite Hband.
  destruct (hasEffectOnExternalBuffer (utils h) front); [|done].
  rewrite applyLoopVectorization_cases.
  by destruct (allOnes factors), (allParallel h (front :: inner)).
Qed.









End Dispatch.

(** *** The unifier on two correlated Nodes *)

(** Factor distribution that grows the base vector: it succeeds when the
    product of the base divides the factor, and puts the quotient on the
    outermost dimension. *)
Definition growFactors (factor : Z) (base : FactorList) : option FactorList :=
  let product := foldr Z.mul 1 base in
  if (0 <? product) && (factor mod product =? 0) then
    match base with
    | [] => Some []
    | outer :: inner => Some (outer * (factor / product) :: inner)
    end
  else None.

(** Node 3 is linked to Node 5 by the correlation 1 and to Node 6 by the
    correlation 2, which both map factors unchanged; the analysis lists
    Node 5 first. The band of Node 3 is [bandA], the one of Node 5 is
    [bandB], the one of Node 6 is the loop 10. *)
Definition linkedUtils (bandA bandB : AffineLoopBand) (_ : History) : LoopUtils :=
  {| getNodeLoopBand := fun n => if decide (n = 3%positive) then bandA
                                 else if decide (n = 5%positive) then bandB
                                 else if decide (n = 6%positive) then [10%positive] else [];
     hasEffectOnExternalBuffer := fun _ => false;
     hasParallelAttr := fun _ => false;
     isLoopParallel := fun _ => true;
     getTileAndPointLoopBand := fun _ => None;
     getEvenlyDistributedFactors := fun f base _ => growFactors f base;
     getDistributedFactors := fun f band => f :: replicate (length band - 1) 1;
     walkLoops := fun _ => [];
     getParentNode := fun _ => None;
     hasNestedLoop := fun _ => false;
     hasNestedSchedule := fun _ => false;
     getLoopBandFromInnermost := fun l => [l] |}.

Definition linkedCorrelations : CorrelationAnalysis :=
  {| corrEntries := [(5%positive, [1%positive]); (3%positive, [1%positive; 2%positive]);
                     (6%positive, [2%positive])];
     getCorrelations := fun n => if decide (n = 3%positive) then [1%positive; 2%positive]
                                 else if decide (n = 5%positive) then [1%positive]
                                 else if decide (n = 6%positive) then [2%positive] else [];
     getCorrelatedNode := fun c n =>
       if decide (n = 3%positive)
       then (if decide (c = 1%positive) then 5%positive else 6%positive)
       else 3%positive;
     permuteFactors := fun _ _ f => f |}.

Definition linkedBudgets : gmap OpId Z := {[3%positive := 2; 5%positive := 8; 6%positive := 2]}.

Lemma unifier_step_witness :
  exists m',
    unifyNode nestedOpts (linkedUtils [7%positive] [8%positive]) linkedCorrelations []
      linkedBudgets ∅ 3%positive = Normal m' /\
    m' !! 3%positive = Some [2] /\
    (forall k v, k <> 3%positive -> (∅ : gmap OpId FactorList) !! k = Some v ->
                 m' !! k = Some v) /\
    (forall before corr after,
       1%positive :: [2%positive] = before ++ corr :: after ->
       getCorrelatedNode linkedCorrelations corr 3%positive <> 3%positive ->
       (∅ : gmap OpId FactorList) !! getCorrelatedNode linkedCorrelations corr 3%positive
         = None ->
       (forall c, c ∈ before ->
          getCorrelatedNode linkedCorrelations c 3%positive
            <> getCorrelatedNode linkedCorrelations corr 3%positive) ->
       m' !! getCorrelatedNode linkedCorrelations corr 3%positive
         = Some (permuteFactors linkedCorrelations corr 3%positive [2]) /\
       (permuteFactors linkedCorrelations corr 3%positive [2] = [2] ->
        m' !! getCorrelatedNode linkedCorrelations corr 3%positive = m' !! 3%positive)).
Proof.
  exact (unifier_step nestedOpts (linkedUtils [7%positive] [8%positive]) linkedCorrelations []
           linkedBudgets ∅ 3%positive 1%positive [2%positive] eq_refl).
Defined.

(** C2 as stated fails. Node 3, with two correlations, is ranked first, and
    its vector [2] is recorded unchanged for Node 5; Node 5 is then processed
    in its turn, its vector is computed again from its own factor 8, and [8]
    replaces the recorded vector. *)
Lemma preseeded_node_is_recomputed :
  rankedNodes linkedCorrelations = [3%positive; 5%positive; 6%positive] /\
  getCorrelatedNode linkedCorrelations 1%positive 3%positive = 5%positive /\
  (forall f, permuteFactors linkedCorrelations 1%positive 3%positive f = f) /\
  (exists m1,
     unifyNode nestedOpts (linkedUtils [7%positive] [8%positive]) linkedCorrelations []
       linkedBudgets ∅ 3%positive = Normal m1 /\
     m1 !! 3%positive = Some [2] /\ m1 !! 5%positive = Some [2] /\
     exists m2 mf,
       unifyNode nestedOpts (linkedUtils [7%positive] [8%positive]) linkedCorrelations []
         linkedBudgets m1 5%positive = Normal m2 /\
       m2 !! 5%positive = Some [8] /\
       unifyFactors nestedOpts (linkedUtils [7%positive] [8%positive]) linkedCorrelations []
         linkedBudgets = Normal mf /\
       mf !! 5%positive = Some [8] /\ mf !! 5%positive <> m1 !! 5%positive).
Proof.
  split; [reflexivity|]. split; [reflexivity|]. split; [reflexivity|].
  exists {[3%positive := [2]; 5%positive := [2]; 6%positive := [2]]}.
  repeat split; [by vm_compute..|].
  exists {[3%positive := [2]; 5%positive := [8]; 6%positive := [2]]},
         {[3%positive := [2]; 5%positive := [8]; 6%positive := [2]]}.
  repeat split; by vm_compute.
Qed.

(** C9: Node 3 has a band of two loops and Node 5 a band of one loop. Node 3
    is ranked first and its vector is recorded for Node 5, with its two
    factors. When Node 5 is processed the assertion passes, the two factors
    are taken as the base of the distribution over its band of one loop, and
    the vector recorded for Node 5 at the end has two factors: the mismatch
    is not reported. The assertion cannot fail on any input. *)
Theorem mismatched_vector_is_not_reported :
  (forall band node m, exists factors, initialFactors band node m = Normal factors) /\
  rankedNodes linkedCorrelations = [3%positive; 5%positive; 6%positive] /\
  exists m1 mf,
    unifyNode nestedOpts (linkedUtils [7%positive; 9%positive] [8%positive])
      linkedCorrelations [] linkedBudgets ∅ 3%positive = Normal m1 /\
    m1 !! 5%positive = Some [2; 1] /\
    length (getNodeLoopBand (linkedUtils [7%positive; 9%positive] [8%positive] []) 5%positive)
      = 1%nat /\
    initialFactors [8%positive] 5%positive m1 = Normal [2; 1] /\
    unifyFactors nestedOpts (linkedUtils [7%positive; 9%positive] [8%positive])
      linkedCorrelations [] linkedBudgets = Normal mf /\
    mf !! 5%positive = Some [8; 1].
Proof.
  split.
  - intros band node m. rewrite initialFactors_normal. by eexists.
  - split; [reflexivity|].
    exists {[3%positive := [2; 1]; 5%positive := [2; 1]; 6%positive := [2; 1]]},
           {[3%positive := [2; 1]; 5%positive := [8; 1]; 6%positive := [2; 1]]}.
    repeat split; by vm_compute.
Qed.

(** *** The dispatch on three Nodes *)

(** Nodes 3 and 5 are linked by the correlation 1, Node 6 has no correlation.
    The loop 7 of Node 3 affects an external buffer; the loop 8 of Node 5 and
    the loop 10 of Node 6 do not. *)
Definition dispatchUtils (_ : History) : LoopUtils :=
  {| getNodeLoopBand := fun n => if decide (n = 3%positive) then [7%positive]
                                 else if decide (n = 5%positive) then [8%positive]
                                 else if decide (n = 6%positive) then [10%positive] else [];
     hasEffectOnExternalBuffer := fun l => bool_decide (l = 7%positive);
     hasParallelAttr := fun _ => false;
     isLoopParallel := fun _ => true;
     getTileAndPointLoopBand := fun _ => None;
     getEvenlyDistributedFactors := fun f base _ => growFactors f base;
     getDistributedFactors := fun f band => f :: replicate (length band - 1) 1;
     walkLoops := fun n => if decide (n = 6%positive) then [10%positive] else [];
     getParentNode := fun l => if decide (l = 10%positive) then Some 6%positive else None;
     hasNestedLoop := fun _ => false;
     hasNestedSchedule := fun _ => false;
     getLoopBandFromInnermost := fun l => [l] |}.

Definition pairCorrelations : CorrelationAnalysis :=
  {| corrEntries := [(3%positive, [1%positive]); (5%positive, [1%positive])];
     getCorrelations := fun n => if decide (n = 3%positive) then [1%positive]
                                 else if decide (n = 5%positive) then [1%positive] else [];
     getCorrelatedNode := fun _ n => if decide (n = 3%positive) then 5%positive else 3%positive;
     permuteFactors := fun _ _ f => f |}.



Definition dispatchResult : History :=
  [UnrollJam [10%positive] [4]; Vectorize [7%positive] [2]; UnrollJam [8%positive] [8]].




End DataflowProofs.

(** * Properties of the copy simplification *)

Module SimplifyCopyProofs.
Import SimplifyCopy.

(** ** Users, and the rewriter *)

Lemma elem_of_getUsers (ir : IR) (v : Value) (user : OpId) :
  user ∈ getUsers ir v <-> exists op, ir !! user = Some op /\ v ∈ operands op.
Proof.
  unfold getUsers. rewrite list_elem_of_join. split.
  - intros (l & Huser & Hl). apply list_elem_of_fmap in Hl as ([o op] & -> & Hin).
    apply elem_of_map_to_list in Hin. cbn in Huser.
    apply list_elem_of_fmap in Huser as (x & -> & Hx).
    apply list_elem_of_filter in Hx as [-> Hx]. by exists op.
  - intros (op & Hop & Hv). eexists. split; [|apply list_elem_of_fmap].
    2:{ exists (user, op). split; [done|]. by apply elem_of_map_to_list. }
    cbn. apply list_elem_of_fmap. exists v. split; [done|]. by apply list_elem_of_filter.
Qed.

Lemma getUsers_nil (ir : IR) (v : Value) :
  getUsers ir v = [] <-> forall user op, ir !! user = Some op -> v ∉ operands op.
Proof.
  split.
  - intros Hnil user op Hop Hv.
    assert (Huser : user ∈ getUsers ir v) by (apply elem_of_getUsers; eauto).
    rewrite Hnil in Huser. by apply elem_of_nil in Huser.
  - intros Hnone. destruct (getUsers ir v) as [|user rest] eqn:Husers; [done|].
    assert (Huser : user ∈ getUsers ir v) by (rewrite Husers; left).
    apply elem_of_getUsers in Huser as (op & Hop & Hv). by destruct (Hnone user op).
Qed.

Lemma eraseOp_Normal (op : OpId) (ir ir' : IR) :
  eraseOp op ir = Normal ir' <-> getUsers ir (OpResult op) = [] /\ ir' = delete op ir.
Proof.
  unfold eraseOp. destruct (getUsers ir (OpResult op)); split; try done.
  - by intros [= <-].
  - by intros [_ ->].
  - by intros [? _].
Qed.

Lemma lookup_replaceAllUsesWith (old new : Value) (ir : IR) (o : OpId) :
  replaceAllUsesWith old new ir !! o = redirectUses old new <$> ir !! o.
Proof. unfold replaceAllUsesWith. apply lookup_fmap. Qed.

(** ** The depth of view chains *)

(** Operands are defined before they are used: with the handles numbered in
    the order of the definitions, the owner of an operand has a smaller handle
    than its user. *)
Definition definedBeforeUse (ir : IR) : Prop :=
  forall user op owner, ir !! user = Some op -> OpResult owner ∈ operands op ->
    (owner < user)%positive.

(** The operations up to [o], and the operations after [o]. *)
Definition upTo (ir : IR) (o : OpId) : IR := filter (fun p => (p.1 <= o)%positive) ir.
Definition after (ir : IR) (o : OpId) : IR := filter (fun p => (o < p.1)%positive) ir.

Lemma upTo_smaller (ir : IR) (owner o : OpId) :
  is_Some (ir !! o) -> (owner < o)%positive -> (size (upTo ir owner) < size (upTo ir o))%nat.
Proof.
  intros [op Hop] Hlt. apply map_subset_size, map_subset_alt. split.
  - apply map_filter_subseteq_ext. intros i x _. cbn. lia.
  - exists o. split.
    + apply map_lookup_filter_None. right. intros x _. cbn. lia.
    + exists op. apply map_lookup_filter_Some. split; [done|]. cbn. lia.
Qed.

Lemma after_smaller (ir : IR) (o user : OpId) :
  is_Some (ir !! user) -> (o < user)%positive -> (size (after ir user) < size (after ir o))%nat.
Proof.
  intros [op Hop] Hlt. apply map_subset_size, map_subset_alt. split.
  - apply map_filter_subseteq_ext. intros i x _. cbn. lia.
  - exists user. split.
    + apply map_lookup_filter_None. right. intros x _. cbn. lia.
    + exists op. apply map_lookup_filter_Some. split; [done|]. cbn. lia.
Qed.

Lemma after_below_size (ir : IR) (user : OpId) :
  is_Some (ir !! user) -> (size (after ir user) < size ir)%nat.
Proof.
  intros [op Hop]. apply map_subset_size, map_subset_alt. split.
  - apply map_filter_subseteq.
  - exists user. split; [|by exists op].
    apply map_lookup_filter_None. right. intros x _. cbn. lia.
Qed.

(** [findBuffer] returns when the fuel exceeds the number of operations up to
    the owner of the memref. *)
Lemma findBuffer_enough_fuel (ir : IR) (fuel : nat) (memref : Value) :
  definedBeforeUse ir ->
  (match memref with OpResult o => size (upTo ir o) | BlockArgument _ => 0%nat end < fuel)%nat ->
  exists r, findBuffer fuel ir memref = Normal r.
Proof.
  intros Hssa. revert memref. induction fuel as [|fuel IH]; intros memref Hfuel; [lia|].
  cbn. destruct memref as [index|o]; [by eexists|].
  destruct (ir !! o) as [op|] eqn:Hop; [|by eexists].
  destruct (name op); try by eexists.
  destruct (operands op) as [|viewSource rest] eqn:Hoperands; [by eexists|].
  apply IH. destruct viewSource as [index|owner].
  - assert (0 < size (upTo ir o))%nat; [|lia].
    apply Nat.neq_0_lt_0, map_size_ne_0_lookup. exists o, op.
    apply map_lookup_filter_Some. split; [done|]. cbn. lia.
  - assert (size (upTo ir owner) < size (upTo ir o))%nat; [|lia].
    apply upTo_smaller; [by rewrite Hop|].
    apply (Hssa o op owner Hop). rewrite Hoperands. left.
Qed.

Lemma findBuffer_returns (ir : IR) (memref : Value) :
  definedBeforeUse ir -> exists r, findBuffer (viewDepth ir) ir memref = Normal r.
Proof.
  intros Hssa. apply findBuffer_enough_fuel; [done|]. unfold viewDepth.
  destruct memref; [lia|]. apply Nat.lt_succ_r, map_size_filter.
Qed.

Lemma collectUsers_returns {A : Type} (f : A -> Outcome (list OpId)) (l : list A) :
  (forall x, x ∈ l -> exists r, f x = Normal r) -> exists r, collectUsers f l = Normal r.
Proof.
  induction l as [|x l IH]; intros Hall; cbn; [by eexists|].
  destruct (Hall x) as [here ->]; [left|]. cbn.
  destruct IH as [there ->]; [|by eexists]. intros y Hy. apply Hall. by right.
Qed.

(** [findBufferUsers] returns when the fuel exceeds the number of operations
    after the owner of the memref. *)
Lemma findBufferUsers_enough_fuel (ir : IR) (fuel : nat) (memref : Value) :
  definedBeforeUse ir ->
  (match memref with OpResult o => size (after ir o) | BlockArgument _ => size ir end < fuel)%nat ->
  exists r, findBufferUsers fuel ir memref = Normal r.
Proof.
  intros Hssa. revert memref. induction fuel as [|fuel IH]; intros memref Hfuel; [lia|].
  cbn. apply collectUsers_returns. intros user Huser.
  apply elem_of_getUsers in Huser as (op & Hop & Hin).
  unfold getName. rewrite Hop. cbn. destruct (name op); try by eexists.
  apply IH. destruct memref as [index|o].
  - assert (size (after ir user) < size ir)%nat; [|lia].
    apply after_below_size. by rewrite Hop.
  - assert (size (after ir user) < size (after ir o))%nat; [|lia].
    apply after_smaller; [by rewrite Hop|]. by apply (Hssa user op o).
Qed.

Lemma findBufferUsers_returns (ir : IR) (memref : Value) :
  definedBeforeUse ir -> exists r, findBufferUsers (viewDepth ir) ir memref = Normal r.
Proof.
  intros Hssa. apply findBufferUsers_enough_fuel; [done|]. unfold viewDepth.
  destruct memref; [lia|]. apply Nat.lt_succ_r, map_size_filter.
Qed.

(** ** The conditions of the pattern *)

Lemma all_of_true {A : Type} (pred : A -> Outcome bool) (l : list A) :
  all_of pred l = Normal true <-> forall x, x ∈ l -> pred x = Normal true.
Proof.
  induction l as [|x l IH]; cbn.
  - split; [|done]. intros _ x Hx. by apply elem_of_nil in Hx.
  - destruct (pred x) as [[]|] eqn:Hx; cbn.
    + rewrite IH. split.
      * intros Hl y Hy. apply elem_of_cons in Hy as [->|Hy]; auto.
      * intros Hl y Hy. apply Hl. by right.
    + split; [done|]. intros Hl. specialize (Hl x (list_elem_of_here _ _)). congruence.
    + split; [done|]. intros Hl. specialize (Hl x (list_elem_of_here _ _)). congruence.
Qed.

(** What [findBuffer] returns is a block argument or the result of a [BufferOp]. *)
Definition isBuffer (ir : IR) (v : Value) : Prop :=
  (exists index, v = BlockArgument index) \/ is_Some (getDefiningBufferOp ir v).

Lemma findBuffer_isBuffer (fuel : nat) (ir : IR) (memref buffer : Value) :
  findBuffer fuel ir memref = Normal (Some buffer) -> isBuffer ir buffer.
Proof.
  revert memref. induction fuel as [|fuel IH]; intros memref; cbn; [done|].
  destruct memref as [index|owner].
  - intros [= <-]. left. by exists index.
  - destruct (ir !! owner) as [op|] eqn:Hop; [|done].
    destruct (name op) eqn:Hname; try done.
    + intros [= <-]. right. cbn. unfold getName. rewrite Hop. cbn. rewrite Hname. eauto.
    + destruct (operands op) as [|viewSource rest]; [done|]. apply IH.
Qed.

(** A buffer defined by a [BufferOp] is the result of that operation. *)
Lemma getDefiningBufferOp_Some (ir : IR) (v : Value) (buf : OpId) :
  getDefiningBufferOp ir v = Some buf ->
  v = OpResult buf /\ exists initValue, getName ir buf = Some (BufferOp initValue).
Proof.
  destruct v as [index|owner]; cbn; [done|].
  destruct (getName ir owner) as [[initValue| | |]|] eqn:Hname; try done.
  intros [= <-]. eauto.
Qed.

(** [copy] is a copy from [src] to [tgt]. *)
Definition isCopy (ir : IR) (copy : OpId) (src tgt : Value) : Prop :=
  exists op, ir !! copy = Some op /\ name op = CopyOp /\ operands op = [src; tgt].

(** The ways in which a copy fails the conditions of the pattern, each with
    what the pattern has computed when it finds out. *)
Inductive PreconditionFails (ctx : Context) (ir : IR) (copy : OpId) : Prop :=
| different_memory_space (src tgt : Value) :
    isCopy ir copy src tgt ->
    getMemorySpaceAsInt ctx src <> getMemorySpaceAsInt ctx tgt ->
    PreconditionFails ctx ir copy
| side_without_buffer (src tgt : Value) (s t : option Value) :
    isCopy ir copy src tgt ->
    getMemorySpaceAsInt ctx src = getMemorySpaceAsInt ctx tgt ->
    findBuffer (viewDepth ir) ir src = Normal s ->
    findBuffer (viewDepth ir) ir tgt = Normal t ->
    s = None \/ t = None ->
    PreconditionFails ctx ir copy
| no_local_buffer (src tgt s t : Value) :
    isCopy ir copy src tgt ->
    getMemorySpaceAsInt ctx src = getMemorySpaceAsInt ctx tgt ->
    findBuffer (viewDepth ir) ir src = Normal (Some s) ->
    findBuffer (viewDepth ir) ir tgt = Normal (Some t) ->
    getDefiningBufferOp ir s = None ->
    getDefiningBufferOp ir t = None ->
    PreconditionFails ctx ir copy
| source_user_after_copy (src tgt s t : Value) (su tu : list OpId) :
    isCopy ir copy src tgt ->
    getMemorySpaceAsInt ctx src = getMemorySpaceAsInt ctx tgt ->
    findBuffer (viewDepth ir) ir src = Normal (Some s) ->
    findBuffer (viewDepth ir) ir tgt = Normal (Some t) ->
    is_Some (getDefiningBufferOp ir s) \/ is_Some (getDefiningBufferOp ir t) ->
    findBufferUsers (viewDepth ir) ir s = Normal su ->
    findBufferUsers (viewDepth ir) ir t = Normal tu ->
    all_of (fun user => crossRegionDominates ctx ir user copy) su = Normal false ->
    PreconditionFails ctx ir copy
| target_user_before_copy (src tgt s t : Value) (su tu : list OpId) :
    isCopy ir copy src tgt ->
    getMemorySpaceAsInt ctx src = getMemorySpaceAsInt ctx tgt ->
    findBuffer (viewDepth ir) ir src = Normal (Some s) ->
    findBuffer (viewDepth ir) ir tgt = Normal (Some t) ->
    is_Some (getDefiningBufferOp ir s) \/ is_Some (getDefiningBufferOp ir t) ->
    findBufferUsers (viewDepth ir) ir s = Normal su ->
    findBufferUsers (viewDepth ir) ir t = Normal tu ->
    all_of (fun user => crossRegionDominates ctx ir user copy) su = Normal true ->
    all_of (fun user => crossRegionDominates ctx ir copy user) tu = Normal false ->
    PreconditionFails ctx ir copy.

Section Conditions.
Context (ctx : Context).

Lemma analyze_isCopy (ir : IR) (copy : OpId) (src tgt : Value) :
  isCopy ir copy src tgt ->
  analyze ctx ir copy =
  if negb (getMemorySpaceAsInt ctx src =? getMemorySpaceAsInt ctx tgt) then Normal None
  else
    let* source := findBuffer (viewDepth ir) ir src in
    let* target := findBuffer (viewDepth ir) ir tgt in
    match source, target with
    | Some source, Some target =>
        if negb (bool_decide (is_Some (getDefiningBufferOp ir source))) &&
           negb (bool_decide (is_Some (getDefiningBufferOp ir target)))
        then Normal None
        else
          let* sourceUsers := findBufferUsers (viewDepth ir) ir source in
          let* targetUsers := findBufferUsers (viewDepth ir) ir target in
          let* sourceOk := all_of (fun user => crossRegionDominates ctx ir user copy) sourceUsers in
          if negb sourceOk then Normal None
          else
            let* targetOk := all_of (fun user => crossRegionDominates ctx ir copy user) targetUsers in
            if negb targetOk then Normal None
            else Normal (Some {| copySource := src; copyTarget := tgt;
                                 source := source; target := target;
                                 sourceUsers := sourceUsers; targetUsers := targetUsers |})
    | _, _ => Normal None
    end.
Proof.
  intros (op & Hop & Hname & Hoperands). unfold analyze. rewrite Hop.
  destruct op as [n ops anc]. cbn in *. by subst.
Qed.

(** What the pattern has established when its first part lets a copy through. *)
Lemma analyze_Some (ir : IR) (copy : OpId) (a : Analysis) :
  analyze ctx ir copy = Normal (Some a) ->
  isCopy ir copy (copySource a) (copyTarget a) /\
  getMemorySpaceAsInt ctx (copySource a) = getMemorySpaceAsInt ctx (copyTarget a) /\
  findBuffer (viewDepth ir) ir (copySource a) = Normal (Some (source a)) /\
  findBuffer (viewDepth ir) ir (copyTarget a) = Normal (Some (target a)) /\
  (is_Some (getDefiningBufferOp ir (source a)) \/
   is_Some (getDefiningBufferOp ir (target a))) /\
  findBufferUsers (viewDepth ir) ir (source a) = Normal (sourceUsers a) /\
  findBufferUsers (viewDepth ir) ir (target a) = Normal (targetUsers a) /\
  (forall user, user ∈ sourceUsers a -> crossRegionDominates ctx ir user copy = Normal true) /\
  (forall user, user ∈ targetUsers a -> crossRegionDominates ctx ir copy user = Normal true).
Proof.
  intros Ha.
  assert (exists src tgt, isCopy ir copy src tgt) as (src & tgt & Hcopy).
  { unfold analyze in Ha. destruct (ir !! copy) as [[n ops anc]|] eqn:Hop; [|done].
    destruct n; try done. destruct ops as [|src [|tgt [|]]]; try done.
    exists src, tgt. by eexists. }
  rewrite (analyze_isCopy ir copy _ _ Hcopy) in Ha.
  destruct (Z.eqb_spec (getMemorySpaceAsInt ctx src)
                       (getMemorySpaceAsInt ctx tgt)) as [Hspace|]; [|done].
  cbn [negb] in Ha.
  destruct (findBuffer (viewDepth ir) ir src) as [[s|]|] eqn:Hs; cbn in Ha;
    try done.
  2:{ destruct (findBuffer (viewDepth ir) ir tgt); cbn in Ha; done. }
  destruct (findBuffer (viewDepth ir) ir tgt) as [[t|]|] eqn:Ht; cbn in Ha;
    try done.
  destruct (negb (bool_decide (is_Some (getDefiningBufferOp ir s))) &&
            negb (bool_decide (is_Some (getDefiningBufferOp ir t)))) eqn:Hlocal; [done|].
  destruct (findBufferUsers (viewDepth ir) ir s) as [su|] eqn:Hsu; cbn in Ha; [|done].
  destruct (findBufferUsers (viewDepth ir) ir t) as [tu|] eqn:Htu; cbn in Ha; [|done].
  destruct (all_of _ su) as [[]|] eqn:Hsource; cbn in Ha; try done.
  destruct (all_of _ tu) as [[]|] eqn:Htarget; cbn in Ha; try done.
  injection Ha as <-. cbn.
  pose proof (proj1 (all_of_true _ _) Hsource) as Hsource'.
  pose proof (proj1 (all_of_true _ _) Htarget) as Htarget'.
  repeat split; try done.
  apply andb_false_iff in Hlocal as [H|H]; apply negb_false_iff, bool_decide_eq_true in H; auto.
Qed.

Lemma analyze_fails (ir : IR) (copy : OpId) :
  PreconditionFails ctx ir copy -> analyze ctx ir copy = Normal None.
Proof.
  intros [src tgt Hcopy Hspace
         |src tgt s t Hcopy Hspace Hs Ht Hnone
         |src tgt s t Hcopy Hspace Hs Ht Hsb Htb
         |src tgt s t su tu Hcopy Hspace Hs Ht Hlocal Hsu Htu Hsource
         |src tgt s t su tu Hcopy Hspace Hs Ht Hlocal Hsu Htu Hsource Htarget];
    rewrite (analyze_isCopy ir copy src tgt Hcopy).
  - by destruct (Z.eqb_spec (getMemorySpaceAsInt ctx src) (getMemorySpaceAsInt ctx tgt)).
  - rewrite Hspace, Z.eqb_refl, Hs, Ht. cbn. destruct Hnone as [-> | ->]; [done|].
    by destruct s.
  - rewrite Hspace, Z.eqb_refl, Hs, Ht. cbn. rewrite Hsb, Htb.
    rewrite !bool_decide_eq_false_2; [done|by intros [? ?]..].
  - rewrite Hspace, Z.eqb_refl, Hs, Ht. cbn.
    assert (negb (bool_decide (is_Some (getDefiningBufferOp ir s))) &&
            negb (bool_decide (is_Some (getDefiningBufferOp ir t))) = false) as ->.
    { apply andb_false_iff. destruct Hlocal; [left|right];
        by apply negb_false_iff, bool_decide_eq_true. }
    rewrite Hsu, Htu. cbn. by rewrite Hsource.
  - rewrite Hspace, Z.eqb_refl, Hs, Ht. cbn.
    assert (negb (bool_decide (is_Some (getDefiningBufferOp ir s))) &&
            negb (bool_decide (is_Some (getDefiningBufferOp ir t))) = false) as ->.
    { apply andb_false_iff. destruct Hlocal; [left|right];
        by apply negb_false_iff, bool_decide_eq_true. }
    rewrite Hsu, Htu. cbn. rewrite Hsource. cbn. by rewrite Htarget.
Qed.

(** A match that fails leaves the function as it was. *)
Lemma replaceSource_failure (ir ir' : IR) (copy : OpId) (a : Analysis) :
  replaceSource ctx ir copy a = Normal (failure, ir') -> ir' = ir.
Proof.
  unfold replaceSource. repeat case_match; try by intros [= <-].
  destruct (replaceOp _ _ _) as [ir2|]; cbn; [|done].
  by destruct (eraseOp copy ir2).
Qed.

Lemma matchAndRewrite_failure (ir ir' : IR) (copy : OpId) :
  matchAndRewrite ctx ir copy = Normal (failure, ir') -> ir' = ir.
Proof.
  unfold matchAndRewrite. destruct (analyze ctx ir copy) as [[a|]|]; cbn; [| |done].
  - unfold rewrite. repeat case_match; try apply replaceSource_failure.
    destruct (replaceOp _ _ _) as [ir1|]; cbn; [|done]. by destruct (eraseOp copy ir1).
  - by intros [= <-].
Qed.

(** C3. The pattern rewrites a copy only if the two memrefs are in the same
    memory space, each resolves through its views to a block argument or to
    the result of a [BufferOp], one of them at least to the result of a
    [BufferOp], every user of the source buffer, found through its views,
    dominates the copy, and the copy dominates every user of the target
    buffer. If one of these conditions fails the match fails, and a match
    that fails leaves the function as it was; a copy between two memory
    spaces is such a case. *)
Theorem rewrite_only_under_preconditions (ir : IR) (copy : OpId) :
  (forall applied ir', matchAndRewrite ctx ir copy = Normal (success applied, ir') ->
     exists src tgt s t su tu,
       isCopy ir copy src tgt /\
       getMemorySpaceAsInt ctx src = getMemorySpaceAsInt ctx tgt /\
       findBuffer (viewDepth ir) ir src = Normal (Some s) /\
       findBuffer (viewDepth ir) ir tgt = Normal (Some t) /\
       isBuffer ir s /\ isBuffer ir t /\
       (is_Some (getDefiningBufferOp ir s) \/ is_Some (getDefiningBufferOp ir t)) /\
       findBufferUsers (viewDepth ir) ir s = Normal su /\
       findBufferUsers (viewDepth ir) ir t = Normal tu /\
       (forall user, user ∈ su -> crossRegionDominates ctx ir user copy = Normal true) /\
       (forall user, user ∈ tu -> crossRegionDominates ctx ir copy user = Normal true)) /\
  (PreconditionFails ctx ir copy -> matchAndRewrite ctx ir copy = Normal (failure, ir)) /\
  (forall ir', matchAndRewrite ctx ir copy = Normal (failure, ir') -> ir' = ir) /\
  (forall src tgt, isCopy ir copy src tgt ->
     getMemorySpaceAsInt ctx src <> getMemorySpaceAsInt ctx tgt ->
     matchAndRewrite ctx ir copy = Normal (failure, ir)).
Proof.
  assert (Hfails : PreconditionFails ctx ir copy ->
                   matchAndRewrite ctx ir copy = Normal (failure, ir)).
  { intros Hfail. unfold matchAndRewrite. by rewrite (analyze_fails ir copy Hfail). }
  split; [|split; [done|split]].
  - intros applied ir'. unfold matchAndRewrite.
    destruct (analyze ctx ir copy) as [[a|]|] eqn:Ha; cbn; [|done..]. intros _.
    destruct (analyze_Some ir copy a Ha)
      as (Hcopy & Hspace & Hs & Ht & Hlocal & Hsu & Htu & Hsource & Htarget).
    exists (copySource a), (copyTarget a), (source a), (target a),
      (sourceUsers a), (targetUsers a).
    repeat split; try done; by eapply findBuffer_isBuffer.
  - intros ir'. apply matchAndRewrite_failure.
  - intros src tgt Hcopy Hspace. apply Hfails. by eapply different_memory_space.
Qed.

End Conditions.

(** ** The two rewrites *)

(** No operand is the result of an operation that is not there, or of a copy. *)
Definition wellFormed (ir : IR) : Prop :=
  forall user op owner, ir !! user = Some op -> OpResult owner ∈ operands op ->
    exists def, ir !! owner = Some def /\ name def <> CopyOp.

Section Rewrites.
Context (ctx : Context).

Lemma replaceOp_Normal (op : OpId) (new : Value) (ir ir' : IR) :
  replaceOp op new ir = Normal ir' <->
  (forall user o, replaceAllUsesWith (OpResult op) new ir !! user = Some o ->
                  OpResult op ∉ operands o) /\
  ir' = delete op (replaceAllUsesWith (OpResult op) new ir).
Proof. unfold replaceOp. by rewrite eraseOp_Normal, getUsers_nil. Qed.

Lemma canReplace_true (buf view otherView : option OpId) (users : list OpId) :
  canReplace ctx buf view otherView users = true ->
  exists b, buf = Some b /\ view = Some b /\
    forall other, otherView = Some other ->
      forall user, user ∈ users -> dominates ctx other user = true.
Proof.
  unfold canReplace. destruct buf as [b|]; [|done].
  intros [Hview Hdom]%andb_true_iff. apply bool_decide_eq_true in Hview.
  exists b. repeat split; [done|]. intros other -> user Huser.
  rewrite forallb_forall in Hdom. by apply Hdom, list_elem_of_In.
Qed.

(** The function after a buffer and the copy were erased, the uses of the
    buffer having been redirected to [new]. *)
Lemma erased_lookup (ir : IR) (buf copy : OpId) (new : Value) (o : OpId) :
  delete copy (delete buf (replaceAllUsesWith (OpResult buf) new ir)) !! o =
  if decide (o = copy \/ o = buf) then None
  else redirectUses (OpResult buf) new <$> ir !! o.
Proof.
  rewrite !lookup_delete, lookup_replaceAllUsesWith.
  repeat case_decide; subst; try done; try tauto.
  match goal with H : _ \/ _ |- _ => by destruct H as [-> | ->] end.
Qed.

(** Which rewrite a successful match has applied. *)
Lemma replaceSource_success (ir ir' : IR) (copy : OpId) (a : Analysis) (applied : Rewrite) :
  replaceSource ctx ir copy a = Normal (success applied, ir') -> applied = SourceAndCopyErased.
Proof.
  unfold replaceSource. repeat case_match; try done.
  destruct (replaceOp _ _ _) as [ir2|]; cbn; [|done].
  destruct (eraseOp copy ir2); cbn; [|done]. by intros [= <- _].
Qed.

(** C7. The rewrite that erases the target fires only if the target resolves
    to a [BufferOp] that itself defines the target operand of the copy, and
    the operation that defines the source operand, if there is one,
    dominates every user of the target buffer. When it fires, the function
    is left without the copy and without the [BufferOp], every other
    operation is kept with its uses of the target buffer redirected to the
    source operand of the copy, no use of the target buffer is left, and if
    no operand was dangling before, none is after. *)
Theorem eliminate_target (ir ir' : IR) (copy : OpId) :
  matchAndRewrite ctx ir copy = Normal (success TargetAndCopyErased, ir') ->
  exists a targetBuf,
    analyze ctx ir copy = Normal (Some a) /\
    getDefiningBufferOp ir (target a) = Some targetBuf /\
    copyTarget a = OpResult targetBuf /\
    (forall sourceView, getDefiningOp (copySource a) = Some sourceView ->
       forall user, user ∈ targetUsers a -> dominates ctx sourceView user = true) /\
    ir' !! copy = None /\
    ir' !! targetBuf = None /\
    (forall o, o <> copy -> o <> targetBuf ->
       ir' !! o = redirectUses (OpResult targetBuf) (copySource a) <$> ir !! o) /\
    (forall user op, ir' !! user = Some op -> OpResult targetBuf ∉ operands op) /\
    (wellFormed ir -> wellFormed ir').
Proof.
  unfold matchAndRewrite. destruct (analyze ctx ir copy) as [[a|]|] eqn:Ha; cbn [bind]; [|done..].
  unfold rewrite.
  destruct (getDefiningBufferOp ir (target a)) as [targetBuf|] eqn:Htb.
  2:{ intros H. by apply replaceSource_success in H. }
  destruct (canReplaceTarget ctx ir a) eqn:Hcan.
  2:{ intros H. by apply replaceSource_success in H. }
  destruct (replaceOp targetBuf (copySource a) ir) as [ir1|] eqn:H1; cbn [bind]; [|done].
  destruct (eraseOp copy ir1) as [ir2|] eqn:H2; cbn [bind]; [|done].
  intros [= <-].
  apply replaceOp_Normal in H1 as [Hunused ->].
  apply eraseOp_Normal in H2 as [Hnocopy ->].
  unfold canReplaceTarget in Hcan. rewrite Htb in Hcan.
  apply canReplace_true in Hcan as (b & [= <-] & Hview & Hdom).
  assert (Htarget : copyTarget a = OpResult targetBuf).
  { destruct (copyTarget a); cbn in Hview; congruence. }
  destruct (analyze_Some ctx ir copy a Ha) as ((cop & Hcop & Hcname & Hcoperands) & _).
  assert (Hlookup := erased_lookup ir targetBuf copy (copySource a)).
  assert (Hnouse : forall user op,
    delete copy (delete targetBuf
      (replaceAllUsesWith (OpResult targetBuf) (copySource a) ir)) !! user = Some op ->
    OpResult targetBuf ∉ operands op).
  { intros user op. rewrite lookup_delete. case_decide; [done|].
    rewrite lookup_delete. case_decide; [done|]. apply Hunused. }
  exists a, targetBuf. repeat split; try done.
  - rewrite Hlookup. case_decide; [done|tauto].
  - rewrite Hlookup. case_decide; [done|tauto].
  - intros o Hc Hb. rewrite Hlookup. case_decide; [tauto|done].
  - intros Hwf user op owner Huser Howner.
    assert (Hdef : exists def, ir !! owner = Some def /\ name def <> CopyOp).
    { rewrite Hlookup in Huser. case_decide; [done|].
      destruct (ir !! user) as [op0|] eqn:Hop0; [|done]. injection Huser as <-.
      cbn in Howner. apply list_elem_of_fmap in Howner as (v & Hv & Hin).
      unfold replaceUse in Hv. case_decide; subst.
      - apply (Hwf copy cop owner Hcop). rewrite Hcoperands, <- Hv. left.
      - by apply (Hwf user op0 owner). }
    destruct Hdef as (def & Hdef & Hname).
    exists (redirectUses (OpResult targetBuf) (copySource a) def). split; [|done].
    rewrite Hlookup. case_decide as Hcase; [|by rewrite Hdef].
    destruct Hcase as [-> | ->].
    + rewrite Hcop in Hdef. injection Hdef as <-. done.
    + by destruct (Hnouse user op Huser).
Qed.

Lemma getInitValue_setInitValueAttr (ir : IR) (buffer : OpId) (initValue : Attr) :
  is_Some (ir !! buffer) ->
  getInitValue (setInitValueAttr buffer initValue ir) buffer = Some initValue.
Proof.
  intros [op Hop]. unfold getInitValue, getName, setInitValueAttr.
  by rewrite lookup_alter_eq, Hop.
Qed.

(** The source buffer and the copy erased, after the initial value went to
    the target buffer. *)
Definition sourceErased (ir : IR) (copy sourceBuf targetBuf : OpId) (initValue : Attr)
    (a : Analysis) : Outcome (LogicalResult * IR) :=
  let* ir2 := replaceOp sourceBuf (copyTarget a) (setInitValueAttr targetBuf initValue ir) in
  let* ir3 := eraseOp copy ir2 in
  Normal (success SourceAndCopyErased, ir3).

(** C8. When the rewrite that erases the source is considered - the copy has
    passed the conditions of the pattern, the rewrite that erases the target
    does not apply, and the source is a [BufferOp] that defines the source
    operand and whose users are dominated by the operation defining the
    target operand - and the source buffer has an initial value: if the
    target resolves to a [BufferOp] that has no initial value or that itself
    defines the target operand of the copy, the initial value of the source
    is set on the target buffer, then the source buffer is replaced by the
    target operand and the copy is erased, and the target buffer, which is
    still there, holds that initial value; in every other case the match
    fails and the function is left as it was. *)
Theorem eliminate_source_initial_value (ir : IR) (copy : OpId) (a : Analysis)
    (sourceBuf : OpId) (initValue : Attr) :
  analyze ctx ir copy = Normal (Some a) ->
  canReplaceTarget ctx ir a = false ->
  getDefiningBufferOp ir (source a) = Some sourceBuf ->
  canReplaceSource ctx ir a = true ->
  getInitValue ir sourceBuf = Some initValue ->
  match getDefiningBufferOp ir (target a) with
  | Some targetBuf =>
      if decide (getInitValue ir targetBuf = None \/ copyTarget a = OpResult targetBuf) then
        matchAndRewrite ctx ir copy = sourceErased ir copy sourceBuf targetBuf initValue a /\
        forall applied ir', matchAndRewrite ctx ir copy = Normal (success applied, ir') ->
          applied = SourceAndCopyErased /\
          getInitValue ir' targetBuf = Some initValue /\
          ir' !! sourceBuf = None /\ ir' !! copy = None
      else matchAndRewrite ctx ir copy = Normal (failure, ir)
  | None => matchAndRewrite ctx ir copy = Normal (failure, ir)
  end.
Proof.
  intros Ha Hnotarget Hsb Hcan Hinit.
  assert (Hmatch : matchAndRewrite ctx ir copy =
    match transferInitValue ir sourceBuf a with
    | None => Normal (failure, ir)
    | Some ir1 =>
        let* ir2 := replaceOp sourceBuf (copyTarget a) ir1 in
        let* ir3 := eraseOp copy ir2 in
        Normal (success SourceAndCopyErased, ir3)
    end).
  { unfold matchAndRewrite. rewrite Ha. cbn [bind]. unfold rewrite. rewrite Hnotarget.
    assert (Hsrc : replaceSource ctx ir copy a =
      match transferInitValue ir sourceBuf a with
      | None => Normal (failure, ir)
      | Some ir1 =>
          let* ir2 := replaceOp sourceBuf (copyTarget a) ir1 in
          let* ir3 := eraseOp copy ir2 in
          Normal (success SourceAndCopyErased, ir3)
      end) by (unfold replaceSource; by rewrite Hsb, Hcan).
    by destruct (getDefiningBufferOp ir (target a)). }
  rewrite Hmatch. unfold transferInitValue. rewrite Hinit.
  destruct (getDefiningBufferOp ir (target a)) as [targetBuf|] eqn:Htb; [|done].
  assert (Hview : getDefiningOp (copyTarget a) = Some targetBuf <->
                  copyTarget a = OpResult targetBuf).
  { destruct (copyTarget a); cbn; split; congruence. }
  case_decide as Hcond.
  2:{ assert (bool_decide (is_Some (getInitValue ir targetBuf)) &&
              negb (bool_decide (getDefiningOp (copyTarget a) = Some targetBuf)) = true) as ->;
        [|done].
      apply andb_true_iff. split.
      - apply bool_decide_eq_true. destruct (getInitValue ir targetBuf); [done|].
        destruct Hcond. by left.
      - apply negb_true_iff, bool_decide_eq_false. rewrite Hview. intros Heq.
        destruct Hcond. by right. }
  assert (bool_decide (is_Some (getInitValue ir targetBuf)) &&
          negb (bool_decide (getDefiningOp (copyTarget a) = Some targetBuf)) = false) as ->.
  { apply andb_false_iff. destruct Hcond as [Hnone|Heq].
    - left. apply bool_decide_eq_false. rewrite Hnone. by intros [? ?].
    - right. apply negb_false_iff, bool_decide_eq_true. by apply Hview. }
  split; [done|]. intros applied ir'.
  destruct (replaceOp sourceBuf (copyTarget a) (setInitValueAttr targetBuf initValue ir))
    as [ir2|] eqn:H2; cbn [bind]; [|done].
  destruct (eraseOp copy ir2) as [ir3|] eqn:H3; cbn [bind]; [|done].
  intros [= <- <-].
  apply replaceOp_Normal in H2 as [Hunused ->].
  apply eraseOp_Normal in H3 as [_ ->].
  destruct (analyze_Some ctx ir copy a Ha) as ((cop & Hcop & Hcname & Hcoperands) & _).
  apply getDefiningBufferOp_Some in Htb as (_ & initT & HnameT).
  unfold getName in HnameT. destruct (ir !! targetBuf) as [top|] eqn:Htop; [|done].
  injection HnameT as HnameT.
  assert (Hne_copy : targetBuf <> copy).
  { intros ->. rewrite Hcop in Htop. injection Htop as <-. congruence. }
  assert (Hne_source : targetBuf <> sourceBuf).
  { intros ->. destruct Hcond as [Hnone|Heq].
    - congruence.
    - apply (Hunused copy (redirectUses (OpResult sourceBuf) (copyTarget a) cop)).
      + rewrite lookup_replaceAllUsesWith. unfold setInitValueAttr.
        rewrite lookup_alter_ne by done. by rewrite Hcop.
      + cbn. rewrite Hcoperands, Heq. cbn. unfold replaceUse at 2.
        rewrite decide_True by done. right. left. }
  repeat split.
  - unfold getInitValue, getName. rewrite erased_lookup.
    rewrite decide_False by (intros [?|?]; done).
    unfold setInitValueAttr. by rewrite lookup_alter_eq, Htop.
  - rewrite erased_lookup. by rewrite decide_True by (by right).
  - rewrite erased_lookup. by rewrite decide_True by (by left).
Qed.

(** *** The pattern returns *)

Lemma all_of_Abort {A : Type} (pred : A -> Outcome bool) (l : list A) (f : Fault) :
  all_of pred l = Abort f -> exists x, x ∈ l /\ pred x = Abort f.
Proof.
  induction l as [|x l IH]; cbn; [done|].
  destruct (pred x) as [[]|f'] eqn:Hx; cbn.
  - intros H. destruct (IH H) as (y & Hy & Hf). exists y. split; [by right|done].
  - done.
  - intros [= <-]. exists x. split; [left|done].
Qed.

Lemma crossRegionDominates_Abort (ir : IR) (a b : OpId) (f : Fault) :
  crossRegionDominates ctx ir a b = Abort f -> f <> OutOfFuel.
Proof.
  unfold crossRegionDominates. repeat case_match; try done; by intros [= <-].
Qed.

Lemma eraseOp_Abort (op : OpId) (ir : IR) (f : Fault) :
  eraseOp op ir = Abort f -> f <> OutOfFuel.
Proof. unfold eraseOp. case_match; [done|]. by intros [= <-]. Qed.

(** On a function whose operands are defined before they are used, the fuel
    that the model gives to [findBuffer] and [findBufferUsers] is enough:
    the pattern returns, or stops on a failed assertion. *)
Lemma matchAndRewrite_enough_fuel (ir : IR) (copy : OpId) :
  definedBeforeUse ir -> matchAndRewrite ctx ir copy <> Abort OutOfFuel.
Proof.
  intros Hssa. unfold matchAndRewrite.
  destruct (analyze ctx ir copy) as [[a|]|f] eqn:Ha; cbn [bind]; [| done |].
  - unfold rewrite, replaceSource, replaceOp.
    repeat case_match; try done;
      repeat match goal with
             | |- context [eraseOp ?o ?i] =>
                 let H := fresh in destruct (eraseOp o i) eqn:H; cbn [bind]; try done;
                 try (apply eraseOp_Abort in H; congruence)
             end.
  - intros [= ->]. revert Ha. unfold analyze.
    destruct (ir !! copy) as [[n ops anc]|]; [|done].
    destruct n; try done. destruct ops as [|src [|tgt [|]]]; try done.
    case_match; [done|].
    destruct (findBuffer_returns ir src Hssa) as [s ->].
    destruct (findBuffer_returns ir tgt Hssa) as [t ->]. cbn [bind].
    destruct s as [s|], t as [t|]; try done.
    case_match; [done|].
    destruct (findBufferUsers_returns ir s Hssa) as [su ->].
    destruct (findBufferUsers_returns ir t Hssa) as [tu ->]. cbn [bind].
    destruct (all_of _ su) as [[]|f] eqn:Hsource; cbn [bind negb]; try done.
    + destruct (all_of _ tu) as [[]|f] eqn:Htarget; cbn [bind negb]; try done.
      intros [= ->]. apply all_of_Abort in Htarget as (x & _ & Hx).
      by apply crossRegionDominates_Abort in Hx.
    + intros [= ->]. apply all_of_Abort in Hsource as (x & _ & Hx).
      by apply crossRegionDominates_Abort in Hx.
Qed.

End Rewrites.

(** *** The pattern on concrete functions *)

(** All memrefs in one memory space; an operation dominates the operations
    with a larger handle. *)
Definition plainContext : Context :=
  {| getMemorySpaceAsInt := fun _ => 0; dominates := fun a b => (a <=? b)%positive |}.

(** The first block argument in memory space 1, everything else in space 0. *)
Definition splitContext : Context :=
  {| getMemorySpaceAsInt := fun v => if decide (v = BlockArgument 0) then 1 else 0;
     dominates := fun a b => (a <=? b)%positive |}.

(** A copy (20) from a block argument into a local buffer (10) that is read
    afterwards (30); the function is the operation 1. *)
Definition copyIntoLocal : IR :=
  list_to_map
    [(10%positive, {| name := BufferOp None; operands := []; ancestors := [1%positive] |});
     (20%positive, {| name := CopyOp; operands := [BlockArgument 0; OpResult 10];
                      ancestors := [1%positive] |});
     (30%positive, {| name := OtherOp; operands := [OpResult 10];
                      ancestors := [1%positive] |})].

Definition copyIntoLocalRewritten : IR :=
  list_to_map
    [(30%positive, {| name := OtherOp; operands := [BlockArgument 0];
                      ancestors := [1%positive] |})].

Lemma copyIntoLocal_rewritten :
  matchAndRewrite plainContext copyIntoLocal 20 =
  Normal (success TargetAndCopyErased, copyIntoLocalRewritten).
Proof. by vm_compute. Qed.

Lemma rewrite_only_under_preconditions_witness :
  exists src tgt s t su tu,
    isCopy copyIntoLocal 20 src tgt /\
    getMemorySpaceAsInt plainContext src = getMemorySpaceAsInt plainContext tgt /\
    findBuffer (viewDepth copyIntoLocal) copyIntoLocal src = Normal (Some s) /\
    findBuffer (viewDepth copyIntoLocal) copyIntoLocal tgt = Normal (Some t) /\
    isBuffer copyIntoLocal s /\ isBuffer copyIntoLocal t /\
    (is_Some (getDefiningBufferOp copyIntoLocal s) \/
     is_Some (getDefiningBufferOp copyIntoLocal t)) /\
    findBufferUsers (viewDepth copyIntoLocal) copyIntoLocal s = Normal su /\
    findBufferUsers (viewDepth copyIntoLocal) copyIntoLocal t = Normal tu /\
    (forall user, user ∈ su ->
       crossRegionDominates plainContext copyIntoLocal user 20 = Normal true) /\
    (forall user, user ∈ tu ->
       crossRegionDominates plainContext copyIntoLocal 20 user = Normal true).
Proof.
  exact (proj1 (rewrite_only_under_preconditions plainContext copyIntoLocal 20)
           TargetAndCopyErased copyIntoLocalRewritten copyIntoLocal_rewritten).
Defined.

(** A copy between two memory spaces is left alone. *)
Lemma copy_between_memory_spaces :
  matchAndRewrite splitContext copyIntoLocal 20 = Normal (failure, copyIntoLocal).
Proof. by vm_compute. Qed.

Lemma eliminate_target_witness :
  exists a targetBuf,
    analyze plainContext copyIntoLocal 20 = Normal (Some a) /\
    getDefiningBufferOp copyIntoLocal (target a) = Some targetBuf /\
    copyTarget a = OpResult targetBuf /\
    (forall sourceView, getDefiningOp (copySource a) = Some sourceView ->
       forall user, user ∈ targetUsers a -> dominates plainContext sourceView user = true) /\
    copyIntoLocalRewritten !! 20%positive = None /\
    copyIntoLocalRewritten !! targetBuf = None /\
    (forall o, o <> 20%positive -> o <> targetBuf ->
       copyIntoLocalRewritten !! o
         = redirectUses (OpResult targetBuf) (copySource a) <$> copyIntoLocal !! o) /\
    (forall user op, copyIntoLocalRewritten !! user = Some op ->
       OpResult targetBuf ∉ operands op) /\
    (wellFormed copyIntoLocal -> wellFormed copyIntoLocalRewritten).
Proof.
  exact (eliminate_target plainContext copyIntoLocal copyIntoLocalRewritten 20
           copyIntoLocal_rewritten).
Defined.

(** A copy (20) from a local buffer with an initial value (2), written
    before (5), into a view (4) of a local buffer without one (3), read
    afterwards (30). *)
Definition copyFromInitialized : IR :=
  list_to_map
    [(2%positive, {| name := BufferOp (Some 7); operands := []; ancestors := [1%positive] |});
     (3%positive, {| name := BufferOp None; operands := []; ancestors := [1%positive] |});
     (4%positive, {| name := ViewLikeOp; operands := [OpResult 3]; ancestors := [1%positive] |});
     (5%positive, {| name := OtherOp; operands := [OpResult 2]; ancestors := [1%positive] |});
     (20%positive, {| name := CopyOp; operands := [OpResult 2; OpResult 4];
                      ancestors := [1%positive] |});
     (30%positive, {| name := OtherOp; operands := [OpResult 4];
                      ancestors := [1%positive] |})].

Definition copyFromInitializedAnalysis : Analysis :=
  {| copySource := OpResult 2; copyTarget := OpResult 4;
     source := OpResult 2; target := OpResult 3;
     sourceUsers := [5%positive; 20%positive]; targetUsers := [30%positive; 20%positive] |}.

Definition copyFromInitializedRewritten : IR :=
  list_to_map
    [(3%positive, {| name := BufferOp (Some 7); operands := []; ancestors := [1%positive] |});
     (4%positive, {| name := ViewLikeOp; operands := [OpResult 3]; ancestors := [1%positive] |});
     (5%positive, {| name := OtherOp; operands := [OpResult 4]; ancestors := [1%positive] |});
     (30%positive, {| name := OtherOp; operands := [OpResult 4];
                      ancestors := [1%positive] |})].

Lemma eliminate_source_initial_value_witness :
  matchAndRewrite plainContext copyFromInitialized 20 =
    sourceErased copyFromInitialized 20 2 3 7 copyFromInitializedAnalysis /\
  forall applied ir',
    matchAndRewrite plainContext copyFromInitialized 20 = Normal (success applied, ir') ->
    applied = SourceAndCopyErased /\
    getInitValue ir' 3 = Some 7 /\
    ir' !! 2%positive = None /\ ir' !! 20%positive = None.
Proof.
  exact (eliminate_source_initial_value plainContext copyFromInitialized 20
           copyFromInitializedAnalysis 2 7
           ltac:(by vm_compute) ltac:(by vm_compute) ltac:(by vm_compute)
           ltac:(by vm_compute) ltac:(by vm_compute)).
Defined.

Lemma copyFromInitialized_rewritten :
  matchAndRewrite plainContext copyFromInitialized 20 =
  Normal (success SourceAndCopyErased, copyFromInitializedRewritten).
Proof. by vm_compute. Qed.

End SimplifyCopyProofs.

(** * Further properties of the dataflow node parallelization *)

Module DataflowCoverage.
Import Dataflow DataflowProofs.

(** ** The budget traversal as a whole *)

(** The messages of the three diagnostics of the traversal. *)
Definition traversalMessages : list string :=
  ["failed to get parent node's unroll factor";
   "failed to get schedule complexity";
   "failed to get node complexity"].

(** How a callback, or a run of callbacks, has ended: without a diagnostic
    and with a budget for each of [nodes], or with one diagnostic more. *)
Definition endsWith (nodes : list OpId) (st : WalkState) (r : WalkResult) (st' : WalkState)
  : Prop :=
  match r with
  | Advance => st'.2 = st.2 /\ forall n, n ∈ nodes -> is_Some (st'.1 !! n)
  | Interrupt => exists op msg, st'.2 = st.2 ++ [OpError op msg] /\ msg ∈ traversalMessages
  end.

(** [op] is a Node operation. *)
Definition isNodeOp (op : Operation) : bool :=
  match op with Op _ NodeOp _ => true | _ => false end.

(** Every Node operation nested in [op] is directly in a Schedule. *)
Fixpoint nodesInSchedules (op : Operation) : bool :=
  let '(Op _ kind body) := op in
  (fix go (ops : list Operation) : bool :=
     match ops with
     | [] => true
     | o :: rest =>
         (negb (isNodeOp o) || match kind with ScheduleOp _ _ => true | _ => false end) &&
         nodesInSchedules o && go rest
     end) body.

(** The parent Node of each visit is among [seen] or among the Nodes of the
    visits before it. *)
Fixpoint parentsListed (seen : list OpId) (vs : list ScheduleVisit) : Prop :=
  match vs with
  | [] => True
  | v :: rest =>
      (forall p, sv_parent v = Some p -> p ∈ seen) /\ parentsListed (seen ++ sv_nodes v) rest
  end.

Section Traversal.
Context (opts : Options) (compAnal : ComplexityAnalysis).

Local Abbreviation walkVisits := (walkVisits opts compAnal).

Lemma DenseMap_insert_is_Some (node : OpId) (f : Z) (m : gmap OpId Z) :
  is_Some (DenseMap_insert node f m !! node).
Proof.
  unfold DenseMap_insert. destruct (m !! node) eqn:Hm; [by rewrite Hm|].
  by rewrite lookup_insert_eq.
Qed.

Lemma recordNodes_endsWith (f sc : Z) (nodes : list OpId) (st st' : WalkState)
    (r : WalkResult) :
  recordNodes compAnal f sc nodes st = Normal (r, st') -> endsWith nodes st r st'.
Proof.
  revert st. induction nodes as [|n nodes IH]; intros st; cbn [recordNodes].
  - intros [= <- <-]. split; [done|]. intros n Hn. by apply elem_of_nil in Hn.
  - destruct (getNodeComplexity compAnal n) as [nc|].
    + destruct (nodeUnrollFactor f nc sc) as [b|]; [|done]. cbn [bind]. intros Hrun.
      pose proof (recordNodes_extendsBy _ _ _ _ _ _ _ Hrun) as (Hsub & _).
      apply IH in Hrun. destruct r; cbn in *.
      * destruct Hrun as [Hds Hall]. split; [done|]. intros k Hk.
        apply elem_of_cons in Hk as [->|Hk]; [|by apply Hall].
        destruct (DenseMap_insert_is_Some n b st.1) as [x Hx].
        exists x. by eapply lookup_weaken.
      * done.
    + intros [= <- <-]. cbn. eexists _, _. split; [done|].
      unfold traversalMessages. by repeat constructor.
Qed.

Lemma scheduleCallback_endsWith (v : ScheduleVisit) (st st' : WalkState) (r : WalkResult) :
  scheduleCallback opts compAnal v st = Normal (r, st') -> endsWith (sv_nodes v) st r st'.
Proof.
  unfold scheduleCallback.
  destruct (getScheduleUnrollFactor opts v st.1) as [[p|f]|]; cbn [bind]; [| |done].
  - intros [= <- <-]. cbn. eexists _, _. split; [done|].
    unfold traversalMessages. by repeat constructor.
  - unfold visitNodes. destruct (getScheduleComplexity compAnal (sv_schedule v)).
    + apply recordNodes_endsWith.
    + intros [= <- <-]. cbn. eexists _, _. split; [done|].
      unfold traversalMessages. by repeat constructor.
Qed.

Lemma walkVisits_endsWith (vs : list ScheduleVisit) (st st' : WalkState) (r : WalkResult) :
  walkVisits vs st = Normal (r, st') -> endsWith (visitedNodes vs) st r st'.
Proof.
  revert st. induction vs as [|v vs IH]; intros st; cbn [Dataflow.walkVisits].
  - intros [= <- <-]. split; [done|]. intros n Hn. by apply elem_of_nil in Hn.
  - destruct (scheduleCallback opts compAnal v st) as [[[] st1]|] eqn:Hv; cbn [bind]; [| |done].
    + intros Hrun.
      pose proof (walkVisits_extendsBy _ _ _ _ _ _ Hrun) as (Hsub & _).
      apply scheduleCallback_endsWith in Hv as [Hds1 Hall1]. apply IH in Hrun.
      destruct r; cbn in *.
      * destruct Hrun as [Hds Hall]. split; [congruence|]. intros n Hn.
        change (visitedNodes (v :: vs)) with (sv_nodes v ++ visitedNodes vs) in Hn.
        apply elem_of_app in Hn as [Hn|Hn]; [|by apply Hall].
        destruct (Hall1 n Hn) as [x Hx]. exists x. by eapply lookup_weaken.
      * by rewrite <- Hds1.
    + intros [= <- <-]. by apply scheduleCallback_endsWith in Hv.
Qed.

(** X1. When the traversal runs to its end, the map holds a budget for
    exactly the Node operations that are directly in a Schedule of the
    function: for each of them, and for no other operation. *)
Theorem budgets_for_exactly_the_nodes (func : Operation) (m : gmap OpId Z)
    (ds : list Diagnostic) :
  getNodeParallelFactorMap opts compAnal func = Normal (Advance, (m, ds)) ->
  forall k, is_Some (m !! k) <-> k ∈ visitedNodes (schedules None func).
Proof.
  rewrite getNodeParallelFactorMap_visits. intros Hrun k. split.
  - by apply (walkVisits_recorded _ _ _ _ _ _ Hrun).
  - by apply (walkVisits_endsWith _ _ _ _ Hrun).
Qed.

(** X2. The traversal emits a diagnostic exactly when it is interrupted, and
    then a single one, with one of the three messages of the callback. *)
Theorem one_diagnostic_when_interrupted (func : Operation) (r : WalkResult)
    (m : gmap OpId Z) (ds : list Diagnostic) :
  getNodeParallelFactorMap opts compAnal func = Normal (r, (m, ds)) ->
  match r with
  | Advance => ds = []
  | Interrupt => exists op msg, ds = [OpError op msg] /\ msg ∈ traversalMessages
  end.
Proof.
  rewrite getNodeParallelFactorMap_visits. intros Hrun.
  apply walkVisits_endsWith in Hrun. destruct r; cbn in Hrun; [by destruct Hrun|done].
Qed.

(** *** The parent Node of a nested Schedule *)

Lemma parentsListed_mono (seen seen' : list OpId) (vs : list ScheduleVisit) :
  seen ⊆ seen' -> parentsListed seen vs -> parentsListed seen' vs.
Proof.
  revert seen seen'. induction vs as [|v vs IH]; intros seen seen' Hsub; cbn; [done|].
  intros [Hp Hrest]. split; [by auto|]. eapply IH; [|done].
  intros x Hx. apply elem_of_app in Hx as [Hx|Hx]; apply elem_of_app; auto.
Qed.

Lemma parentsListed_app (seen : list OpId) (vs ws : list ScheduleVisit) :
  parentsListed seen (vs ++ ws) <->
  parentsListed seen vs /\ parentsListed (seen ++ visitedNodes vs) ws.
Proof.
  revert seen. induction vs as [|v vs IH]; intros seen; cbn.
  - unfold visitedNodes. cbn. rewrite app_nil_r. tauto.
  - rewrite IH. change (visitedNodes (v :: vs)) with (sv_nodes v ++ visitedNodes vs).
    rewrite app_assoc. tauto.
Qed.

(** In a function whose Nodes are directly in Schedules, the pre-order lists
    the Schedule of a Node before the Schedules nested in the Node. *)
Lemma schedules_parentsListed (parent : option OpId) (op : Operation) (seen : list OpId) :
  nodesInSchedules op = true ->
  (forall p, parent = Some p -> p ∈ seen) ->
  (forall id body, op = Op id NodeOp body -> id ∈ seen) ->
  parentsListed seen (schedules parent op).
Proof.
  revert parent seen. induction op as [id kind body IH] using Operation_ind'.
  intros parent seen Hwf Hparent Hself. cbn [schedules nodesInSchedules] in *.
  set (inner := match kind with NodeOp => Some id | _ => parent end).
  set (go := fix go (ops : list Operation) : list ScheduleVisit :=
       match ops with
       | [] => []
       | o :: rest => schedules inner o ++ go rest
       end).
  set (wf := fix go (ops : list Operation) : bool :=
       match ops with
       | [] => true
       | o :: rest =>
           (negb (isNodeOp o) || match kind with ScheduleOp _ _ => true | _ => false end) &&
           nodesInSchedules o && go rest
       end) in Hwf.
  set (own := match kind with ScheduleOp _ _ => getNodeOps body | _ => [] end).
  assert (Hinner : forall p, inner = Some p -> p ∈ seen).
  { intros p. subst inner. destruct kind; [by auto| |by auto].
    intros [= <-]. by eapply Hself. }
  assert (Hown : forall oid obody, Op oid NodeOp obody ∈ body -> oid ∈ seen ++ own).
  { intros oid obody Hin.
    assert (Hk : match kind with ScheduleOp _ _ => True | _ => False end).
    { clear -Hwf Hin. induction body as [|o rest IHb]; [by apply elem_of_nil in Hin|].
      cbn [wf] in Hwf. apply andb_true_iff in Hwf as [[Hk Ho]%andb_true_iff Hrest].
      apply elem_of_cons in Hin as [<-|Hin]; [|by apply IHb].
      cbn in Hk. by destruct kind. }
    subst own. destruct kind; try done.
    apply elem_of_app. right. unfold getNodeOps. apply list_elem_of_omap.
    by exists (Op oid NodeOp obody). }
  assert (Hbody : forall seen1, seen ++ own ⊆ seen1 -> parentsListed seen1 (go body)).
  { clearbody own. clear Hself Hparent. revert Hown Hwf.
    induction IH as [|o rest Ho _ IHrest]; intros Hown Hwf seen1 Hsub; [done|].
    cbn [go wf] in *. apply andb_true_iff in Hwf as [[Hk Hwfo]%andb_true_iff Hrest].
    apply parentsListed_app. split.
    - apply Ho; [done| |].
      + intros p Hp. by apply Hsub, elem_of_app; left; apply Hinner.
      + intros oid obody ->. apply Hsub. eapply Hown. left.
    - apply IHrest; [|done|].
      + intros oid obody Hin. eapply Hown. by right.
      + intros x Hx. apply elem_of_app. left. by apply Hsub. }
  destruct kind as [inc dec| |]; cbn [app].
  - cbn [parentsListed sv_parent sv_nodes]. split; [done|]. by apply Hbody.
  - apply Hbody. subst own. by rewrite app_nil_r.
  - apply Hbody. subst own. by rewrite app_nil_r.
Qed.

(** X3. In a function whose Node operations are all directly in a Schedule,
    the traversal reaches a Schedule nested in a Node only after it has
    recorded the budget of that Node: the lookup of the parent's budget
    cannot fail. *)
Theorem parent_budget_is_recorded_first (func : Operation) (pre post : list ScheduleVisit)
    (v : ScheduleVisit) (m1 : gmap OpId Z) (d1 : list Diagnostic) (parentNode : OpId) :
  isNodeOp func = false ->
  nodesInSchedules func = true ->
  schedules None func = pre ++ v :: post ->
  walkVisits pre (∅, []) = Normal (Advance, (m1, d1)) ->
  sv_parent v = Some parentNode ->
  is_Some (m1 !! parentNode).
Proof.
  intros Hroot Hwf Hsplit Hpre Hparent.
  assert (Hlisted : parentsListed [] (schedules None func)).
  { apply schedules_parentsListed; [done..|]. by intros id body ->. }
  rewrite Hsplit in Hlisted. apply parentsListed_app in Hlisted as [_ [Hv _]].
  specialize (Hv parentNode Hparent). cbn in Hv.
  apply walkVisits_endsWith in Hpre as [_ Hall]. by apply Hall.
Qed.

(** X4. The [decrease] annotation is a divisor that nothing guards: when the
    traversal reaches a Schedule nested in a Node with a recorded budget and
    annotated with [decrease = 0], the division is by zero and the traversal
    stops there. *)
Theorem zero_decrease_divides_by_zero (func : Operation) (pre post : list ScheduleVisit)
    (v : ScheduleVisit) (m1 : gmap OpId Z) (d1 : list Diagnostic) (parentNode : OpId)
    (parentFactor : Z) :
  schedules None func = pre ++ v :: post ->
  walkVisits pre (∅, []) = Normal (Advance, (m1, d1)) ->
  sv_parent v = Some parentNode ->
  m1 !! parentNode = Some parentFactor ->
  sv_decrease v = Some (IntegerAttr 0) ->
  scheduleCallback opts compAnal v (m1, d1) = Abort DivisionByZero /\
  getNodeParallelFactorMap opts compAnal func = Abort DivisionByZero.
Proof.
  intros Hsplit Hpre Hparent Hfactor Hdec.
  assert (Hcb : scheduleCallback opts compAnal v (m1, d1) = Abort DivisionByZero).
  { unfold scheduleCallback, getScheduleUnrollFactor. cbn [fst].
    rewrite Hparent, Hfactor. unfold applyDecrease. by rewrite Hdec. }
  split; [done|].
  rewrite getNodeParallelFactorMap_visits, Hsplit, walkVisits_app, Hpre. cbn.
  by rewrite Hcb.
Qed.

(** *** An upper bound on the budgets *)

Lemma DenseMap_insert_Forall (P : Z -> Prop) (node : OpId) (f : Z) (m : gmap OpId Z) :
  P f -> map_Forall (fun _ b => P b) m -> map_Forall (fun _ b => P b) (DenseMap_insert node f m).
Proof.
  intros Hf Hm. unfold DenseMap_insert. destruct (m !! node); [done|].
  by apply map_Forall_insert_2.
Qed.

Lemma nodeUnrollFactor_le (f nc sc b bound : Z) :
  0 <= f <= bound -> 1 <= bound -> 0 <= nc <= sc ->
  nodeUnrollFactor f nc sc = Normal b -> 1 <= b <= bound.
Proof.
  intros Hf Hbound Hnc. unfold nodeUnrollFactor.
  destruct (Z.eqb_spec sc 0) as [|Hsc]; [done|]. intros [= <-].
  assert (to_u64 (f * nc) / sc <= f); [|lia].
  unfold to_u64. transitivity (f * sc / sc); [|rewrite Z.div_mul; lia].
  apply Z.div_le_mono; [lia|]. transitivity (f * nc); [|nia].
  apply Z.mod_le; nia.
Qed.

Lemma recordNodes_le (f sc bound : Z) (nodes : list OpId) (st st' : WalkState)
    (r : WalkResult) :
  0 <= f <= bound -> 1 <= bound ->
  (forall n nc, n ∈ nodes -> getNodeComplexity compAnal n = Some nc -> 0 <= nc <= sc) ->
  map_Forall (fun _ b => 1 <= b <= bound) st.1 ->
  recordNodes compAnal f sc nodes st = Normal (r, st') ->
  map_Forall (fun _ b => 1 <= b <= bound) st'.1.
Proof.
  intros Hf Hbound. revert st. induction nodes as [|n nodes IH]; intros st Hnc Hst;
    cbn [recordNodes].
  - by intros [= <- <-].
  - destruct (getNodeComplexity compAnal n) as [nc|] eqn:Hn; [|by intros [= <- <-]].
    destruct (nodeUnrollFactor f nc sc) as [b|] eqn:Hb; [|done]. cbn [bind].
    apply IH.
    + intros k kc Hk. apply Hnc. by right.
    + cbn. apply (DenseMap_insert_Forall (fun b => 1 <= b <= bound)); [|done].
      eapply nodeUnrollFactor_le; [done..| |done]. apply (Hnc n nc); [left|done].
Qed.

(** The Schedules that the bound is about: no [increase] annotation, and no
    Node more complex than its Schedule. *)
Definition sharesBudget (v : ScheduleVisit) : Prop :=
  integerAnnotation (sv_increase v) = None /\
  forall sc n nc, getScheduleComplexity compAnal (sv_schedule v) = Some sc ->
    n ∈ sv_nodes v -> getNodeComplexity compAnal n = Some nc -> 0 <= nc <= sc.

Lemma scheduleCallback_le (bound : Z) (v : ScheduleVisit) (st st' : WalkState)
    (r : WalkResult) :
  0 <= maxUnrollFactor opts <= bound -> 1 <= bound ->
  sharesBudget v ->
  map_Forall (fun _ b => 1 <= b <= bound) st.1 ->
  scheduleCallback opts compAnal v st = Normal (r, st') ->
  map_Forall (fun _ b => 1 <= b <= bound) st'.1.
Proof.
  intros Hmax Hbound [Hinc Hnc] Hst. unfold scheduleCallback.
  destruct (getScheduleUnrollFactor opts v st.1) as [[p|f]|] eqn:Hf; cbn [bind];
    [by intros [= <- <-]| |done].
  assert (Hfb : 0 <= f <= bound).
  { revert Hf. unfold getScheduleUnrollFactor.
    destruct (sv_parent v) as [p|]; [|intros [= <-]; lia].
    destruct (st.1 !! p) as [b|] eqn:Hb; [|done].
    specialize (Hst p b Hb). cbn in Hst.
    unfold applyIncrease. rewrite Hinc. unfold applyDecrease.
    destruct (integerAnnotation (sv_decrease v)) as [d|]; cbn; [|intros [= <-]; lia].
    destruct (Z.eqb_spec (to_u64 d) 0) as [|Hd]; [done|]. cbn. intros [= <-].
    assert (0 < to_u64 d).
    { unfold to_u64 in *. pose proof (Z.mod_pos_bound d (2 ^ 64)). lia. }
    split; [apply Z.div_pos; lia|].
    transitivity b; [|lia]. apply Z.div_le_upper_bound; nia. }
  unfold visitNodes.
  destruct (getScheduleComplexity compAnal (sv_schedule v)) as [sc|] eqn:Hsc;
    [|by intros [= <- <-]].
  apply recordNodes_le; try done. intros n nc. by apply Hnc.
Qed.

Lemma walkVisits_le (bound : Z) (vs : list ScheduleVisit) (st st' : WalkState)
    (r : WalkResult) :
  0 <= maxUnrollFactor opts <= bound -> 1 <= bound ->
  Forall sharesBudget vs ->
  map_Forall (fun _ b => 1 <= b <= bound) st.1 ->
  walkVisits vs st = Normal (r, st') ->
  map_Forall (fun _ b => 1 <= b <= bound) st'.1.
Proof.
  intros Hmax Hbound Hvs. revert st. induction Hvs as [|v vs Hv _ IH]; intros st Hst;
    cbn [Dataflow.walkVisits].
  - by intros [= <- <-].
  - destruct (scheduleCallback opts compAnal v st) as [[[] st1]|] eqn:Hcb; cbn [bind];
      [| |done].
    + apply IH. by eapply scheduleCallback_le.
    + intros [= <- <-]. by eapply scheduleCallback_le.
Qed.

(** X5. When no Schedule of the function carries an [increase] annotation and
    no Node is more complex than its Schedule, no budget that the traversal
    records exceeds [maxUnrollFactor] (or 1, if [maxUnrollFactor] is 0),
    wrap-around or not. *)
Theorem budgets_bounded_by_maxUnrollFactor (func : Operation) (r : WalkResult)
    (m : gmap OpId Z) (ds : list Diagnostic) :
  0 <= maxUnrollFactor opts ->
  Forall sharesBudget (schedules None func) ->
  getNodeParallelFactorMap opts compAnal func = Normal (r, (m, ds)) ->
  map_Forall (fun _ budget => 1 <= budget <= Z.max 1 (maxUnrollFactor opts)) m.
Proof.
  intros Hmax Hshares. rewrite getNodeParallelFactorMap_visits. intros Hrun.
  apply (walkVisits_le (Z.max 1 (maxUnrollFactor opts)) _ (∅, []) _ _) in Hrun;
    [done|lia|lia|done|]. apply map_Forall_empty.
Qed.

End Traversal.

(** *** The traversal on the functions of the examples *)

Lemma budgets_for_exactly_the_nodes_witness :
  getNodeParallelFactorMap nestedOpts nestedComplexity nestedFunc =
    Normal (Advance, ({[3%positive := 4; 5%positive := 6; 6%positive := 2]}, [])) /\
  forall k, is_Some (({[3%positive := 4; 5%positive := 6; 6%positive := 2]} : gmap OpId Z) !! k)
            <-> k ∈ visitedNodes (schedules None nestedFunc).
Proof.
  split; [exact nestedFunc_budgets|].
  exact (budgets_for_exactly_the_nodes nestedOpts nestedComplexity nestedFunc _ _
           nestedFunc_budgets).
Defined.

Lemma one_diagnostic_when_interrupted_witness :
  exists op msg,
    [OpError 4%positive "failed to get schedule complexity"] = [OpError op msg] /\
    msg ∈ traversalMessages.
Proof.
  exact (one_diagnostic_when_interrupted nestedOpts siblingComplexity siblingFunc Interrupt
           {[3%positive := 4]} [OpError 4%positive "failed to get schedule complexity"]
           eq_refl).
Defined.

Lemma parent_budget_is_recorded_first_witness :
  is_Some (({[3%positive := 4]} : gmap OpId Z) !! 3%positive).
Proof.
  exact (parent_budget_is_recorded_first nestedOpts nestedComplexity nestedFunc
           [outerVisit] [] innerVisit {[3%positive := 4]} [] 3%positive
           eq_refl eq_refl eq_refl eq_refl eq_refl).
Defined.

(** The function of the budget example, its inner Schedule annotated with
    [decrease = 0]. *)
Definition zeroDecreaseFunc : Operation :=
  Op 1 OtherOp
    [Op 2 (ScheduleOp None None)
       [Op 3 NodeOp
          [Op 4 (ScheduleOp None (Some (IntegerAttr 0)))
             [Op 5 NodeOp []; Op 6 NodeOp []]]]].

Definition zeroDecreaseVisit : ScheduleVisit :=
  {| sv_schedule := 4; sv_parent := Some 3%positive; sv_increase := None;
     sv_decrease := Some (IntegerAttr 0); sv_nodes := [5%positive; 6%positive] |}.

Lemma zero_decrease_divides_by_zero_witness :
  scheduleCallback nestedOpts nestedComplexity zeroDecreaseVisit ({[3%positive := 4]}, [])
    = Abort DivisionByZero /\
  getNodeParallelFactorMap nestedOpts nestedComplexity zeroDecreaseFunc = Abort DivisionByZero.
Proof.
  exact (zero_decrease_divides_by_zero nestedOpts nestedComplexity zeroDecreaseFunc
           [outerVisit] [] zeroDecreaseVisit {[3%positive := 4]} [] 3%positive 4
           eq_refl eq_refl eq_refl eq_refl eq_refl).
Defined.

Lemma wrapFunc_sharesBudget : Forall (sharesBudget wrapComplexity) (schedules None wrapFunc).
Proof.
  apply Forall_cons. split; [|by apply Forall_nil].
  split; [done|]. intros sc n nc Hsc _ Hnc. cbn in Hsc, Hnc.
  injection Hsc as <-. injection Hnc as <-. lia.
Defined.

Lemma budgets_bounded_by_maxUnrollFactor_witness :
  getNodeParallelFactorMap nestedOpts wrapComplexity wrapFunc =
    Normal (Advance, ({[3%positive := 1]}, [])) /\
  map_Forall (fun _ budget => 1 <= budget <= Z.max 1 (maxUnrollFactor nestedOpts))
    ({[3%positive := 1]} : gmap OpId Z).
Proof.
  split; [by vm_compute|].
  refine (budgets_bounded_by_maxUnrollFactor nestedOpts wrapComplexity wrapFunc Advance
            {[3%positive := 1]} [] _ wrapFunc_sharesBudget _); [by vm_compute..].
Defined.

(** ** The unrolling *)

(** The band that a transformation was applied to. *)
Definition transformBand (t : Transform) : AffineLoopBand :=
  match t with UnrollJam band _ | Vectorize band _ => band end.

(** What has to hold for the pass to apply [t] to the function with the
    history [h]: nothing for unroll-and-jam; for a vectorization, that the
    pass is correlation-aware, that the outermost loop of the band affects an
    external buffer, that every loop of the band is parallel and that some
    factor is not 1. *)
Definition justified (opts : Options) (utils : History -> LoopUtils) (t : Transform)
    (h : History) : Prop :=
  match t with
  | UnrollJam _ _ => True
  | Vectorize band sizes =>
      correlationAware opts = true /\
      exists front inner, band = front :: inner /\
        hasEffectOnExternalBuffer (utils h) front = true /\
        allParallel utils h band = true /\ allOnes sizes = false
  end.

(** Every transformation of a history was justified when it was applied. *)
Definition allJustified (opts : Options) (utils : History -> LoopUtils) (h : History) : Prop :=
  forall t rest, t :: rest `suffix_of` h -> justified opts utils t rest.

(** The comparison that the Nodes are sorted with. *)
Definition moreCorrelations (a b : OpId * nat) : Prop := (b.2 <= a.2)%nat.

Section Unrolling.
Context (opts : Options) (compAnal : ComplexityAnalysis) (utils : History -> LoopUtils)
  (corrAnal : CorrelationAnalysis).

(** *** The naive unrolling without [pointLoopOnly] *)

Lemma unrollBands_whole (unrollFactor : Z) (bands : list AffineLoopBand) (h : History) :
  pointLoopOnly opts = false ->
  exists new, foldOutcome (unrollBand opts utils unrollFactor) bands h = Normal (new ++ h) /\
    Forall isUnrollJam new /\ transformBand <$> reverse new = bands.
Proof.
  intros Hpoint. revert h. induction bands as [|band bands IH]; intros h; cbn [foldOutcome].
  - by exists [].
  - unfold unrollBand at 1. unfold selectBand. rewrite Hpoint. cbn [bind].
    set (t := UnrollJam band _).
    destruct (IH (t :: h)) as (new & Hrun & Hall & Hbands).
    exists (new ++ [t]). rewrite Hrun. split; [by rewrite <- app_assoc|]. split.
    + apply Forall_app. split; [done|]. by repeat constructor.
    + rewrite reverse_app. cbn. by rewrite Hbands.
Qed.

(** X6. Without [pointLoopOnly] the naive unrolling cannot fail, and it
    applies one unroll-and-jam to each band that it has collected for the
    Node, in the order of the bands and to the whole band, and nothing else. *)
Theorem naive_unroll_of_whole_bands (h : History) (node : OpId) (parallelFactor : Z) :
  pointLoopOnly opts = false ->
  exists new,
    applyNaiveLoopUnroll opts utils h node parallelFactor = Normal (new ++ h) /\
    Forall isUnrollJam new /\
    transformBand <$> reverse new = collectBands utils h node.
Proof. intros Hpoint. by apply unrollBands_whole. Qed.

(** *** The order of the Nodes *)

Lemma insertByCount_Permutation (x : OpId * nat) (l : list (OpId * nat)) :
  insertByCount x l ≡ₚ x :: l.
Proof.
  induction l as [|y l IH]; cbn; [done|].
  destruct (y.2 <=? x.2)%nat; [done|]. rewrite IH. apply Permutation_swap.
Qed.

Lemma sortByCount_Permutation (l : list (OpId * nat)) : sortByCount l ≡ₚ l.
Proof.
  induction l as [|x l IH]; cbn; [done|].
  rewrite insertByCount_Permutation. by f_equiv.
Qed.

Lemma insertByCount_sorted (x : OpId * nat) (l : list (OpId * nat)) :
  StronglySorted moreCorrelations l -> StronglySorted moreCorrelations (insertByCount x l).
Proof.
  induction 1 as [|y l Hl IH Hy]; cbn.
  - by repeat constructor.
  - destruct (Nat.leb_spec y.2 x.2) as [Hle|Hlt].
    + constructor; [by constructor|]. constructor; [done|].
      eapply Forall_impl; [exact Hy|]. unfold moreCorrelations. cbn. lia.
    + constructor; [done|]. rewrite insertByCount_Permutation.
      constructor; [|done]. unfold moreCorrelations. lia.
Qed.

(** X7. The Nodes are processed in the order of a sort by the number of their
    correlations: the order holds each entry of the analysis once, and no
    Node comes before a Node with more correlations. *)
Theorem nodes_ranked_by_correlation_count :
  let counted := (fun e => (e.1, length e.2)) <$> corrEntries corrAnal in
  rankedNodes corrAnal = (sortByCount counted).*1 /\
  rankedNodes corrAnal ≡ₚ (corrEntries corrAnal).*1 /\
  sortByCount counted ≡ₚ counted /\
  StronglySorted moreCorrelations (sortByCount counted).
Proof.
  intros counted. split; [done|]. split; [|split].
  - unfold rankedNodes. fold counted. rewrite sortByCount_Permutation.
    subst counted. rewrite <- list_fmap_compose. done.
  - apply sortByCount_Permutation.
  - induction counted as [|x l IH]; cbn; [constructor|]. by apply insertByCount_sorted.
Qed.

(** *** The Nodes with a vector *)

(** [k] is [node] or a Node that a correlation of [node] leads to, [node]
    having correlations. *)
Definition correlatedWith (node k : OpId) : Prop :=
  getCorrelations corrAnal node <> [] /\
  (k = node \/
   exists corr, corr ∈ getCorrelations corrAnal node /\
                k = getCorrelatedNode corrAnal corr node).

Lemma propagateFactors_is_Some (corrList : list Correlation) (node : OpId)
    (factors : FactorList) (m : gmap OpId FactorList) (k : OpId) :
  is_Some (propagateFactors corrAnal corrList node factors m !! k) <->
  is_Some (m !! k) \/
  exists corr, corr ∈ corrList /\ k = getCorrelatedNode corrAnal corr node.
Proof.
  revert m. induction corrList as [|corr rest IH]; intros m; cbn [propagateFactors].
  - split; [by left|]. intros [?|(corr & Hin & _)]; [done|]. by apply elem_of_nil in Hin.
  - destruct (DenseMap_count _ m) eqn:Hcount; rewrite IH.
    + split.
      * intros [?|(c & Hc & ->)]; [by left|]. right. exists c. split; [by right|done].
      * intros [?|(c & Hc & ->)]; [by left|].
        apply elem_of_cons in Hc as [->|Hc]; [|right; by exists c].
        left. unfold DenseMap_count in Hcount. by apply bool_decide_eq_true in Hcount.
    + rewrite lookup_insert_is_Some. split.
      * intros [[<-|[_ ?]]|(c & Hc & ->)]; [|by left|].
        -- right. exists corr. split; [left|done].
        -- right. exists c. split; [by right|done].
      * intros [Hk|(c & Hc & ->)].
        -- left. destruct (decide (getCorrelatedNode corrAnal corr node = k)); [by left|].
           right. done.
        -- apply elem_of_cons in Hc as [->|Hc]; [by left; left|]. right. by exists c.
Qed.

Lemma unifyNode_is_Some (h : History) (budgets : gmap OpId Z) (m : gmap OpId FactorList)
    (node : OpId) :
  exists m', unifyNode opts utils corrAnal h budgets m node = Normal m' /\
    forall k, is_Some (m' !! k) <-> is_Some (m !! k) \/ correlatedWith node k.
Proof.
  unfold unifyNode, correlatedWith.
  destruct (getCorrelations corrAnal node) as [|corr0 rest] eqn:Hcorr.
  - exists m. split; [done|]. intros k. split; [by left|]. by intros [?|[? _]].
  - rewrite initialFactors_normal. cbn [bind]. eexists. split; [done|]. intros k.
    rewrite propagateFactors_is_Some, lookup_insert_is_Some. split.
    + intros [[<-|[_ ?]]|Hc]; [|by left|].
      * right. split; [done|]. by left.
      * right. split; [done|]. by right.
    + intros [Hk|[_ [->|Hc]]].
      * left. destruct (decide (node = k)); [by left|]. by right.
      * left. by left.
      * by right.
Qed.

Lemma unifyNodes_is_Some (h : History) (budgets : gmap OpId Z) (nodes : list OpId)
    (m : gmap OpId FactorList) :
  exists m', foldOutcome (unifyNode opts utils corrAnal h budgets) nodes m = Normal m' /\
    forall k, is_Some (m' !! k) <->
              is_Some (m !! k) \/ exists node, node ∈ nodes /\ correlatedWith node k.
Proof.
  revert m. induction nodes as [|node nodes IH]; intros m; cbn [foldOutcome].
  - exists m. split; [done|]. intros k. split; [by left|].
    intros [?|(node & Hin & _)]; [done|]. by apply elem_of_nil in Hin.
  - destruct (unifyNode_is_Some h budgets m node) as (m1 & -> & H1). cbn [bind].
    destruct (IH m1) as (m' & -> & H'). exists m'. split; [done|]. intros k.
    rewrite H', H1. split.
    + intros [[?|Hc]|(n & Hn & Hc)]; [by left| |].
      * right. exists node. split; [left|done].
      * right. exists n. split; [by right|done].
    + intros [?|(n & Hn & Hc)]; [by left; left|].
      apply elem_of_cons in Hn as [->|Hn]; [by left; right|]. right. by exists n.
Qed.

(** X8. The unifier cannot fail, and the Nodes for which it records a vector
    are the Nodes of the analysis that have correlations and the Nodes that
    their correlations lead to, and no others. *)
Theorem unifier_records_the_correlated_nodes (h : History) (budgets : gmap OpId Z) :
  exists m,
    unifyFactors opts utils corrAnal h budgets = Normal m /\
    forall k, is_Some (m !! k) <->
              exists node, node ∈ rankedNodes corrAnal /\ correlatedWith node k.
Proof.
  destruct (unifyNodes_is_Some h budgets (rankedNodes corrAnal) ∅) as (m & Hrun & Hm).
  exists m. split; [done|]. intros k. rewrite Hm, lookup_empty. split.
  - by intros [[? ?]|?].
  - by right.
Qed.

(** *** The vector of a Node with correlations *)

Lemma unifyNode_other (h : History) (budgets : gmap OpId Z) (m m' : gmap OpId FactorList)
    (node k : OpId) (v : FactorList) :
  unifyNode opts utils corrAnal h budgets m node = Normal m' ->
  k <> node -> m !! k = Some v -> m' !! k = Some v.
Proof.
  unfold unifyNode. destruct (getCorrelations corrAnal node) as [|corr0 rest].
  - by intros [= <-].
  - rewrite initialFactors_normal. cbn [bind].
    set (factors := distributeFactors _ _ _ _ _).
    set (recorded := propagateFactors _ _ _ _ _). intros [= <-] Hne Hk.
    apply propagateFactors_keeps. by rewrite lookup_insert_ne.
Qed.

Lemma unifyNodes_other (h : History) (budgets : gmap OpId Z) (nodes : list OpId)
    (m m' : gmap OpId FactorList) (k : OpId) (v : FactorList) :
  foldOutcome (unifyNode opts utils corrAnal h budgets) nodes m = Normal m' ->
  k ∉ nodes -> m !! k = Some v -> m' !! k = Some v.
Proof.
  revert m. induction nodes as [|node nodes IH]; intros m; cbn [foldOutcome].
  - by intros [= <-].
  - destruct (unifyNode opts utils corrAnal h budgets m node) as [m1|] eqn:H1; [|done].
    cbn [bind]. intros Hrun Hk Hm. apply not_elem_of_cons in Hk as [Hne Hk].
    apply (IH m1); [done..|]. by eapply unifyNode_other.
Qed.

(** X9. When the analysis lists each Node once, the vector that the unifier
    holds at the end for a Node with correlations is the one computed when
    the Node itself was processed - the Node's own factor distributed over its
    band, from the vector that the Nodes processed before had left for it, or
    from all ones - and not a vector received from a correlated Node. *)
Theorem ranked_node_records_own_vector (h : History) (budgets : gmap OpId Z) (i : nat)
    (node : OpId) :
  NoDup (rankedNodes corrAnal) ->
  rankedNodes corrAnal !! i = Some node ->
  getCorrelations corrAnal node <> [] ->
  let band := getNodeLoopBand (utils h) node in
  exists before final,
    foldOutcome (unifyNode opts utils corrAnal h budgets) (take i (rankedNodes corrAnal)) ∅
      = Normal before /\
    unifyFactors opts utils corrAnal h budgets = Normal final /\
    final !! node =
      Some (distributeFactors utils h (getParallelFactor opts budgets node)
              (default (replicate (length band) 1) (before !! node)) band).
Proof.
  intros Hnd Hi Hcorr band.
  destruct (unifyNodes_is_Some h budgets (rankedNodes corrAnal) ∅) as (final & Hfinal & _).
  destruct (foldOutcome_steps _ _ _ _ _ _ Hfinal Hi) as (before & m1 & Hpre & Hstep & Hpost).
  exists before, final. split; [done|]. split; [done|].
  eapply unifyNodes_other; [exact Hpost| |].
  - intros Hin. apply list_elem_of_lookup in Hin as [j Hj]. rewrite lookup_drop in Hj.
    pose proof (NoDup_lookup _ _ _ _ Hnd Hi Hj). lia.
  - revert Hstep. unfold unifyNode.
    destruct (getCorrelations corrAnal node) as [|corr0 rest]; [done|].
    rewrite initialFactors_normal. cbn [bind].
    set (recorded := propagateFactors _ _ _ _ _). intros [= <-].
    apply propagateFactors_keeps. rewrite lookup_insert_eq. subst band.
    by destruct (before !! node).
Qed.

End Unrolling.
(** ** The pass as a whole *)

Section WholePass.
Context (opts : Options) (compAnal : ComplexityAnalysis) (utils : History -> LoopUtils)
  (corrAnal : CorrelationAnalysis).

Lemma allJustified_nil : allJustified opts utils [].
Proof. intros t rest Hsuffix. by apply suffix_cons_nil_inv in Hsuffix. Qed.

Lemma allJustified_cons (t : Transform) (h : History) :
  justified opts utils t h -> allJustified opts utils h -> allJustified opts utils (t :: h).
Proof.
  intros Ht Hh t' rest Hsuffix.
  apply suffix_cons_inv in Hsuffix as [[= -> ->]|Hsuffix]; [done|by apply Hh].
Qed.

(** A loop whose iterations keep the history justified. *)
Lemma foldOutcome_allJustified {A : Type} (step : History -> A -> Outcome History)
    (l : list A) (h h' : History) :
  (forall h x h', step h x = Normal h' ->
     allJustified opts utils h -> allJustified opts utils h') ->
  foldOutcome step l h = Normal h' ->
  allJustified opts utils h -> allJustified opts utils h'.
Proof.
  intros Hstep. revert h. induction l as [|x l IH]; intros h; cbn [foldOutcome].
  - by intros [= <-].
  - destruct (step h x) as [h1|] eqn:H1; [|done]. cbn [bind]. intros Hrun Hh.
    apply (IH h1); [done|]. by eapply Hstep.
Qed.

Lemma applyNaiveLoopUnroll_allJustified (h h' : History) (node : OpId) (parallelFactor : Z) :
  applyNaiveLoopUnroll opts utils h node parallelFactor = Normal h' ->
  allJustified opts utils h -> allJustified opts utils h'.
Proof.
  unfold applyNaiveLoopUnroll. apply foldOutcome_allJustified.
  intros h1 band h2 Hstep Hh1. apply unrollBand_cases in Hstep as [->|[b ->]]; [done|].
  by apply allJustified_cons.
Qed.

Lemma realizeUnified_allJustified (h h' : History) (p : OpId * FactorList) :
  correlationAware opts = true ->
  realizeUnified utils h p = Normal h' ->
  allJustified opts utils h -> allJustified opts utils h'.
Proof.
  intros Haware. destruct p as [node factors].
  destruct (getNodeLoopBand (utils h) node) as [|front inner] eqn:Hband.
  { unfold realizeUnified. cbn [fst]. by rewrite Hband. }
  rewrite (realizeUnified_cases utils h node factors front inner Hband).
  destruct (hasEffectOnExternalBuffer (utils h) front) eqn:Heffect;
    [|intros [= <-] Hh; by apply allJustified_cons].
  destruct (allOnes factors) eqn:Hones; [by intros [= <-]|].
  destruct (allParallel utils h (front :: inner)) eqn:Hparallel; [|by intros [= <-]].
  intros [= <-] Hh.
  apply allJustified_cons; [|done]. split; [done|]. by exists front, inner.
Qed.

Lemma applyUnroll_allJustified (budgets : gmap OpId Z) (h : History) :
  applyUnroll opts utils corrAnal budgets = Normal h -> allJustified opts utils h.
Proof.
  unfold applyUnroll. destruct (correlationAware opts) eqn:Haware.
  - unfold applyCorrelationAwareUnroll.
    destruct (unifyFactors opts utils corrAnal [] budgets) as [vectors|]; [|done].
    cbn [bind].
    destruct (foldOutcome (realizeUnified utils) (map_to_list vectors) [])
      as [h1|] eqn:Hfirst; [|done]. cbn [bind]. intros Hsecond.
    eapply foldOutcome_allJustified; [|exact Hsecond|].
    + intros h2 p h3. unfold realizeUnassigned.
      destruct (DenseMap_count p.1 vectors); [by intros [= <-]|].
      apply applyNaiveLoopUnroll_allJustified.
    + eapply foldOutcome_allJustified; [|exact Hfirst|apply allJustified_nil].
      intros h2 p h3. by apply realizeUnified_allJustified.
  - intros Hrun. eapply foldOutcome_allJustified; [|exact Hrun|apply allJustified_nil].
    intros h2 p h3. apply applyNaiveLoopUnroll_allJustified.
Qed.

(** X10. Whatever the function and the analyses, the pass vectorizes a band
    only if it is correlation-aware and, on the function as it was at that
    moment, the outermost loop of the band affects an external buffer, every
    loop of the band is parallel and some factor is not 1; every other
    transformation that it applies is an unroll-and-jam. *)
Theorem vectorization_is_justified (func : Operation) (ds : list Diagnostic) (h : History)
    (band : AffineLoopBand) (sizes : list Z) (rest : History) :
  runOnOperation opts compAnal utils corrAnal func = Normal (ds, h) ->
  Vectorize band sizes :: rest `suffix_of` h ->
  correlationAware opts = true /\
  exists front inner, band = front :: inner /\
    hasEffectOnExternalBuffer (utils rest) front = true /\
    allParallel utils rest band = true /\ allOnes sizes = false.
Proof.
  unfold runOnOperation.
  destruct (getNodeParallelFactorMap opts compAnal func) as [[r [m ds0]]|]; [|done].
  cbn [bind fst snd].
  destruct (applyUnroll opts utils corrAnal m) as [h0|] eqn:Hunroll; [|done].
  cbn [bind]. intros [= <- <-] Hsuffix.
  by apply (applyUnroll_allJustified m h0 Hunroll (Vectorize band sizes) rest).
Qed.

(** X11. On a function without Schedule the traversal records no budget and
    emits no diagnostic, and the pass, unless it is correlation-aware, applies
    nothing; a correlation-aware pass runs its unrolling with no budget at
    all. *)
Theorem function_without_schedule (func : Operation) :
  schedules None func = [] ->
  getNodeParallelFactorMap opts compAnal func = Normal (Advance, (∅, [])) /\
  runOnOperation opts compAnal utils corrAnal func =
    if correlationAware opts
    then let* h := applyCorrelationAwareUnroll opts utils corrAnal [] ∅ in Normal ([], h)
    else Normal ([], []).
Proof.
  intros Hnone.
  assert (Hwalk : getNodeParallelFactorMap opts compAnal func = Normal (Advance, (∅, []))).
  { by rewrite getNodeParallelFactorMap_visits, Hnone. }
  split; [done|]. unfold runOnOperation. rewrite Hwalk. cbn [bind fst snd].
  unfold applyUnroll. destruct (correlationAware opts); [done|].
  by rewrite map_to_list_empty.
Qed.

End WholePass.

(** *** The unrolling on the Nodes of the examples *)

Lemma naive_unroll_of_whole_bands_witness :
  exists new,
    applyNaiveLoopUnroll nestedOpts (plainUtils [9%positive]) [] 3%positive 4
      = Normal (new ++ []) /\
    Forall isUnrollJam new /\
    transformBand <$> reverse new = collectBands (plainUtils [9%positive]) [] 3%positive.
Proof.
  exact (naive_unroll_of_whole_bands nestedOpts (plainUtils [9%positive]) [] 3%positive 4
           eq_refl).
Defined.

Lemma ranked_node_records_own_vector_witness :
  exists before final,
    foldOutcome (unifyNode nestedOpts (linkedUtils [7%positive] [8%positive])
                   linkedCorrelations [] linkedBudgets)
      (take 1 (rankedNodes linkedCorrelations)) ∅ = Normal before /\
    unifyFactors nestedOpts (linkedUtils [7%positive] [8%positive]) linkedCorrelations []
      linkedBudgets = Normal final /\
    final !! 5%positive =
      Some (distributeFactors (linkedUtils [7%positive] [8%positive]) []
              (getParallelFactor nestedOpts linkedBudgets 5%positive)
              (default (replicate (length [8%positive]) 1) (before !! 5%positive))
              [8%positive]).
Proof.
  refine (ranked_node_records_own_vector nestedOpts (linkedUtils [7%positive] [8%positive])
            linkedCorrelations [] linkedBudgets 1 5%positive _ eq_refl _).
  - apply (bool_decide_unpack _). by vm_compute.
  - done.
Defined.

(** One Schedule with the three Nodes of the dispatch example, of
    complexities 2, 8 and 4 out of 14, and a correlation-aware pass with
    [maxUnrollFactor = 14]: the budgets are 2, 8 and 4. *)
Definition dispatchFunc : Operation :=
  Op 1 OtherOp [Op 2 (ScheduleOp None None) [Op 3 NodeOp []; Op 5 NodeOp []; Op 6 NodeOp []]].

Definition dispatchOpts : Options :=
  {| maxUnrollFactor := 14; pointLoopOnly := false; complexityAware := true;
     correlationAware := true |}.

Definition dispatchComplexity : ComplexityAnalysis :=
  {| getScheduleComplexity := fun _ => Some 14;
     getNodeComplexity := fun n => if decide (n = 3%positive) then Some 2
                                   else if decide (n = 5%positive) then Some 8 else Some 4 |}.

Lemma dispatchFunc_pass :
  runOnOperation dispatchOpts dispatchComplexity dispatchUtils pairCorrelations dispatchFunc
  = Normal ([], dispatchResult).
Proof. by vm_compute. Qed.

Lemma vectorization_is_justified_witness :
  correlationAware dispatchOpts = true /\
  exists front inner, [7%positive] = front :: inner /\
    hasEffectOnExternalBuffer (dispatchUtils [UnrollJam [8%positive] [8]]) front = true /\
    allParallel dispatchUtils [UnrollJam [8%positive] [8]] [7%positive] = true /\
    allOnes [2] = false.
Proof.
  refine (vectorization_is_justified dispatchOpts dispatchComplexity dispatchUtils
            pairCorrelations dispatchFunc [] dispatchResult [7%positive] [2]
            [UnrollJam [8%positive] [8]] dispatchFunc_pass _).
  by exists [UnrollJam [10%positive] [4]].
Defined.

(** A function that holds a loop and no Schedule. *)
Definition plainFunc : Operation := Op 1 OtherOp [Op 2 OtherOp []].

Lemma function_without_schedule_witness :
  getNodeParallelFactorMap nestedOpts nestedComplexity plainFunc = Normal (Advance, (∅, [])) /\
  runOnOperation nestedOpts nestedComplexity (plainUtils []) noCorrelations plainFunc =
    if correlationAware nestedOpts
    then let* h := applyCorrelationAwareUnroll nestedOpts (plainUtils []) noCorrelations [] ∅ in
         Normal ([], h)
    else Normal ([], []).
Proof.
  exact (function_without_schedule nestedOpts nestedComplexity (plainUtils []) noCorrelations
           plainFunc eq_refl).
Defined.

(** ** What stops the pass *)

(** The divisors that the callback meets on a Schedule are not zero: the
    [decrease] annotation, if it is an integer, and the complexity of the
    Schedule, if it is available. *)
Definition nonZeroDivisors (compAnal : ComplexityAnalysis) (v : ScheduleVisit) : Prop :=
  (forall d, integerAnnotation (sv_decrease v) = Some d -> to_u64 d <> 0) /\
  getScheduleComplexity compAnal (sv_schedule v) <> Some 0.

Section Returns.
Context (opts : Options) (compAnal : ComplexityAnalysis) (utils : History -> LoopUtils)
  (corrAnal : CorrelationAnalysis).

Lemma recordNodes_returns (f sc : Z) (nodes : list OpId) (st : WalkState) :
  sc <> 0 -> exists r st', recordNodes compAnal f sc nodes st = Normal (r, st').
Proof.
  intros Hsc. revert st. induction nodes as [|n nodes IH]; intros st; cbn [recordNodes].
  - by eexists _, _.
  - destruct (getNodeComplexity compAnal n) as [nc|]; [|by eexists _, _].
    unfold nodeUnrollFactor. destruct (Z.eqb_spec sc 0); [done|]. cbn [bind]. apply IH.
Qed.

Lemma scheduleCallback_returns (v : ScheduleVisit) (st : WalkState) :
  nonZeroDivisors compAnal v ->
  exists r st', scheduleCallback opts compAnal v st = Normal (r, st').
Proof.
  intros [Hdec Hsc]. unfold scheduleCallback.
  assert (Hvisit : forall f, exists r st', visitNodes compAnal f v st = Normal (r, st')).
  { intros f. unfold visitNodes.
    destruct (getScheduleComplexity compAnal (sv_schedule v)) as [sc|]; [|by eexists _, _].
    apply recordNodes_returns. congruence. }
  unfold getScheduleUnrollFactor. destruct (sv_parent v) as [p|]; [|apply Hvisit].
  destruct (st.1 !! p) as [b|]; [|by eexists _, _].
  unfold applyDecrease. destruct (integerAnnotation (sv_decrease v)) as [d|]; [|apply Hvisit].
  destruct (Z.eqb_spec (to_u64 d) 0) as [Hd|_]; [by destruct (Hdec d)|]. apply Hvisit.
Qed.

Lemma walkVisits_returns (vs : list ScheduleVisit) (st : WalkState) :
  Forall (nonZeroDivisors compAnal) vs ->
  exists r m ds, walkVisits opts compAnal vs st = Normal (r, (m, ds)).
Proof.
  intros Hvs. revert st. induction Hvs as [|v vs Hv _ IH]; intros st; cbn [walkVisits].
  - destruct st as [m ds]. by eexists _, _, _.
  - destruct (scheduleCallback_returns v st Hv) as (r & st1 & ->). cbn [bind].
    destruct r; [apply IH|]. destruct st1 as [m ds]. by eexists _, _, _.
Qed.

(** X12. The budget traversal stops the process only by a division by zero:
    when no Schedule of the function has the complexity 0 or a [decrease]
    annotation of 0, the traversal returns, interrupted or not. *)
Theorem traversal_returns (func : Operation) :
  Forall (nonZeroDivisors compAnal) (schedules None func) ->
  exists r m ds, getNodeParallelFactorMap opts compAnal func = Normal (r, (m, ds)).
Proof. rewrite getNodeParallelFactorMap_visits. apply walkVisits_returns. Qed.

Lemma foldOutcome_returns {A T : Type} (step : T -> A -> Outcome T) (l : list A) (s : T) :
  (forall s x, x ∈ l -> exists s', step s x = Normal s') ->
  exists s', foldOutcome step l s = Normal s'.
Proof.
  revert s. induction l as [|x l IH]; intros s Hstep; cbn [foldOutcome]; [by eexists|].
  destruct (Hstep s x) as [s1 ->]; [left|]. cbn [bind]. apply IH.
  intros s2 y Hy. apply Hstep. by right.
Qed.

Lemma applyNaiveLoopUnroll_returns (h : History) (node : OpId) (parallelFactor : Z) :
  (forall h loop, getLoopBandFromInnermost (utils h) loop <> []) ->
  exists h', applyNaiveLoopUnroll opts utils h node parallelFactor = Normal h'.
Proof.
  intros Hband. unfold applyNaiveLoopUnroll. apply foldOutcome_returns.
  intros h1 band Hin. unfold collectBands in Hin.
  apply list_elem_of_fmap in Hin as (loop & -> & _). specialize (Hband h loop).
  unfold unrollBand, selectBand.
  destruct (getLoopBandFromInnermost (utils h) loop) as [|front inner]; [done|].
  destruct (pointLoopOnly opts); [|by eexists].
  destruct (hasEffectOnExternalBuffer (utils h1) front); [by eexists|]. cbn [negb].
  destruct (getTileAndPointLoopBand (utils h1) (front :: inner)) as [[tile [|p point]]|];
    by eexists.
Qed.

(** X13. The unrolling stops the process only on a band without loop: when
    every Node has a band with a loop, the unrolling returns on any budgets,
    and so does the pass when the traversal does. *)
Theorem pass_returns (func : Operation) :
  (forall h node, getNodeLoopBand (utils h) node <> []) ->
  (forall h loop, getLoopBandFromInnermost (utils h) loop <> []) ->
  (forall budgets, exists h, applyUnroll opts utils corrAnal budgets = Normal h) /\
  (Forall (nonZeroDivisors compAnal) (schedules None func) ->
   exists ds h, runOnOperation opts compAnal utils corrAnal func = Normal (ds, h)).
Proof.
  intros Hnode Hband.
  assert (Hunroll : forall budgets, exists h, applyUnroll opts utils corrAnal budgets = Normal h).
  { intros budgets. unfold applyUnroll. destruct (correlationAware opts).
    - unfold applyCorrelationAwareUnroll.
      destruct (unifyNodes_is_Some opts utils corrAnal [] budgets (rankedNodes corrAnal) ∅)
        as (vectors & Hvectors & _).
      unfold unifyFactors. rewrite Hvectors. cbn [bind].
      destruct (foldOutcome_returns (realizeUnified utils) (map_to_list vectors) [])
        as [h1 ->].
      { intros h [node factors] _. specialize (Hnode h node).
        destruct (getNodeLoopBand (utils h) node) as [|front inner] eqn:Hb; [done|].
        rewrite (realizeUnified_cases utils h node factors front inner Hb). by eexists. }
      cbn [bind]. apply foldOutcome_returns. intros h p _. unfold realizeUnassigned.
      destruct (DenseMap_count p.1 vectors); [by eexists|].
      by apply applyNaiveLoopUnroll_returns.
    - apply foldOutcome_returns. intros h p _. by apply applyNaiveLoopUnroll_returns. }
  split; [done|]. intros Hdiv. unfold runOnOperation.
  rewrite getNodeParallelFactorMap_visits.
  destruct (walkVisits_returns (schedules None func) (∅, []) Hdiv) as (r & m & ds & ->).
  cbn [bind fst snd].
  destruct (Hunroll m) as [h ->]. by eexists _, _.
Qed.

End Returns.

Lemma traversal_returns_witness :
  exists r m ds, getNodeParallelFactorMap nestedOpts siblingComplexity siblingFunc
                 = Normal (r, (m, ds)).
Proof.
  apply (traversal_returns nestedOpts siblingComplexity siblingFunc). cbn.
  repeat (apply Forall_cons; split;
          [split; [intros d Hd; by cbn in Hd|vm_compute; by intros [=]]|]).
  by apply Forall_nil.
Defined.

(** Each Node holds one loop, with the handle of the Node. *)
Definition oneLoopUtils (_ : History) : LoopUtils :=
  {| getNodeLoopBand := fun n => [n];
     hasEffectOnExternalBuffer := fun l => bool_decide (l = 3%positive);
     hasParallelAttr := fun _ => false;
     isLoopParallel := fun _ => true;
     getTileAndPointLoopBand := fun _ => None;
     getEvenlyDistributedFactors := fun f base _ => growFactors f base;
     getDistributedFactors := fun f band => f :: replicate (length band - 1) 1;
     walkLoops := fun n => [n];
     getParentNode := fun l => Some l;
     hasNestedLoop := fun _ => false;
     hasNestedSchedule := fun _ => false;
     getLoopBandFromInnermost := fun l => [l] |}.

Lemma pass_returns_witness :
  (forall budgets, exists h,
     applyUnroll dispatchOpts oneLoopUtils pairCorrelations budgets = Normal h) /\
  (Forall (nonZeroDivisors dispatchComplexity) (schedules None dispatchFunc) ->
   exists ds h, runOnOperation dispatchOpts dispatchComplexity oneLoopUtils pairCorrelations
                  dispatchFunc = Normal (ds, h)).
Proof.
  by apply (pass_returns dispatchOpts dispatchComplexity oneLoopUtils pairCorrelations
              dispatchFunc).
Defined.

(** ** The budgets of the Nodes of one Schedule *)

(** The sum of the budgets that [m] holds for [nodes], and the sum of the
    complexities of [nodes]. *)
Definition budgetSum (m : gmap OpId Z) (nodes : list OpId) : Z :=
  foldr Z.add 0 ((fun n => default 0 (m !! n)) <$> nodes).

Definition complexitySum (compAnal : ComplexityAnalysis) (nodes : list OpId) : Z :=
  foldr Z.add 0 ((fun n => default 0 (getNodeComplexity compAnal n)) <$> nodes).

Section Sharing.
Context (opts : Options) (compAnal : ComplexityAnalysis).

Lemma budgetSum_weaken (m m' : gmap OpId Z) (nodes : list OpId) :
  m ⊆ m' -> (forall n, n ∈ nodes -> is_Some (m !! n)) -> budgetSum m' nodes = budgetSum m nodes.
Proof.
  intros Hsub. induction nodes as [|n nodes IH]; intros Hall; [done|].
  unfold budgetSum in *. cbn. rewrite IH by (intros k Hk; apply Hall; by right). f_equal.
  destruct (Hall n) as [b Hb]; [left|]. by rewrite Hb, (lookup_weaken _ _ _ _ Hb Hsub).
Qed.

Lemma nodeUnrollFactor_share (f nc sc b : Z) :
  0 <= f -> 0 <= nc -> 0 < sc ->
  nodeUnrollFactor f nc sc = Normal b -> 1 <= b /\ sc * (b - 1) <= f * nc.
Proof.
  intros Hf Hnc Hsc. unfold nodeUnrollFactor.
  destruct (Z.eqb_spec sc 0); [lia|]. intros [= <-]. split; [lia|].
  assert (Hmod : 0 <= to_u64 (f * nc) <= f * nc).
  { unfold to_u64. split; [apply Z.mod_pos_bound; lia|apply Z.mod_le; nia]. }
  pose proof (Z.mul_div_le (to_u64 (f * nc)) sc Hsc).
  assert (0 <= to_u64 (f * nc) / sc) by (apply Z.div_pos; lia). nia.
Qed.

Lemma recordNodes_share (f sc : Z) (nodes : list OpId) (st st' : WalkState) :
  0 <= f -> 0 < sc -> NoDup nodes ->
  (forall n, n ∈ nodes -> st.1 !! n = None) ->
  (forall n nc, n ∈ nodes -> getNodeComplexity compAnal n = Some nc -> 0 <= nc) ->
  recordNodes compAnal f sc nodes st = Normal (Advance, st') ->
  (forall n, n ∈ nodes -> is_Some (st'.1 !! n)) /\
  sc * (budgetSum st'.1 nodes - Z.of_nat (length nodes)) <= f * complexitySum compAnal nodes.
Proof.
  intros Hf Hsc Hnd. revert st. induction Hnd as [|n nodes Hn Hnd IH]; intros st Hfresh Hnc;
    cbn [recordNodes].
  - intros [= <-]. split; [by intros n ?%elem_of_nil|]. unfold budgetSum, complexitySum.
    cbn. lia.
  - destruct (getNodeComplexity compAnal n) as [nc|] eqn:Hcomplexity; [|done].
    destruct (nodeUnrollFactor f nc sc) as [b|] eqn:Hb; [|done]. cbn [bind]. intros Hrun.
    pose proof (recordNodes_extendsBy _ _ _ _ _ _ _ Hrun) as (Hsub & _). cbn in Hsub.
    assert (Hrecorded : DenseMap_insert n b st.1 !! n = Some b).
    { unfold DenseMap_insert. rewrite (Hfresh n) by left. apply lookup_insert_eq. }
    apply IH in Hrun as [Hall Hsum].
    + pose proof (lookup_weaken _ _ _ _ Hrecorded Hsub) as Hb'.
      apply nodeUnrollFactor_share in Hb as [_ Hshare]; [|done|by eapply (Hnc n); [left|]|done].
      split.
      * intros k Hk. apply elem_of_cons in Hk as [->|Hk]; [by rewrite Hb'|by apply Hall].
      * unfold budgetSum, complexitySum in *. cbn [fmap list_fmap foldr length].
        rewrite Hb', Hcomplexity. cbn [default from_option id]. rewrite Nat2Z.inj_succ. lia.
    + intros k Hk. cbn. unfold DenseMap_insert. rewrite (Hfresh n) by left.
      rewrite lookup_insert_ne; [apply Hfresh; by right|]. by intros ->.
    + intros k kc Hk. apply Hnc. by right.
Qed.

Lemma getScheduleUnrollFactor_nonneg (v : ScheduleVisit) (m : gmap OpId Z) (f : Z) :
  0 <= maxUnrollFactor opts ->
  map_Forall (fun _ b => 1 <= b) m ->
  getScheduleUnrollFactor opts v m = Normal (inr f) -> 0 <= f.
Proof.
  intros Hmax Hm. unfold getScheduleUnrollFactor.
  destruct (sv_parent v) as [p|]; [|by intros [= <-]].
  destruct (m !! p) as [b|] eqn:Hb; [|done]. specialize (Hm p b Hb). cbn in Hm.
  assert (Hinc : 0 <= applyIncrease b (sv_increase v)).
  { unfold applyIncrease. destruct (integerAnnotation (sv_increase v)); [|lia].
    unfold to_u64. apply Z.mod_pos_bound. lia. }
  unfold applyDecrease. destruct (integerAnnotation (sv_decrease v)) as [d|]; cbn;
    [|by intros [= <-]].
  destruct (Z.eqb_spec (to_u64 d) 0) as [|Hd]; [done|]. cbn. intros [= <-].
  apply Z.div_pos; [done|]. unfold to_u64 in *. pose proof (Z.mod_pos_bound d (2 ^ 64)). lia.
Qed.

(** X21. The Nodes of a Schedule share the budget of the Schedule: when the
    complexities of the Nodes of a visited Schedule add up to at most the
    complexity of the Schedule, the budgets recorded for these Nodes add up
    to at most the budget of the Schedule plus one for each Node (the floor
    of 1 of each budget), wrap-around or not, and they still do at the end of
    the traversal. *)
Theorem budgets_of_a_schedule_add_up (func : Operation) (pre post : list ScheduleVisit)
    (v : ScheduleVisit) (m1 m2 : gmap OpId Z) (d1 d2 : list Diagnostic) (f sc : Z) :
  NoDup (opIds func) ->
  0 <= maxUnrollFactor opts ->
  schedules None func = pre ++ v :: post ->
  walkVisits opts compAnal pre (∅, []) = Normal (Advance, (m1, d1)) ->
  getScheduleUnrollFactor opts v m1 = Normal (inr f) ->
  getScheduleComplexity compAnal (sv_schedule v) = Some sc ->
  (forall n nc, n ∈ sv_nodes v -> getNodeComplexity compAnal n = Some nc -> 0 <= nc) ->
  complexitySum compAnal (sv_nodes v) <= sc ->
  scheduleCallback opts compAnal v (m1, d1) = Normal (Advance, (m2, d2)) ->
  budgetSum m2 (sv_nodes v) <= f + Z.of_nat (length (sv_nodes v)) /\
  forall r mf df, getNodeParallelFactorMap opts compAnal func = Normal (r, (mf, df)) ->
    budgetSum mf (sv_nodes v) <= f + Z.of_nat (length (sv_nodes v)).
Proof.
  intros Hnd Hmax Hsplit Hpre Hfactor Hsc Hnc Hsum Hcb.
  pose proof (walkVisits_recorded _ _ _ _ _ _ Hpre) as [_ Hpos].
  pose proof (getScheduleUnrollFactor_nonneg v m1 f Hmax Hpos Hfactor) as Hf.
  assert (Hnodes : NoDup (sv_nodes v)).
  { apply visitedNodes_NoDup in Hnd. rewrite Hsplit, visitedNodes_app in Hnd.
    apply NoDup_app in Hnd as (_ & _ & Hnd).
    change (visitedNodes (v :: post)) with (sv_nodes v ++ visitedNodes post) in Hnd.
    by apply NoDup_app in Hnd as (? & _). }
  assert (Hrun : recordNodes compAnal f sc (sv_nodes v) (m1, d1) = Normal (Advance, (m2, d2))).
  { revert Hcb. unfold scheduleCallback. cbn [fst]. rewrite Hfactor. cbn [bind].
    unfold visitNodes. by rewrite Hsc. }
  assert (Hhere : (forall n, n ∈ sv_nodes v -> is_Some (m2 !! n)) /\
                  budgetSum m2 (sv_nodes v) <= f + Z.of_nat (length (sv_nodes v))).
  { destruct (sv_nodes v) as [|n0 nodes] eqn:Hv.
    { split; [by intros n ?%elem_of_nil|]. unfold budgetSum. cbn. lia. }
    assert (Hpositive : 0 < sc).
    { assert (sc <> 0).
      { intros ->. revert Hrun. cbn [recordNodes].
        destruct (getNodeComplexity compAnal n0); [|done]. by unfold nodeUnrollFactor. }
      assert (0 <= complexitySum compAnal (n0 :: nodes)); [|lia].
      clear -Hnc. induction (n0 :: nodes) as [|n l IH]; [done|].
      unfold complexitySum in *. cbn.
      assert (0 <= default 0 (getNodeComplexity compAnal n)).
      { destruct (getNodeComplexity compAnal n) as [nc|] eqn:Hn; [|done].
        apply (Hnc n nc); [left|done]. }
      assert (0 <= foldr Z.add 0 ((fun n => default 0 (getNodeComplexity compAnal n)) <$> l));
        [|lia]. apply IH. intros k kc Hk. apply Hnc. by right. }
    apply recordNodes_share in Hrun as [Hall Hshare]; try done.
    - split; [done|]. cbn [fst] in Hshare. nia.
    - intros n Hn. cbn. eapply visited_node_fresh; [done..|]. by rewrite Hv. }
  destruct Hhere as [Hall Hhere]. split; [done|]. intros r mf df.
  rewrite getNodeParallelFactorMap_visits, Hsplit, walkVisits_app, Hpre. cbn.
  rewrite Hcb. cbn. intros Hpost.
  apply walkVisits_extendsBy in Hpost as (Hsub & _). cbn in Hsub.
  by rewrite (budgetSum_weaken m2 mf _ Hsub Hall).
Qed.

End Sharing.

Lemma budgets_of_a_schedule_add_up_witness :
  budgetSum {[3%positive := 4; 5%positive := 6; 6%positive := 2]} (sv_nodes innerVisit)
    <= 8 + Z.of_nat (length (sv_nodes innerVisit)) /\
  forall r mf df,
    getNodeParallelFactorMap nestedOpts nestedComplexity nestedFunc = Normal (r, (mf, df)) ->
    budgetSum mf (sv_nodes innerVisit) <= 8 + Z.of_nat (length (sv_nodes innerVisit)).
Proof.
  refine (budgets_of_a_schedule_add_up nestedOpts nestedComplexity nestedFunc [outerVisit] []
            innerVisit {[3%positive := 4]} {[3%positive := 4; 5%positive := 6; 6%positive := 2]}
            [] [] 8 40 _ _ eq_refl eq_refl eq_refl eq_refl _ _ _).
  - apply (bool_decide_unpack _). by vm_compute.
  - done.
  - intros n nc Hn Hnc. cbn in Hn.
    apply elem_of_cons in Hn as [->|Hn]; [injection Hnc as <-; lia|].
    apply elem_of_cons in Hn as [->|Hn]; [injection Hnc as <-; lia|]. by apply elem_of_nil in Hn.
  - by vm_compute.
  - by vm_compute.
Defined.

End DataflowCoverage.

(** * Further properties of the copy simplification *)

Module SimplifyCopyCoverage.
Import SimplifyCopy SimplifyCopyProofs.

(** ** Buffers and their users *)

(** [user] is a user of [v] that is not a view, or of the result of a view
    that is a user of [v], and so on through the views. *)
Inductive reaches (ir : IR) : Value -> OpId -> Prop :=
| reaches_user (v : Value) (user : OpId) :
    user ∈ getUsers ir v -> getName ir user <> Some ViewLikeOp -> reaches ir v user
| reaches_view (v : Value) (view user : OpId) :
    view ∈ getUsers ir v -> getName ir view = Some ViewLikeOp ->
    reaches ir (OpResult view) user -> reaches ir v user.

(** The function after a rewrite: the uses of the result of [buf] in [ir]
    redirected to [new], then [buf] and [copy] erased. *)
Definition erased (ir : IR) (buf copy : OpId) (new : Value) : IR :=
  delete copy (delete buf (replaceAllUsesWith (OpResult buf) new ir)).

(** X14. What [findBuffer] returns is a buffer on which it returns the same
    buffer again: a block argument, or the result of a [BufferOp]. *)
Theorem findBuffer_idempotent (fuel fuel' : nat) (ir : IR) (memref buffer : Value) :
  findBuffer fuel ir memref = Normal (Some buffer) ->
  isBuffer ir buffer /\ findBuffer (S fuel') ir buffer = Normal (Some buffer).
Proof.
  intros Hfound. apply findBuffer_isBuffer in Hfound as Hbuffer. split; [done|].
  destruct Hbuffer as [[index ->]|[buf Hbuf]]; [done|].
  apply getDefiningBufferOp_Some in Hbuf as (-> & initValue & Hname). cbn.
  unfold getName in Hname. destruct (ir !! buf) as [op|]; [|done].
  injection Hname as Hname. by rewrite Hname.
Qed.

Lemma collectUsers_elem {A : Type} (f : A -> Outcome (list OpId)) (l : list A)
    (users : list OpId) :
  collectUsers f l = Normal users ->
  forall user, user ∈ users <-> exists x found, x ∈ l /\ f x = Normal found /\ user ∈ found.
Proof.
  revert users. induction l as [|x l IH]; intros users; cbn [collectUsers].
  - intros [= <-] user. split; [by intros ?%elem_of_nil|].
    by intros (x & found & ?%elem_of_nil & _).
  - destruct (f x) as [here|] eqn:Hx; [|done]. cbn [bind].
    destruct (collectUsers f l) as [there|]; [|done]. cbn [bind]. intros [= <-] user.
    rewrite elem_of_app, (IH there eq_refl user). split.
    + intros [Hhere|(y & found & Hy & Hf & Hin)].
      * exists x, here. split; [left|done].
      * exists y, found. split; [by right|done].
    + intros (y & found & Hy & Hf & Hin). apply elem_of_cons in Hy as [->|Hy].
      * left. congruence.
      * right. by exists y, found.
Qed.

Lemma collectUsers_Normal {A : Type} (f : A -> Outcome (list OpId)) (l : list A)
    (users : list OpId) (x : A) :
  collectUsers f l = Normal users -> x ∈ l -> exists found, f x = Normal found.
Proof.
  revert users. induction l as [|y l IH]; intros users; cbn [collectUsers].
  - by intros _ ?%elem_of_nil.
  - destruct (f y) as [here|] eqn:Hy; [|done]. cbn [bind].
    destruct (collectUsers f l) as [there|]; [|done]. cbn [bind]. intros _ Hx.
    apply elem_of_cons in Hx as [->|Hx]; [by exists here|]. by apply (IH there).
Qed.

Lemma reaches_not_view (ir : IR) (v : Value) (user : OpId) :
  reaches ir v user -> is_Some (ir !! user) /\ getName ir user <> Some ViewLikeOp.
Proof.
  induction 1 as [v user Huser Hname|]; [|done]. split; [|done].
  apply elem_of_getUsers in Huser as (op & Hop & _). by exists op.
Qed.

Lemma findBufferUsers_reaches (fuel : nat) (ir : IR) (memref : Value) (users : list OpId) :
  findBufferUsers fuel ir memref = Normal users ->
  (forall user, user ∈ users <-> reaches ir memref user) /\
  (forall user, user ∈ users ->
     is_Some (ir !! user) /\ getName ir user <> Some ViewLikeOp).
Proof.
  intros Hrun.
  assert (Hreach : forall user, user ∈ users <-> reaches ir memref user).
  { revert memref users Hrun. induction fuel as [|fuel IH]; intros memref users; [done|].
    cbn [findBufferUsers]. intros Hrun user.
    rewrite (collectUsers_elem _ _ _ Hrun user). split.
    - intros (x & found & Hx & Hfound & Hin).
      destruct (getName ir x) as [[| | |]|] eqn:Hname;
        try (injection Hfound as <-; apply list_elem_of_singleton in Hin as ->;
             apply reaches_user; [done|by rewrite Hname]).
      eapply reaches_view; [done..|]. by eapply IH.
    - intros Hreaches. inversion Hreaches as [v u Huser Hname|v view u Hview Hname Hrest]; subst.
      + exists user, [user]. split; [done|]. split; [|by left].
        destruct (getName ir user) as [[]|]; congruence.
      + destruct (collectUsers_Normal _ _ _ view Hrun Hview) as [found Hfound].
        exists view, found. split; [done|]. split; [done|].
        rewrite Hname in Hfound. by eapply IH. }
  split; [done|]. intros user Huser. eapply reaches_not_view. by apply Hreach.
Qed.

(** X15. The users that [findBufferUsers] returns for a memref are the
    operations that use the memref, or the result of a view of it, or of a
    view of such a view, and that are not views themselves: it returns each
    of them, no view, and nothing else. *)
Theorem findBufferUsers_finds_the_users (fuel : nat) (ir : IR) (memref : Value)
    (users : list OpId) :
  findBufferUsers fuel ir memref = Normal users ->
  (forall user, user ∈ users <-> reaches ir memref user) /\
  (forall user, user ∈ users ->
     is_Some (ir !! user) /\ getName ir user <> Some ViewLikeOp).
Proof. apply findBufferUsers_reaches. Qed.

(** ** Dominance across regions *)

Section Dominance.
Context (ctx : Context).

(** The loop leaves [a] for the last of the enclosing operations that do not
    enclose [b]. *)
Lemma hoist_app (ir : IR) (a : OpId) (below rest : list OpId) (b : OpId) :
  Forall (fun p => isAncestor ir p b = false) below ->
  hoist ir a (below ++ rest) b = hoist ir (default a (last (a :: below))) rest b.
Proof.
  intros Hbelow. revert a. induction Hbelow as [|p below Hp _ IH]; intros a; [done|].
  cbn [app hoist]. rewrite Hp. cbn [negb]. rewrite IH, last_cons_cons.
  destruct (last_is_Some (p :: below)) as [_ [x ->]]; done.
Qed.

(** X16. For two different operations of which the second does not enclose
    the first, [crossRegionDominates] climbs from the first operation through
    the operations that enclose it and do not enclose the second: when it
    gets under one that encloses the second (or is the second), it answers
    with the dominance between the operation it has reached and the second
    operation; when there is none, the assertion fails. *)
Theorem crossRegionDominates_climbs (ir : IR) (a b : OpId) (below : list OpId) :
  a <> b ->
  isAncestor ir b a = false ->
  Forall (fun p => isAncestor ir p b = false) below ->
  let enclosing := match ir !! a with Some op => ancestors op | None => [] end in
  (enclosing = below ->
   crossRegionDominates ctx ir a b = Abort (AssertionFailure "reach top-level module op")) /\
  (forall parent above,
     enclosing = below ++ parent :: above ->
     isAncestor ir parent b = true ->
     crossRegionDominates ctx ir a b
       = Normal (dominates ctx (default a (last (a :: below))) b)).
Proof.
  intros Hne Hinside Hbelow enclosing. unfold crossRegionDominates.
  rewrite bool_decide_eq_false_2 by done. rewrite Hinside. fold enclosing. split.
  - intros ->. rewrite <- (app_nil_r below), hoist_app by done. done.
  - intros parent above -> Hparent. rewrite hoist_app by done.
    cbn [hoist]. by rewrite Hparent.
Qed.

Lemma crossRegionDominates_returns (ir : IR) (a b top : OpId) (op : Operation) :
  ir !! a = Some op -> top ∈ ancestors op -> isAncestor ir top b = true ->
  exists r, crossRegionDominates ctx ir a b = Normal r.
Proof.
  intros Ha Htop Hb. unfold crossRegionDominates. case_bool_decide; [by eexists|].
  destruct (isAncestor ir b a); [by eexists|]. rewrite Ha.
  assert (Hhoist : forall x chain, top ∈ chain -> (hoist ir x chain b).2 <> []).
  { intros x chain. revert x. induction chain as [|p chain IH]; intros x Hin.
    - by apply elem_of_nil in Hin.
    - cbn [hoist]. destruct (isAncestor ir p b) eqn:Hp; [done|]. cbn [negb].
      apply IH. apply elem_of_cons in Hin as [->|Hin]; [congruence|done]. }
  specialize (Hhoist a (ancestors op) Htop).
  destruct (hoist ir a (ancestors op) b).2; [done|by eexists].
Qed.

End Dominance.

(** ** The function after a rewrite *)

Section Rewritten.
Context (ctx : Context).

(** What a successful match has done. *)
Lemma matchAndRewrite_success (ir ir' : IR) (copy : OpId) (applied : Rewrite) :
  matchAndRewrite ctx ir copy = Normal (success applied, ir') ->
  exists a buf new ir1,
    analyze ctx ir copy = Normal (Some a) /\
    ir' = erased ir1 buf copy new /\
    (forall user op, replaceAllUsesWith (OpResult buf) new ir1 !! user = Some op ->
                     OpResult buf ∉ operands op) /\
    match applied with
    | TargetAndCopyErased =>
        getDefiningBufferOp ir (target a) = Some buf /\
        canReplaceTarget ctx ir a = true /\ new = copySource a /\ ir1 = ir
    | SourceAndCopyErased =>
        getDefiningBufferOp ir (source a) = Some buf /\
        canReplaceSource ctx ir a = true /\ new = copyTarget a /\
        transferInitValue ir buf a = Some ir1 /\
        (is_Some (getDefiningBufferOp ir (target a)) -> canReplaceTarget ctx ir a = false)
    end.
Proof.
  unfold matchAndRewrite.
  destruct (analyze ctx ir copy) as [[a|]|] eqn:Ha; cbn [bind]; [|done..].
  assert (Hsource : replaceSource ctx ir copy a = Normal (success applied, ir') ->
    exists buf ir1,
      ir' = erased ir1 buf copy (copyTarget a) /\
      (forall user op,
         replaceAllUsesWith (OpResult buf) (copyTarget a) ir1 !! user = Some op ->
         OpResult buf ∉ operands op) /\
      applied = SourceAndCopyErased /\
      getDefiningBufferOp ir (source a) = Some buf /\
      canReplaceSource ctx ir a = true /\ transferInitValue ir buf a = Some ir1).
  { unfold replaceSource.
    destruct (getDefiningBufferOp ir (source a)) as [sourceBuf|]; [|done].
    destruct (canReplaceSource ctx ir a); [|done].
    destruct (transferInitValue ir sourceBuf a) as [ir1|] eqn:Htransfer; [|done].
    destruct (replaceOp sourceBuf (copyTarget a) ir1) as [ir2|] eqn:H2; cbn [bind]; [|done].
    destruct (eraseOp copy ir2) as [ir3|] eqn:H3; cbn [bind]; [|done].
    intros [= <- <-]. apply replaceOp_Normal in H2 as [Hunused ->].
    apply eraseOp_Normal in H3 as [_ ->]. by exists sourceBuf, ir1. }
  unfold rewrite.
  destruct (getDefiningBufferOp ir (target a)) as [targetBuf|] eqn:Htb.
  - destruct (canReplaceTarget ctx ir a) eqn:Hcan.
    + destruct (replaceOp targetBuf (copySource a) ir) as [ir1|] eqn:H1; cbn [bind]; [|done].
      destruct (eraseOp copy ir1) as [ir2|] eqn:H2; cbn [bind]; [|done].
      intros [= <- <-]. apply replaceOp_Normal in H1 as [Hunused ->].
      apply eraseOp_Normal in H2 as [_ ->].
      by exists a, targetBuf, (copySource a), ir.
    + intros (buf & ir1 & -> & Hunused & -> & Hsb & Hcs & Htransfer)%Hsource.
      by exists a, buf, (copyTarget a), ir1.
  - intros (buf & ir1 & -> & Hunused & -> & Hsb & Hcs & Htransfer)%Hsource.
    exists a, buf, (copyTarget a), ir1. repeat split; try done.
    rewrite Htb. by intros [? ?].
Qed.

(** [ir1] has the operations of [ir], with the same operands, and the same
    copies. *)
Definition sameUses (ir ir1 : IR) : Prop :=
  forall o,
    match ir !! o, ir1 !! o with
    | Some op, Some op1 =>
        operands op1 = operands op /\ (name op1 = CopyOp <-> name op = CopyOp)
    | None, None => True
    | _, _ => False
    end.

Lemma transferInitValue_sameUses (ir ir1 : IR) (sourceBuf : OpId) (a : Analysis) :
  transferInitValue ir sourceBuf a = Some ir1 -> sameUses ir ir1.
Proof.
  assert (Hrefl : sameUses ir ir) by (intros o; by destruct (ir !! o)).
  unfold transferInitValue. destruct (getInitValue ir sourceBuf) as [initValue|];
    [|by intros [= <-]].
  destruct (getDefiningBufferOp ir (target a)) as [targetBuf|] eqn:Htb; [|done].
  case_match; [done|]. intros [= <-] o. unfold setInitValueAttr.
  apply getDefiningBufferOp_Some in Htb as (_ & init & Hname). unfold getName in Hname.
  destruct (decide (o = targetBuf)) as [->|Hne].
  - rewrite lookup_alter_eq. destruct (ir !! targetBuf) as [op|]; [|done]. cbn in *.
    injection Hname as Hname. rewrite Hname. done.
  - rewrite lookup_alter_ne by done. apply Hrefl.
Qed.

Lemma sameUses_size (ir ir1 : IR) : sameUses ir ir1 -> size ir1 = size ir.
Proof.
  intros Hsame. rewrite <- !size_dom. f_equal. apply set_eq. intros o.
  rewrite !elem_of_dom. specialize (Hsame o).
  destruct (ir !! o), (ir1 !! o); try done; split; intros [? ?]; done.
Qed.

Lemma sameUses_wellFormed (ir ir1 : IR) : sameUses ir ir1 -> wellFormed ir -> wellFormed ir1.
Proof.
  intros Hsame Hwf user op1 owner Huser Hin.
  pose proof (Hsame user) as Hu. rewrite Huser in Hu.
  destruct (ir !! user) as [op|] eqn:Hop; [|done]. destruct Hu as [Hoperands _].
  rewrite Hoperands in Hin. destruct (Hwf user op owner Hop Hin) as (def & Hdef & Hname).
  pose proof (Hsame owner) as Ho. rewrite Hdef in Ho.
  destruct (ir1 !! owner) as [def1|]; [|done]. exists def1. split; [done|].
  destruct Ho as [_ Hcopy]. by rewrite Hcopy.
Qed.

Lemma sameUses_copy (ir ir1 : IR) (copy : OpId) (src tgt : Value) :
  sameUses ir ir1 -> isCopy ir copy src tgt -> isCopy ir1 copy src tgt.
Proof.
  intros Hsame (cop & Hcop & Hname & Hoperands). specialize (Hsame copy).
  rewrite Hcop in Hsame. destruct (ir1 !! copy) as [cop1|] eqn:Hcop1; [|done].
  destruct Hsame as [Hops Hcopy]. exists cop1. split; [done|]. split; [by apply Hcopy|].
  by rewrite Hops.
Qed.

(** A successful match, with what it has erased. *)
Lemma matchAndRewrite_erased (ir ir' : IR) (copy : OpId) (applied : Rewrite) :
  matchAndRewrite ctx ir copy = Normal (success applied, ir') ->
  exists a buf new ir1 init,
    analyze ctx ir copy = Normal (Some a) /\
    ir' = erased ir1 buf copy new /\
    sameUses ir ir1 /\
    getName ir buf = Some (BufferOp init) /\
    isCopy ir copy (copySource a) (copyTarget a) /\
    (new = copySource a \/ new = copyTarget a) /\
    (forall user op, replaceAllUsesWith (OpResult buf) new ir1 !! user = Some op ->
                     OpResult buf ∉ operands op).
Proof.
  intros (a & buf & new & ir1 & Ha & -> & Hunused & Happlied)%matchAndRewrite_success.
  destruct (analyze_Some ctx ir copy a Ha) as (Hcopy & _).
  assert (exists init, getName ir buf = Some (BufferOp init) /\ sameUses ir ir1 /\
                       (new = copySource a \/ new = copyTarget a)) as (init & ? & ? & ?).
  { destruct applied.
    - destruct Happlied as (Hbuf & _ & -> & ->).
      apply getDefiningBufferOp_Some in Hbuf as (_ & init & Hname).
      exists init. repeat split; [done| |by left]. intros o. by destruct (ir !! o).
    - destruct Happlied as (Hbuf & _ & -> & Htransfer & _).
      apply getDefiningBufferOp_Some in Hbuf as (_ & init & Hname).
      exists init. repeat split; [done| |by right]. by eapply transferInitValue_sameUses. }
  by exists a, buf, new, ir1, init.
Qed.

(** X17. A successful match erases two operations, the copy and a buffer,
    and adds none: the function has two operations less, so that the pattern
    cannot be applied for ever. *)
Theorem successful_match_erases_two_operations (ir ir' : IR) (copy : OpId)
    (applied : Rewrite) :
  matchAndRewrite ctx ir copy = Normal (success applied, ir') ->
  size ir = S (S (size ir')) /\
  ir' !! copy = None /\
  (forall o, is_Some (ir' !! o) -> is_Some (ir !! o)).
Proof.
  intros (a & buf & new & ir1 & init & Ha & -> & Hsame & Hbuf & Hcopy & _ & _)
    %matchAndRewrite_erased.
  pose proof (sameUses_copy _ _ _ _ _ Hsame Hcopy) as (cop1 & Hcop1 & Hcname & _).
  assert (Hne : copy <> buf).
  { intros ->. destruct Hcopy as (cop & Hcop & Hname & _). unfold getName in Hbuf.
    rewrite Hcop in Hbuf. cbn in Hbuf. congruence. }
  assert (Hbuf1 : is_Some (ir1 !! buf)).
  { specialize (Hsame buf). unfold getName in Hbuf.
    destruct (ir !! buf); [|done]. by destruct (ir1 !! buf). }
  unfold erased. split; [|split].
  - rewrite <- (sameUses_size ir ir1 Hsame).
    set (replaced := replaceAllUsesWith (OpResult buf) new ir1).
    assert (Hsize : size replaced = size ir1) by apply map_size_fmap.
    assert (Hb : is_Some (replaced !! buf)).
    { subst replaced. rewrite lookup_replaceAllUsesWith. by apply fmap_is_Some. }
    assert (Hc : is_Some (delete buf replaced !! copy)).
    { subst replaced. rewrite lookup_delete_ne by done.
      rewrite lookup_replaceAllUsesWith, Hcop1. by eexists. }
    rewrite (map_size_delete_Some copy _ Hc), (map_size_delete_Some buf _ Hb), Hsize.
    assert (size (delete buf replaced) <> 0%nat).
    { apply map_size_ne_0_lookup. destruct Hc as [x Hx]. by exists copy, x. }
    rewrite (map_size_delete_Some buf _ Hb), Hsize in *. lia.
  - by rewrite lookup_delete_eq.
  - intros o. rewrite erased_lookup. case_decide; [by intros [? ?]|].
    intros [x Hx]%fmap_is_Some. specialize (Hsame o). rewrite Hx in Hsame.
    by destruct (ir !! o).
Qed.

(** *** The rewrite that erases the source *)

Lemma erased_unused (ir1 : IR) (buf copy : OpId) (new : Value) :
  (forall user op, replaceAllUsesWith (OpResult buf) new ir1 !! user = Some op ->
                   OpResult buf ∉ operands op) ->
  forall user op, erased ir1 buf copy new !! user = Some op -> OpResult buf ∉ operands op.
Proof.
  intros Hunused user op. unfold erased. rewrite lookup_delete. case_decide; [done|].
  rewrite lookup_delete. case_decide; [done|]. apply Hunused.
Qed.

Lemma erased_wellFormed (ir1 : IR) (buf copy : OpId) (new : Value) (cop : Operation) :
  wellFormed ir1 ->
  ir1 !! copy = Some cop -> name cop = CopyOp -> new ∈ operands cop ->
  (forall user op, replaceAllUsesWith (OpResult buf) new ir1 !! user = Some op ->
                   OpResult buf ∉ operands op) ->
  wellFormed (erased ir1 buf copy new).
Proof.
  intros Hwf Hcop Hcname Hnew Hunused user op owner Huser Howner.
  pose proof (erased_unused ir1 buf copy new Hunused user op Huser) as Hnouse.
  unfold erased in *. pose proof (erased_lookup ir1 buf copy new) as Hlookup.
  assert (Hdef : exists def, ir1 !! owner = Some def /\ name def <> CopyOp).
  { rewrite Hlookup in Huser. case_decide; [done|].
    destruct (ir1 !! user) as [op0|] eqn:Hop0; [|done]. injection Huser as <-.
    cbn in Howner. apply list_elem_of_fmap in Howner as (v & Hv & Hin).
    unfold replaceUse in Hv. case_decide; subst.
    - by apply (Hwf copy cop owner Hcop).
    - by apply (Hwf user op0 owner). }
  destruct Hdef as (def & Hdef & Hname).
  exists (redirectUses (OpResult buf) new def). split; [|done].
  rewrite Hlookup. case_decide as Hcase; [|by rewrite Hdef].
  destruct Hcase as [-> | ->]; [|done].
  rewrite Hcop in Hdef. by injection Hdef as <-.
Qed.

(** X18. The rewrite that erases the source fires only if the rewrite that
    erases the target does not apply, the source resolves to a [BufferOp]
    that itself defines the source operand of the copy, and the operation
    that defines the target operand, if there is one, dominates every user of
    the source buffer. When it fires, the function - with the initial value
    of the source buffer, if it has one, set on the target buffer - is left
    without the copy and without the [BufferOp], every other operation is
    kept with its uses of the source buffer redirected to the target operand
    of the copy, no use of the source buffer is left, and if no operand was
    dangling before, none is after. *)
Theorem eliminate_source (ir ir' : IR) (copy : OpId) :
  matchAndRewrite ctx ir copy = Normal (success SourceAndCopyErased, ir') ->
  exists a sourceBuf ir1,
    analyze ctx ir copy = Normal (Some a) /\
    (is_Some (getDefiningBufferOp ir (target a)) -> canReplaceTarget ctx ir a = false) /\
    getDefiningBufferOp ir (source a) = Some sourceBuf /\
    copySource a = OpResult sourceBuf /\
    (forall targetView, getDefiningOp (copyTarget a) = Some targetView ->
       forall user, user ∈ sourceUsers a -> dominates ctx targetView user = true) /\
    transferInitValue ir sourceBuf a = Some ir1 /\
    (getInitValue ir sourceBuf = None -> ir1 = ir) /\
    ir' !! copy = None /\
    ir' !! sourceBuf = None /\
    (forall o, o <> copy -> o <> sourceBuf ->
       ir' !! o = redirectUses (OpResult sourceBuf) (copyTarget a) <$> ir1 !! o) /\
    (forall user op, ir' !! user = Some op -> OpResult sourceBuf ∉ operands op) /\
    (wellFormed ir -> wellFormed ir').
Proof.
  intros (a & buf & new & ir1 & Ha & -> & Hunused & Hsb & Hcan & -> & Htransfer & Hnotarget)
    %matchAndRewrite_success.
  pose proof (transferInitValue_sameUses _ _ _ _ Htransfer) as Hsame.
  destruct (analyze_Some ctx ir copy a Ha) as (Hcopy & _).
  pose proof (sameUses_copy _ _ _ _ _ Hsame Hcopy) as (cop1 & Hcop1 & Hcname & Hcoperands).
  unfold canReplaceSource in Hcan. rewrite Hsb in Hcan.
  apply canReplace_true in Hcan as (b & [= <-] & Hview & Hdom).
  assert (Hsource : copySource a = OpResult buf).
  { destruct (copySource a); cbn in Hview; congruence. }
  pose proof (erased_lookup ir1 buf copy (copyTarget a)) as Hlookup.
  exists a, buf, ir1. repeat split; try done.
  - intros Hinit. unfold transferInitValue in Htransfer. rewrite Hinit in Htransfer. congruence.
  - unfold erased. rewrite Hlookup. case_decide; [done|tauto].
  - unfold erased. rewrite Hlookup. case_decide; [done|tauto].
  - intros o Hc Hb. unfold erased. rewrite Hlookup. case_decide; [tauto|done].
  - by apply erased_unused.
  - intros Hwf. eapply erased_wellFormed; [by eapply sameUses_wellFormed|done..| |done].
    rewrite Hcoperands. right. left.
Qed.

(** *** The pattern returns *)

Lemma all_of_returns {A : Type} (pred : A -> Outcome bool) (l : list A) :
  (forall x, x ∈ l -> exists r, pred x = Normal r) -> exists r, all_of pred l = Normal r.
Proof.
  induction l as [|x l IH]; intros Hall; cbn [all_of]; [by eexists|].
  destruct (Hall x) as [r ->]; [left|]. cbn [bind]. destruct r; [|by eexists].
  apply IH. intros y Hy. apply Hall. by right.
Qed.

(** The two erasures of a rewrite do not fail. *)
Lemma erase_both_returns (ir1 : IR) (buf copy : OpId) (new : Value) (cop : Operation) :
  wellFormed ir1 ->
  ir1 !! copy = Some cop -> name cop = CopyOp -> new ∈ operands cop ->
  new <> OpResult buf ->
  (let* ir2 := replaceOp buf new ir1 in eraseOp copy ir2) = Normal (erased ir1 buf copy new).
Proof.
  intros Hwf Hcop Hcname Hnew Hne.
  assert (Hnocopy : forall user op, ir1 !! user = Some op -> OpResult copy ∉ operands op).
  { intros user op Huser Hin. destruct (Hwf user op copy Huser Hin) as (def & Hdef & Hname).
    congruence. }
  assert (H1 : replaceOp buf new ir1 =
               Normal (delete buf (replaceAllUsesWith (OpResult buf) new ir1))).
  { apply replaceOp_Normal. split; [|done]. intros user op.
    rewrite lookup_replaceAllUsesWith. destruct (ir1 !! user) as [op0|]; [|done].
    intros [= <-]. cbn. intros (v & Hv & Hin)%list_elem_of_fmap.
    unfold replaceUse in Hv. case_decide; congruence. }
  rewrite H1. cbn [bind]. apply eraseOp_Normal. split; [|done].
  apply getUsers_nil. intros user op. rewrite lookup_delete. case_decide; [done|].
  rewrite lookup_replaceAllUsesWith. destruct (ir1 !! user) as [op0|] eqn:Hop0; [|done].
  intros [= <-]. cbn. intros (v & Hv & Hin)%list_elem_of_fmap.
  unfold replaceUse in Hv. case_decide; subst.
  - by apply (Hnocopy copy cop Hcop).
  - by apply (Hnocopy user op0 Hop0).
Qed.

(** X19. On a function whose operands are defined before they are used and
    are results of operations of the function other than copies, and whose
    operations are all enclosed by one operation, the pattern returns on a
    copy between two different values: no assertion fails, neither in
    [crossRegionDominates] nor in the rewriter. *)
Theorem matchAndRewrite_returns (ir : IR) (copy : OpId) (src tgt : Value) (top : OpId) :
  definedBeforeUse ir ->
  wellFormed ir ->
  (forall o op, ir !! o = Some op -> top ∈ ancestors op) ->
  isCopy ir copy src tgt ->
  src <> tgt ->
  exists result ir', matchAndRewrite ctx ir copy = Normal (result, ir').
Proof.
  intros Hssa Hwf Htop Hcopy Hne.
  assert (Hanc : forall b, is_Some (ir !! b) -> isAncestor ir top b = true).
  { intros b [op Hop]. unfold isAncestor. rewrite Hop.
    apply orb_true_iff. right. apply bool_decide_eq_true. by eapply Htop. }
  assert (Hcopy_in : is_Some (ir !! copy)) by (destruct Hcopy as (cop & ? & _); by exists cop).
  assert (Hdom : forall memref users (pred : OpId -> Outcome bool),
    findBufferUsers (viewDepth ir) ir memref = Normal users ->
    (forall user op, ir !! user = Some op -> exists r, pred user = Normal r) ->
    exists r, all_of pred users = Normal r).
  { intros memref users pred Husers Hpred. apply all_of_returns. intros user Huser.
    apply (findBufferUsers_reaches _ _ _ _ Husers) in Huser as [[op Hop] _].
    by eapply Hpred. }
  assert (Hanalyze : exists oa, analyze ctx ir copy = Normal oa).
  { rewrite (analyze_isCopy ctx ir copy src tgt Hcopy). case_match; [by eexists|].
    destruct (findBuffer_returns ir src Hssa) as [s ->].
    destruct (findBuffer_returns ir tgt Hssa) as [t ->]. cbn [bind].
    destruct s as [s|], t as [t|]; try by eexists. case_match; [by eexists|].
    destruct (findBufferUsers_returns ir s Hssa) as [su Hsu].
    destruct (findBufferUsers_returns ir t Hssa) as [tu Htu]. rewrite Hsu, Htu. cbn [bind].
    destruct (Hdom s su (fun user => crossRegionDominates ctx ir user copy) Hsu) as [r1 ->].
    { intros user op Hop. eapply crossRegionDominates_returns; [done|by eapply Htop|].
      by apply Hanc. }
    cbn [bind]. destruct r1; [|by eexists]. cbn [negb].
    destruct (Hdom t tu (fun user => crossRegionDominates ctx ir copy user) Htu) as [r2 ->].
    { intros user op Hop. destruct Hcopy as (cop & Hcop & _).
      eapply crossRegionDominates_returns; [done|by eapply Htop|].
      apply Hanc. by exists op. }
    cbn [bind]. destruct r2; by eexists. }
  destruct Hanalyze as [[a|] Ha]; unfold matchAndRewrite; rewrite Ha; cbn [bind];
    [|by eexists _, _].
  destruct (analyze_Some ctx ir copy a Ha) as (Hcopy' & _).
  assert (copySource a = src /\ copyTarget a = tgt) as [Hsrc Htgt].
  { destruct Hcopy as (cop & Hcop & _ & Hops), Hcopy' as (cop' & Hcop' & _ & Hops').
    rewrite Hcop in Hcop'. injection Hcop' as <-. rewrite Hops in Hops'.
    by injection Hops' as <- <-. }
  assert (Hsource : exists result ir', replaceSource ctx ir copy a = Normal (result, ir')).
  { unfold replaceSource.
    destruct (getDefiningBufferOp ir (source a)) as [sourceBuf|] eqn:Hsb; [|by eexists _, _].
    destruct (canReplaceSource ctx ir a) eqn:Hcan; [|by eexists _, _].
    destruct (transferInitValue ir sourceBuf a) as [ir1|] eqn:Htransfer; [|by eexists _, _].
    pose proof (transferInitValue_sameUses _ _ _ _ Htransfer) as Hsame.
    pose proof (sameUses_copy _ _ _ _ _ Hsame Hcopy') as (cop1 & Hcop1 & Hcname & Hcops).
    unfold canReplaceSource in Hcan. rewrite Hsb in Hcan.
    apply canReplace_true in Hcan as (b & [= <-] & Hview & _).
    assert (copySource a = OpResult sourceBuf)
      by (destruct (copySource a); cbn in Hview; congruence).
    pose proof (erase_both_returns ir1 sourceBuf copy (copyTarget a) cop1
      (sameUses_wellFormed _ _ Hsame Hwf) Hcop1 Hcname) as Herase.
    cbn [bind] in Herase.
    destruct (replaceOp sourceBuf (copyTarget a) ir1) as [ir2|]; cbn [bind] in *.
    - rewrite Herase; [by eexists _, _| |congruence]. rewrite Hcops. right. left.
    - exfalso. assert (Abort (A:=IR) f = Normal (erased ir1 sourceBuf copy (copyTarget a)));
        [|done]. apply Herase; [|congruence]. rewrite Hcops. right. left. }
  unfold rewrite.
  destruct (getDefiningBufferOp ir (target a)) as [targetBuf|] eqn:Htb; [|done].
  destruct (canReplaceTarget ctx ir a) eqn:Hcan; [|done].
  unfold canReplaceTarget in Hcan. rewrite Htb in Hcan.
  apply canReplace_true in Hcan as (b & [= <-] & Hview & _).
  assert (copyTarget a = OpResult targetBuf)
    by (destruct (copyTarget a); cbn in Hview; congruence).
  destruct Hcopy' as (cop & Hcop & Hcname & Hcops).
  pose proof (erase_both_returns ir targetBuf copy (copySource a) cop Hwf Hcop Hcname)
    as Herase.
  cbn [bind] in Herase.
  destruct (replaceOp targetBuf (copySource a) ir) as [ir1|]; cbn [bind] in *.
  - rewrite Herase; [by eexists _, _| |congruence]. rewrite Hcops. left.
  - exfalso. assert (Abort (A:=IR) f = Normal (erased ir targetBuf copy (copySource a)));
      [|done]. apply Herase; [|congruence]. rewrite Hcops. left.
Qed.

(** *** Definitions before uses *)

(** The buffer that a rewrite erases, and the value that replaces it. *)
Definition erasedBuffer (ir : IR) (a : Analysis) (applied : Rewrite) : option OpId :=
  match applied with
  | TargetAndCopyErased => getDefiningBufferOp ir (target a)
  | SourceAndCopyErased => getDefiningBufferOp ir (source a)
  end.

Definition replacement (a : Analysis) (applied : Rewrite) : Value :=
  match applied with
  | TargetAndCopyErased => copySource a
  | SourceAndCopyErased => copyTarget a
  end.

Lemma sameUses_definedBeforeUse (ir ir1 : IR) :
  sameUses ir ir1 -> definedBeforeUse ir -> definedBeforeUse ir1.
Proof.
  intros Hsame Hssa user op1 owner Huser Hin. specialize (Hsame user).
  rewrite Huser in Hsame. destruct (ir !! user) as [op|] eqn:Hop; [|done].
  destruct Hsame as [Hoperands _]. rewrite Hoperands in Hin. by eapply Hssa.
Qed.

Lemma erased_definedBeforeUse (ir1 : IR) (buf copy : OpId) (new : Value) :
  definedBeforeUse ir1 ->
  (forall owner user op, new = OpResult owner -> ir1 !! user = Some op ->
     OpResult buf ∈ operands op -> user <> copy -> (owner < user)%positive) ->
  definedBeforeUse (erased ir1 buf copy new).
Proof.
  intros Hssa Hnew user op owner Huser Hin. unfold erased in Huser.
  rewrite erased_lookup in Huser. case_decide as Hcase; [done|].
  destruct (ir1 !! user) as [op0|] eqn:Hop0; [|done]. injection Huser as <-.
  cbn in Hin. apply list_elem_of_fmap in Hin as (v & Hv & Hvin).
  unfold replaceUse in Hv. case_decide; subst.
  - apply (Hnew owner user op0); [done..|]. tauto.
  - by apply (Hssa user op0 owner).
Qed.

(** X20. A rewrite keeps the operands defined before they are used, under a
    condition on every direct user of the erased buffer, the views included
    (the users whose dominance the pattern tests are those that
    [findBufferUsers] returns, and these are no views): if the operands of
    the function are defined before they are used, and every operation other
    than the copy that uses the erased buffer directly comes after the
    definition of the value that replaces the buffer, then the operands of
    the rewritten function are defined before they are used. *)
Theorem rewrite_keeps_definitions_before_uses (ir ir' : IR) (copy : OpId) (applied : Rewrite)
    (a : Analysis) (buf : OpId) :
  matchAndRewrite ctx ir copy = Normal (success applied, ir') ->
  analyze ctx ir copy = Normal (Some a) ->
  erasedBuffer ir a applied = Some buf ->
  definedBeforeUse ir ->
  (forall owner user, replacement a applied = OpResult owner ->
     user ∈ getUsers ir (OpResult buf) -> user <> copy -> (owner < user)%positive) ->
  definedBeforeUse ir'.
Proof.
  intros (a' & buf' & new & ir1 & Ha' & -> & _ & Happlied)%matchAndRewrite_success
    Ha Hbuf Hssa Hafter.
  rewrite Ha in Ha'. injection Ha' as <-.
  assert (buf' = buf /\ new = replacement a applied /\ sameUses ir ir1) as (-> & -> & Hsame).
  { destruct applied; cbn in Hbuf |- *.
    - destruct Happlied as (Hb & _ & -> & ->). split; [congruence|]. split; [done|].
      intros o. by destruct (ir !! o).
    - destruct Happlied as (Hb & _ & -> & Htransfer & _). split; [congruence|].
      split; [done|]. by eapply transferInitValue_sameUses. }
  apply erased_definedBeforeUse; [by eapply sameUses_definedBeforeUse|].
  intros owner user op1 Hnew Huser Hin Hne. apply Hafter; [done| |done].
  specialize (Hsame user). rewrite Huser in Hsame.
  destruct (ir !! user) as [op|] eqn:Hop; [|done]. destruct Hsame as [Hoperands _].
  apply elem_of_getUsers. exists op. split; [done|]. by rewrite <- Hoperands.
Qed.

End Rewritten.
(** *** The pattern on the functions of the examples *)

Lemma findBuffer_idempotent_witness :
  isBuffer copyFromInitialized (OpResult 3) /\
  findBuffer 1 copyFromInitialized (OpResult 3) = Normal (Some (OpResult 3)).
Proof.
  exact (findBuffer_idempotent (viewDepth copyFromInitialized) 0 copyFromInitialized
           (OpResult 4) (OpResult 3) ltac:(by vm_compute)).
Defined.

Lemma findBufferUsers_finds_the_users_witness :
  (forall user, user ∈ [30%positive; 20%positive] <->
                reaches copyFromInitialized (OpResult 3) user) /\
  (forall user, user ∈ [30%positive; 20%positive] ->
     is_Some (copyFromInitialized !! user) /\
     getName copyFromInitialized user <> Some ViewLikeOp).
Proof.
  exact (findBufferUsers_finds_the_users (viewDepth copyFromInitialized) copyFromInitialized
           (OpResult 3) [30%positive; 20%positive] ltac:(by vm_compute)).
Defined.

(** A buffer (5) written in a loop (10) by the operation 11, then copied
    (20) into a block argument; the function is the operation 1. *)
Definition copyAfterLoop : IR :=
  list_to_map
    [(5%positive, {| name := BufferOp None; operands := []; ancestors := [1%positive] |});
     (10%positive, {| name := OtherOp; operands := []; ancestors := [1%positive] |});
     (11%positive, {| name := OtherOp; operands := [OpResult 5];
                      ancestors := [10%positive; 1%positive] |});
     (20%positive, {| name := CopyOp; operands := [OpResult 5; BlockArgument 0];
                      ancestors := [1%positive] |})].

Lemma crossRegionDominates_climbs_witness :
  crossRegionDominates plainContext copyAfterLoop 11 20
  = Normal (dominates plainContext 10 20).
Proof.
  refine (proj2 (crossRegionDominates_climbs plainContext copyAfterLoop 11 20 [10%positive]
                   _ _ _) 1%positive [] _ _); try done.
  by repeat constructor.
Defined.

Lemma successful_match_erases_two_operations_witness :
  size copyIntoLocal = S (S (size copyIntoLocalRewritten)) /\
  copyIntoLocalRewritten !! 20%positive = None /\
  (forall o, is_Some (copyIntoLocalRewritten !! o) -> is_Some (copyIntoLocal !! o)).
Proof.
  exact (successful_match_erases_two_operations plainContext copyIntoLocal
           copyIntoLocalRewritten 20 TargetAndCopyErased copyIntoLocal_rewritten).
Defined.

Lemma eliminate_source_witness :
  exists a sourceBuf ir1,
    analyze plainContext copyFromInitialized 20 = Normal (Some a) /\
    (is_Some (getDefiningBufferOp copyFromInitialized (target a)) ->
     canReplaceTarget plainContext copyFromInitialized a = false) /\
    getDefiningBufferOp copyFromInitialized (source a) = Some sourceBuf /\
    copySource a = OpResult sourceBuf /\
    (forall targetView, getDefiningOp (copyTarget a) = Some targetView ->
       forall user, user ∈ sourceUsers a -> dominates plainContext targetView user = true) /\
    transferInitValue copyFromInitialized sourceBuf a = Some ir1 /\
    (getInitValue copyFromInitialized sourceBuf = None -> ir1 = copyFromInitialized) /\
    copyFromInitializedRewritten !! 20%positive = None /\
    copyFromInitializedRewritten !! sourceBuf = None /\
    (forall o, o <> 20%positive -> o <> sourceBuf ->
       copyFromInitializedRewritten !! o
         = redirectUses (OpResult sourceBuf) (copyTarget a) <$> ir1 !! o) /\
    (forall user op, copyFromInitializedRewritten !! user = Some op ->
       OpResult sourceBuf ∉ operands op) /\
    (wellFormed copyFromInitialized -> wellFormed copyFromInitializedRewritten).
Proof.
  exact (eliminate_source plainContext copyFromInitialized copyFromInitializedRewritten 20
           copyFromInitialized_rewritten).
Defined.

(** The operations of a function given by a list. *)
Lemma lookup_listed (l : list (OpId * Operation)) (o : OpId) (op : Operation) :
  (list_to_map l : IR) !! o = Some op -> (o, op) ∈ l.
Proof. apply elem_of_list_to_map_2. Qed.

(** Each operation of a listed function, and each of its operands, in turn. *)
Ltac each_operation H :=
  repeat (apply elem_of_cons in H as [H|H]; [injection H as -> ->|]);
  [..|by apply elem_of_nil in H].

Ltac each_operand H :=
  cbn in H;
  repeat (apply elem_of_cons in H as [H|H]; [try discriminate H; try (injection H as ->)|]);
  [..|by apply elem_of_nil in H].

Lemma copyIntoLocal_definedBeforeUse : definedBeforeUse copyIntoLocal.
Proof.
  intros user op owner Huser%lookup_listed Hin.
  each_operation Huser; each_operand Hin; done.
Qed.

Lemma copyIntoLocal_wellFormed : wellFormed copyIntoLocal.
Proof.
  intros user op owner Huser%lookup_listed Hin.
  each_operation Huser; each_operand Hin; by eexists.
Qed.

Lemma copyIntoLocal_enclosed (o : OpId) (op : Operation) :
  copyIntoLocal !! o = Some op -> 1%positive ∈ ancestors op.
Proof. intros Ho%lookup_listed. each_operation Ho; by left. Qed.

Lemma matchAndRewrite_returns_witness :
  exists result ir', matchAndRewrite plainContext copyIntoLocal 20 = Normal (result, ir').
Proof.
  refine (matchAndRewrite_returns plainContext copyIntoLocal 20 (BlockArgument 0) (OpResult 10)
            1 copyIntoLocal_definedBeforeUse copyIntoLocal_wellFormed copyIntoLocal_enclosed
            _ _); [by eexists|done].
Defined.

Lemma copyFromInitialized_definedBeforeUse : definedBeforeUse copyFromInitialized.
Proof.
  intros user op owner Huser%lookup_listed Hin.
  each_operation Huser; each_operand Hin; done.
Qed.

Lemma rewrite_keeps_definitions_before_uses_witness :
  definedBeforeUse copyFromInitialized /\ definedBeforeUse copyFromInitializedRewritten.
Proof.
  split; [exact copyFromInitialized_definedBeforeUse|].
  refine (rewrite_keeps_definitions_before_uses plainContext copyFromInitialized
            copyFromInitializedRewritten 20 SourceAndCopyErased copyFromInitializedAnalysis 2
            copyFromInitialized_rewritten ltac:(by vm_compute) ltac:(by vm_compute)
            copyFromInitialized_definedBeforeUse _).
  intros owner user [= <-] Huser Hne.
  apply elem_of_getUsers in Huser as (op & Huser%lookup_listed & Hin).
  each_operation Huser; each_operand Hin; done.
Defined.

End SimplifyCopyCoverage.
